(** * MrsWatson: the host's [main] and the render loop

    A shallow embedding of [source/MrsWatson.c] (the function [main]) and of
    the [Plugin] record of [source/Plugin.h].  The collaborators that [main]
    calls but whose code lives in other translation units (sample sources,
    MIDI sources, the plugin chain, libc) are gathered in the record
    [Collaborators]; [main] is written once, over any such record.  The
    audio clock, the task timer, the MIDI range query and a finite sample
    source are then modelled from the specification and plugged in. *)

From Stdlib Require Import ZArith List Bool Lia Permutation.
From Stdlib Require Strings.String Numbers.DecimalString.
Import ListNotations.
Import String.StringSyntax.
Local Open Scope Z_scope.

Abbreviation string := String.string.
Delimit Scope string_scope with string.

(** ** Data *)

(** The status codes [main] returns (declared in MrsWatson.h). *)
Inductive ReturnCode :=
| RETURN_CODE_SUCCESS
| RETURN_CODE_NOT_RUN
| RETURN_CODE_INVALID_ARGUMENT
| RETURN_CODE_MISSING_REQUIRED_OPTION
| RETURN_CODE_IO_ERROR
| RETURN_CODE_PLUGIN_ERROR
| RETURN_CODE_INVALID_PLUGIN_CHAIN.

(** Modelled from the spec: the constructor [PLUGIN_TYPE_INSTRUMENT], the
    role value that [main] (line 171) compares the head plugin's tag with
    and that Plugin.h does not declare.  The other two constructors are the
    enumeration of Plugin.h, lines 15-18. *)
Inductive PluginType :=
| PLUGIN_TYPE_INVALID
| PLUGIN_TYPE_VST_2X
| PLUGIN_TYPE_INSTRUMENT.

Definition PluginType_eqb (a b : PluginType) : bool :=
  match a, b with
  | PLUGIN_TYPE_INVALID, PLUGIN_TYPE_INVALID
  | PLUGIN_TYPE_VST_2X, PLUGIN_TYPE_VST_2X
  | PLUGIN_TYPE_INSTRUMENT, PLUGIN_TYPE_INSTRUMENT => true
  | _, _ => false
  end.

(** [newSampleBuffer(numChannels, blocksize)]: the shape of a buffer.  The
    samples themselves are floating point and are not part of the model. *)
Record SampleBuffer := {
  bufferChannels : Z;
  bufferBlocksize : Z
}.

Definition newSampleBuffer (channels size : Z) : SampleBuffer :=
  {| bufferChannels := channels; bufferBlocksize := size |}.

(** Plugin.h, lines 23-31.  The two function pointers take the plugin itself
    as their first argument; [extraData] is an untyped pointer and is left
    out. *)
Record PluginMembers := {
  pluginType : PluginType;
  pluginName : string;
  open : string -> bool;
  process : SampleBuffer -> SampleBuffer
}.

Definition Plugin := PluginMembers.

(** [pluginChain->plugins] with [pluginChain->numPlugins] its length. *)
Record PluginChainMembers := {
  plugins : list Plugin
}.

Definition PluginChain := PluginChainMembers.

Definition numPlugins (c : PluginChain) : Z := Z.of_nat (List.length (plugins c)).

Definition newPluginChain : PluginChain := {| plugins := [] |}.

(** A MIDI event: its absolute sample position and its raw bytes. *)
Record MidiEvent := {
  timestamp : Z;
  message : list Z
}.

Definition MidiSequence := list MidiEvent.

(** Modelled from the spec: the sample source variants of SampleSource.h,
    of which [main] names [SAMPLE_SOURCE_TYPE_SILENCE] only. *)
Inductive SampleSourceType :=
| SAMPLE_SOURCE_TYPE_INVALID
| SAMPLE_SOURCE_TYPE_SILENCE
| SAMPLE_SOURCE_TYPE_PCM.

Inductive SampleSourceOpenAs :=
| SAMPLE_SOURCE_OPEN_READ
| SAMPLE_SOURCE_OPEN_WRITE.

(** The options [main] looks at, and one parsed option. *)
Inductive OptionIndex :=
| OPTION_BLOCKSIZE
| OPTION_CHANNELS
| OPTION_COLOR_LOGGING
| OPTION_DISPLAY_INFO
| OPTION_FILE_TYPES
| OPTION_HELP
| OPTION_INPUT_SOURCE
| OPTION_MIDI_SOURCE
| OPTION_OUTPUT_SOURCE
| OPTION_PLUGIN
| OPTION_QUIET
| OPTION_SAMPLERATE
| OPTION_VERBOSE
| OPTION_VERSION.

Record ProgramOptionMembers := {
  index : OptionIndex;
  enabled : bool;
  argument : string
}.

Definition ProgramOption := ProgramOptionMembers.

(** The array [programOptions], indexed by the enumeration. *)
Definition ProgramOptions := OptionIndex -> ProgramOption.

(** The indices [0 .. NUM_OPTIONS - 1] that the loop of line 104 runs
    through.  ProgramOption.h is not part of the sources; the order taken
    here only fixes the order in which the sources are constructed. *)
Definition optionIndices : list OptionIndex :=
  [ OPTION_BLOCKSIZE; OPTION_CHANNELS; OPTION_COLOR_LOGGING;
    OPTION_DISPLAY_INFO; OPTION_FILE_TYPES; OPTION_HELP; OPTION_INPUT_SOURCE;
    OPTION_MIDI_SOURCE; OPTION_OUTPUT_SOURCE; OPTION_PLUGIN; OPTION_QUIET;
    OPTION_SAMPLERATE; OPTION_VERBOSE; OPTION_VERSION ].

(** ** The calls [main] makes, in order *)

Inductive Call :=
| Printf (text : string)
| LogError (msg : string)
| LogWarn (msg : string)
| LogInfo (msg : string) (args : list Z)
| NewSampleSource (type : SampleSourceType) (name : option string)
| NewMidiSource (name : string)
| AddPluginsFromArgumentString (arg : string)
| InitializePluginChain
| DisplayPluginInfo
| OpenSampleSource (mode : SampleSourceOpenAs)
| OpenMidiSource
| ReadMidiEvents
| ReadSampleBlock (frames : Z) (result : bool)
| FillMidiEventsFromRange (start length : Z) (events : list MidiEvent) (result : bool)
| ProcessPluginChainMidiEvents (events : list MidiEvent)
| ProcessPluginChainAudio
| WriteSampleBlock
| AdvanceAudioClock (n : Z)
| StopAudioClock.

(** Opening, reading or writing a sample or MIDI source. *)
Definition isSourceIO (c : Call) : bool :=
  match c with
  | OpenSampleSource _ | OpenMidiSource | ReadMidiEvents
  | ReadSampleBlock _ _ | WriteSampleBlock => true
  | _ => false
  end.

Definition isRead (c : Call) : bool :=
  match c with ReadSampleBlock _ _ => true | _ => false end.

Definition isWrite (c : Call) : bool :=
  match c with WriteSampleBlock => true | _ => false end.

Definition isAudioProcessing (c : Call) : bool :=
  match c with ProcessPluginChainAudio => true | _ => false end.

(** ** Audio clock *)

(** Modelled from the spec: AudioClock.c is not part of the sources.  The
    clock is one frame counter that starts at 0; [advanceAudioClock n] adds
    [n]; [stopAudioClock] freezes further advancement and is idempotent. *)
Record AudioClock := {
  currentSample : Z;
  stopped : bool
}.

Definition initAudioClock : AudioClock :=
  {| currentSample := 0; stopped := false |}.

Definition getAudioClockCurrentSample (c : AudioClock) : Z := currentSample c.

Definition advanceAudioClock (n : Z) (c : AudioClock) : AudioClock :=
  if stopped c then c
  else {| currentSample := currentSample c + n; stopped := false |}.

Definition stopAudioClock (c : AudioClock) : AudioClock :=
  {| currentSample := currentSample c; stopped := true |}.

(** ** Task timer *)

(** Modelled from the spec: TaskTimer.c is not part of the sources.  A timer
    has a fixed number of slots; starting a task closes the measurement
    window of the task that was running and opens one for the new task;
    [stopTiming] closes the last open window.  Closing a window adds its
    length to the slot of its task.  [now] is the wall clock reading the
    call takes. *)
Record TaskTimerMembers := {
  numTasks : Z;
  currentTask : option Z;
  startTime : Z;
  totalTaskTimes : list Z
}.

Definition TaskTimer := TaskTimerMembers.

Fixpoint addTaskTime (i : nat) (d : Z) (times : list Z) : list Z :=
  match times, i with
  | [], _ => []
  | t :: rest, O => (t + d) :: rest
  | t :: rest, S j => t :: addTaskTime j d rest
  end.

Definition newTaskTimer (n : Z) : TaskTimer :=
  {| numTasks := n;
     currentTask := None;
     startTime := 0;
     totalTaskTimes := repeat 0 (Z.to_nat n) |}.

Definition closeTaskWindow (now : Z) (t : TaskTimer) : list Z :=
  match currentTask t with
  | Some id =>
      if (0 <=? id) && (id <? numTasks t)
      then addTaskTime (Z.to_nat id) (now - startTime t) (totalTaskTimes t)
      else totalTaskTimes t
  | None => totalTaskTimes t
  end.

Definition startTimingTask (taskId : Z) (now : Z) (t : TaskTimer) : TaskTimer :=
  {| numTasks := numTasks t;
     currentTask := Some taskId;
     startTime := now;
     totalTaskTimes := closeTaskWindow now t |}.

Definition stopTiming (now : Z) (t : TaskTimer) : TaskTimer :=
  {| numTasks := numTasks t;
     currentTask := None;
     startTime := now;
     totalTaskTimes := closeTaskWindow now t |}.

(** ** Collaborators *)

(** What [main] calls in other translation units.  Sample and MIDI sources
    are structures of function pointers in the C code; here a call through
    such a pointer takes the source and returns its answer, and the source
    as the call left it where [main] uses the source again.

    - [parseCommandLine] answers [None] where the C function returns false;
    - [addPluginsFromArgumentString] likewise, else the chain it extended;
    - [readSampleBlock] answers the value [main] negates, the number of
      frames put in the buffer, and the source;
    - [readMidiEvents] answers its result and the sequence it filled;
    - [fillMidiEventsFromRange] answers its result and the events it
      appended to the list;
    - [wallClock n] is the [n]-th reading the task timer takes of the wall
      clock, in milliseconds. *)
Record Collaborators := {
  SampleSource : Type;
  MidiSource : Type;
  AudioSettings : Type;
  parseCommandLine : list string -> option ProgramOptions;
  strtol : string -> Z;
  initAudioSettings : AudioSettings;
  setBlocksize : Z -> AudioSettings -> AudioSettings;
  setNumChannels : Z -> AudioSettings -> AudioSettings;
  getBlocksize : AudioSettings -> Z;
  getNumChannels : AudioSettings -> Z;
  guessSampleSourceType : string -> SampleSourceType;
  newSampleSource : SampleSourceType -> option string -> SampleSource;
  newMidiSource : string -> MidiSource;
  addPluginsFromArgumentString : PluginChain -> string -> option PluginChain;
  initializePluginChain : PluginChain -> bool;
  openSampleSource : SampleSource -> SampleSourceOpenAs -> bool * SampleSource;
  readSampleBlock : SampleSource -> SampleBuffer -> bool * Z * SampleSource;
  writeSampleBlock : SampleSource -> SampleBuffer -> SampleSource;
  numFramesProcessed : SampleSource -> Z;
  openMidiSource : MidiSource -> bool;
  readMidiEvents : MidiSource -> bool * MidiSequence;
  fillMidiEventsFromRange : MidiSequence -> Z -> Z -> bool * list MidiEvent;
  wallClock : nat -> Z
}.

(** [unsigned long] of an LP64 target: the type of [totalProcessingTime]. *)
Definition ULONG_MODULUS : Z := 2 ^ 64.

(** The messages [main] logs. *)
Module Msg.
Local Open Scope string_scope.
Definition usage := "Usage: %s (options), where options include:".
Definition version := "%s, build %ld".
Definition fileTypes := "Supported source types: ".
Definition initialized := "%s initialized".
Definition noPlugins := "No plugins loaded".
Definition chainNotInitialized := "Could not initialize plugin chain".
Definition noOutput := "No output source".
Definition noMidi :=
  "Plugin chain contains an instrument, but no MIDI source was supplied".
Definition noInput := "No input source".
Definition inputNotOpened := "Input source '%s' could not be opened".
Definition outputNotOpened := "Output source '%s' could not be opened".
Definition midiNotOpened := "MIDI source '%s' could not be opened".
Definition midiNotRead := "Failed reading MIDI events from source '%s'".
Definition processing :=
  "Processing with sample rate %.0f, blocksize %d, %d channels".
Definition totalTime :=
  "Total processing time %ldms, approximate breakdown by component:".
Definition taskTime := "  %s: %ldms".
Definition frames := "Read %ld frames from %s, wrote %ld frames to %s".
Definition shuttingDown := "Shutting down".
Definition goodbye := "Goodbye!".
End Msg.

(** One stretch of [main]: it runs on with a value, or [main] returns. *)
Inductive Step (A : Type) :=
| Next (a : A)
| Exit (rc : ReturnCode).

Arguments Next {A} a.
Arguments Exit {A} rc.

Section Main.

Variable X : Collaborators.

(** ** Process-wide state and the locals of [main] *)

(** The state behind [initAudioSettings], [initAudioClock] and the event
    logger, with the number of wall clock readings taken so far and the
    calls made so far, oldest first. *)
Record Process := {
  audioSettings : AudioSettings X;
  audioClock : AudioClock;
  wallReadings : nat;
  calls : list Call
}.

(** Lines 54-59: the locals that the option loop fills; [None] is NULL. *)
Record Configured := {
  cfgInputSource : option (SampleSource X);
  cfgOutputSource : option (SampleSource X);
  cfgPluginChain : PluginChain;
  cfgDisplayPluginInfo : bool;
  cfgMidiSource : option (MidiSource X)
}.

(** The locals of [main] when the loop of line 220 is entered. *)
Record Locals := {
  inputSource : SampleSource X;
  outputSource : SampleSource X;
  pluginChain : PluginChain;
  midiSequence : option MidiSequence;
  blocksize : Z;
  inputSampleBuffer : SampleBuffer;
  outputSampleBuffer : SampleBuffer;
  finishedReading : bool;
  taskTimer : TaskTimer;
  hostTaskId : Z
}.

(** A computation of [main] over the process state. *)
Definition M (A : Type) : Type := Process -> Step A * Process.

Definition ret {A} (a : A) : M A := fun p => (Next a, p).

Definition bind {A B} (m : M A) (k : A -> M B) : M B :=
  fun p =>
    match m p with
    | (Next a, p') => k a p'
    | (Exit rc, p') => (Exit rc, p')
    end.

Definition exit {A} (rc : ReturnCode) : M A := fun p => (Exit rc, p).

Notation "x <- m ;; k" := (bind m (fun x => k))
  (at level 61, m at next level, right associativity).
Notation "m ;;; k" := (bind m (fun _ => k))
  (at level 61, right associativity).

Definition record (c : Call) (p : Process) : Process :=
  {| audioSettings := audioSettings p;
     audioClock := audioClock p;
     wallReadings := wallReadings p;
     calls := calls p ++ [c] |}.

Definition call (c : Call) : M unit := fun p => (Next tt, record c p).

Definition withSettings (f : AudioSettings X -> AudioSettings X) : M unit :=
  fun p =>
    (Next tt,
     {| audioSettings := f (audioSettings p);
        audioClock := audioClock p;
        wallReadings := wallReadings p;
        calls := calls p |}).

Definition withClock (f : AudioClock -> AudioClock) (p : Process) : Process :=
  {| audioSettings := audioSettings p;
     audioClock := f (audioClock p);
     wallReadings := wallReadings p;
     calls := calls p |}.

(** One reading of the wall clock. *)
Definition readWallClock (p : Process) : Z * Process :=
  (wallClock X (wallReadings p),
   {| audioSettings := audioSettings p;
      audioClock := audioClock p;
      wallReadings := S (wallReadings p);
      calls := calls p |}).

(** [logError(msg); return rc;] *)
Definition fail {A} (msg : string) (rc : ReturnCode) : M A :=
  call (LogError msg) ;;; exit rc.

(** Lines 49-51. *)
Definition startProcess : Process :=
  {| audioSettings := initAudioSettings X;
     audioClock := initAudioClock;
     wallReadings := O;
     calls := [] |}.

(** ** [main], lines 48-217: up to the processing loop *)

(** One round of the loop of lines 104-139.  [setSampleRate] takes a
    floating point value and is left out. *)
Definition handleOption (option : ProgramOption) (c : Configured) : M Configured :=
  if enabled option then
    match index option with
    | OPTION_BLOCKSIZE =>
        withSettings (setBlocksize X (strtol X (argument option))) ;;; ret c
    | OPTION_CHANNELS =>
        withSettings (setNumChannels X (strtol X (argument option))) ;;; ret c
    | OPTION_DISPLAY_INFO =>
        ret {| cfgInputSource := cfgInputSource c;
               cfgOutputSource := cfgOutputSource c;
               cfgPluginChain := cfgPluginChain c;
               cfgDisplayPluginInfo := true;
               cfgMidiSource := cfgMidiSource c |}
    | OPTION_INPUT_SOURCE =>
        let type := guessSampleSourceType X (argument option) in
        call (NewSampleSource type (Some (argument option))) ;;;
        ret {| cfgInputSource := Some (newSampleSource X type (Some (argument option)));
               cfgOutputSource := cfgOutputSource c;
               cfgPluginChain := cfgPluginChain c;
               cfgDisplayPluginInfo := cfgDisplayPluginInfo c;
               cfgMidiSource := cfgMidiSource c |}
    | OPTION_MIDI_SOURCE =>
        call (NewMidiSource (argument option)) ;;;
        ret {| cfgInputSource := cfgInputSource c;
               cfgOutputSource := cfgOutputSource c;
               cfgPluginChain := cfgPluginChain c;
               cfgDisplayPluginInfo := cfgDisplayPluginInfo c;
               cfgMidiSource := Some (newMidiSource X (argument option)) |}
    | OPTION_OUTPUT_SOURCE =>
        let type := guessSampleSourceType X (argument option) in
        call (NewSampleSource type (Some (argument option))) ;;;
        ret {| cfgInputSource := cfgInputSource c;
               cfgOutputSource := Some (newSampleSource X type (Some (argument option)));
               cfgPluginChain := cfgPluginChain c;
               cfgDisplayPluginInfo := cfgDisplayPluginInfo c;
               cfgMidiSource := cfgMidiSource c |}
    | OPTION_PLUGIN =>
        call (AddPluginsFromArgumentString (argument option)) ;;;
        match addPluginsFromArgumentString X (cfgPluginChain c) (argument option) with
        | None => exit RETURN_CODE_INVALID_PLUGIN_CHAIN
        | Some chain =>
            ret {| cfgInputSource := cfgInputSource c;
                   cfgOutputSource := cfgOutputSource c;
                   cfgPluginChain := chain;
                   cfgDisplayPluginInfo := cfgDisplayPluginInfo c;
                   cfgMidiSource := cfgMidiSource c |}
        end
    | _ => ret c
    end
  else ret c.

Fixpoint handleOptions (programOptions : ProgramOptions) (indices : list OptionIndex)
    (c : Configured) : M Configured :=
  match indices with
  | [] => ret c
  | i :: rest =>
      c' <- handleOption (programOptions i) c ;;
      handleOptions programOptions rest c'
  end.

(** Lines 54-59. *)
Definition unconfigured : Configured :=
  {| cfgInputSource := None;
     cfgOutputSource := None;
     cfgPluginChain := newPluginChain;
     cfgDisplayPluginInfo := false;
     cfgMidiSource := None |}.

(** Lines 61-146.  The log level and colour options only configure the
    logger. *)
Definition main_options (argv : list string) : M Configured :=
  match parseCommandLine X argv with
  | None => exit RETURN_CODE_INVALID_ARGUMENT
  | Some programOptions =>
      if enabled (programOptions OPTION_HELP) || (Z.of_nat (List.length argv) =? 1) then
        call (Printf Msg.usage) ;;; exit RETURN_CODE_NOT_RUN
      else if enabled (programOptions OPTION_VERSION) then
        call (Printf Msg.version) ;;; exit RETURN_CODE_NOT_RUN
      else if enabled (programOptions OPTION_FILE_TYPES) then
        call (Printf Msg.fileTypes) ;;; exit RETURN_CODE_NOT_RUN
      else
        c <- handleOptions programOptions optionIndices unconfigured ;;
        call (LogInfo Msg.initialized []) ;;;
        ret c
  end.

(** Lines 148-160. *)
Definition main_chain (c : Configured) : M unit :=
  if numPlugins (cfgPluginChain c) =? 0 then
    fail Msg.noPlugins RETURN_CODE_MISSING_REQUIRED_OPTION
  else
    call InitializePluginChain ;;;
    if negb (initializePluginChain X (cfgPluginChain c)) then
      fail Msg.chainNotInitialized RETURN_CODE_PLUGIN_ERROR
    else if cfgDisplayPluginInfo c then call DisplayPluginInfo
    else ret tt.

(** Lines 162-182: the output source, then the input source.  The empty
    chain has been turned away at line 149, so [plugins[0]] exists; the
    branch for the empty list is never taken. *)
Definition main_sources (c : Configured) : M (SampleSource X * SampleSource X) :=
  match cfgOutputSource c with
  | None => fail Msg.noOutput RETURN_CODE_MISSING_REQUIRED_OPTION
  | Some outputSource =>
      match cfgInputSource c with
      | Some inputSource => ret (inputSource, outputSource)
      | None =>
          match plugins (cfgPluginChain c) with
          | headPlugin :: _ =>
              if PluginType_eqb (pluginType headPlugin) PLUGIN_TYPE_INSTRUMENT then
                call (NewSampleSource SAMPLE_SOURCE_TYPE_SILENCE None) ;;;
                match cfgMidiSource c with
                | None => fail Msg.noMidi RETURN_CODE_MISSING_REQUIRED_OPTION
                | Some _ =>
                    ret (newSampleSource X SAMPLE_SOURCE_TYPE_SILENCE None, outputSource)
                end
              else fail Msg.noInput RETURN_CODE_MISSING_REQUIRED_OPTION
          | [] => fail Msg.noInput RETURN_CODE_MISSING_REQUIRED_OPTION
          end
      end
  end.

(** Lines 184-206. *)
Definition main_open (c : Configured) (sources : SampleSource X * SampleSource X)
    : M (SampleSource X * SampleSource X * option MidiSequence) :=
  let '(inputSource, outputSource) := sources in
  call (OpenSampleSource SAMPLE_SOURCE_OPEN_READ) ;;;
  let '(inputOpened, inputSource) :=
    openSampleSource X inputSource SAMPLE_SOURCE_OPEN_READ in
  if negb inputOpened then fail Msg.inputNotOpened RETURN_CODE_IO_ERROR
  else
    call (OpenSampleSource SAMPLE_SOURCE_OPEN_WRITE) ;;;
    let '(outputOpened, outputSource) :=
      openSampleSource X outputSource SAMPLE_SOURCE_OPEN_WRITE in
    if negb outputOpened then fail Msg.outputNotOpened RETURN_CODE_IO_ERROR
    else
      match cfgMidiSource c with
      | None => ret (inputSource, outputSource, None)
      | Some midiSource =>
          call OpenMidiSource ;;;
          if negb (openMidiSource X midiSource) then
            fail Msg.midiNotOpened RETURN_CODE_IO_ERROR
          else
            call ReadMidiEvents ;;;
            let '(eventsRead, midiSequence) := readMidiEvents X midiSource in
            if negb eventsRead then
              call (LogWarn Msg.midiNotRead) ;;; exit RETURN_CODE_IO_ERROR
            else ret (inputSource, outputSource, Some midiSequence)
      end.

(** Lines 208-217. *)
Definition main_locals (c : Configured)
    (opened : SampleSource X * SampleSource X * option MidiSequence) : M Locals :=
  fun p =>
    let '(inputSource, outputSource, midiSequence) := opened in
    let blocksize := getBlocksize X (audioSettings p) in
    let channels := getNumChannels X (audioSettings p) in
    let taskTimer := newTaskTimer (numPlugins (cfgPluginChain c) + 1) in
    (Next {| inputSource := inputSource;
             outputSource := outputSource;
             pluginChain := cfgPluginChain c;
             midiSequence := midiSequence;
             blocksize := blocksize;
             inputSampleBuffer := newSampleBuffer channels blocksize;
             outputSampleBuffer := newSampleBuffer channels blocksize;
             finishedReading := false;
             taskTimer := taskTimer;
             hostTaskId := numTasks taskTimer - 1 |},
     record (LogInfo Msg.processing [blocksize; channels]) p).

Definition main_setup (argv : list string) : M Locals :=
  c <- main_options argv ;;
  main_chain c ;;;
  sources <- main_sources c ;;
  opened <- main_open c sources ;;
  main_locals c opened.

(** ** [main], lines 219-239: the processing loop *)

(** [startTimingTask(taskTimer, taskId)] reading the wall clock. *)
Definition timeTask (taskId : Z) (t : TaskTimer) (p : Process) : TaskTimer * Process :=
  let '(now, p) := readWallClock p in
  (startTimingTask taskId now t, p).

Fixpoint timeTasks (taskIds : list Z) (t : TaskTimer) (p : Process) : TaskTimer * Process :=
  match taskIds with
  | [] => (t, p)
  | taskId :: rest =>
      let '(t, p) := timeTask taskId t p in
      timeTasks rest t p
  end.

(** The chain positions [0 .. numPlugins - 1]. *)
Definition chainPositions (chain : PluginChain) : list Z :=
  map Z.of_nat (seq 0 (List.length (plugins chain))).

(** Modelled from the spec: PluginChain.c is not part of the sources.  The
    events of the block go to the lead instrument, the plugin at position 0
    when it is an instrument, and the call is timed against that plugin's
    slot. *)
Definition processPluginChainMidiEvents (chain : PluginChain)
    (events : list MidiEvent) (t : TaskTimer) (p : Process) : TaskTimer * Process :=
  let p := record (ProcessPluginChainMidiEvents events) p in
  match plugins chain with
  | headPlugin :: _ =>
      if PluginType_eqb (pluginType headPlugin) PLUGIN_TYPE_INSTRUMENT
      then timeTask 0 t p
      else (t, p)
  | [] => (t, p)
  end.

(** Modelled from the spec: PluginChain.c is not part of the sources.  The
    block goes through the plugins front to back, each plugin's call timed
    against the slot of its position. *)
Definition processPluginChainAudio (chain : PluginChain)
    (t : TaskTimer) (p : Process) : TaskTimer * Process :=
  timeTasks (chainPositions chain) t (record ProcessPluginChainAudio p).

(** Lines 225-232. *)
Definition blockMidi (l : Locals) (finished : bool) (t : TaskTimer) (p : Process)
    : bool * TaskTimer * Process :=
  match midiSequence l with
  | Some sequence =>
      let start := getAudioClockCurrentSample (audioClock p) in
      let '(more, midiEventsForBlock) :=
        fillMidiEventsFromRange X sequence start (blocksize l) in
      let p := record (FillMidiEventsFromRange start (blocksize l) midiEventsForBlock more) p in
      let '(t, p) := processPluginChainMidiEvents (pluginChain l) midiEventsForBlock t p in
      let '(t, p) := timeTask (hostTaskId l) t p in
      (negb more, t, p)
  | None => (finished, t, p)
  end.

(** The body of the loop, lines 221-238. *)
Definition block (l : Locals) (p : Process) : Locals * Process :=
  let '(t, p) := timeTask (hostTaskId l) (taskTimer l) p in
  let '(blockRead, frames, input) :=
    readSampleBlock X (inputSource l) (inputSampleBuffer l) in
  let p := record (ReadSampleBlock frames blockRead) p in
  let '(finished, t, p) := blockMidi l (negb blockRead) t p in
  let '(t, p) := processPluginChainAudio (pluginChain l) t p in
  let '(t, p) := timeTask (hostTaskId l) t p in
  let output := writeSampleBlock X (outputSource l) (outputSampleBuffer l) in
  let p := record WriteSampleBlock p in
  let p := record (AdvanceAudioClock (blocksize l))
             (withClock (advanceAudioClock (blocksize l)) p) in
  ({| inputSource := input;
      outputSource := output;
      pluginChain := pluginChain l;
      midiSequence := midiSequence l;
      blocksize := blocksize l;
      inputSampleBuffer := inputSampleBuffer l;
      outputSampleBuffer := outputSampleBuffer l;
      finishedReading := finished;
      taskTimer := t;
      hostTaskId := hostTaskId l |}, p).

(** [while(!finishedReading)]: [None] when the fuel runs out first. *)
Fixpoint main_loop (fuel : nat) (l : Locals) (p : Process) : option (Locals * Process) :=
  if finishedReading l then Some (l, p)
  else
    match fuel with
    | O => None
    | S fuel' => let '(l', p') := block l p in main_loop fuel' l' p'
    end.

(** ** [main], lines 243-276: the report *)

(** Lines 246-249: the sum is kept in an [unsigned long]. *)
Definition totalProcessingTime (t : TaskTimer) : Z :=
  fold_left (fun total i => (total + nth i (totalTaskTimes t) 0) mod ULONG_MODULUS)
    (seq 0 (Z.to_nat (numTasks t))) 0.

Definition main_report (l : Locals) (p : Process) : TaskTimer * Process :=
  let p := record StopAudioClock (withClock stopAudioClock p) in
  let '(now, p) := readWallClock p in
  let t := stopTiming now (taskTimer l) in
  let p := record (LogInfo Msg.totalTime [totalProcessingTime t]) p in
  let p :=
    fold_left
      (fun p i => record (LogInfo Msg.taskTime [nth i (totalTaskTimes t) 0]) p)
      (seq 0 (List.length (plugins (pluginChain l)))) p in
  let p := record (LogInfo Msg.taskTime [nth (Z.to_nat (hostTaskId l)) (totalTaskTimes t) 0]) p in
  let p := record (LogInfo Msg.frames
                     [numFramesProcessed X (inputSource l);
                      numFramesProcessed X (outputSource l)]) p in
  let p := record (LogInfo Msg.shuttingDown []) p in
  (t, record (LogInfo Msg.goodbye []) p).

(** What a run leaves behind: the status, the process state, and the task
    timer as the report read it when the loop was run. *)
Record Outcome := {
  status : ReturnCode;
  final : Process;
  timer : option TaskTimer
}.

(** [main]; [None] when the loop does not finish within [fuel] blocks. *)
Definition main (fuel : nat) (argv : list string) : option Outcome :=
  match main_setup argv startProcess with
  | (Exit rc, p) => Some {| status := rc; final := p; timer := None |}
  | (Next l, p) =>
      match main_loop fuel l p with
      | None => None
      | Some (l', p') =>
          let '(t, p'') := main_report l' p' in
          Some {| status := RETURN_CODE_SUCCESS; final := p''; timer := Some t |}
      end
  end.

End Main.

Arguments audioSettings {X} _.
Arguments audioClock {X} _.
Arguments wallReadings {X} _.
Arguments calls {X} _.
Arguments inputSource {X} _.
Arguments outputSource {X} _.
Arguments pluginChain {X} _.
Arguments midiSequence {X} _.
Arguments blocksize {X} _.
Arguments inputSampleBuffer {X} _.
Arguments outputSampleBuffer {X} _.
Arguments finishedReading {X} _.
Arguments taskTimer {X} _.
Arguments hostTaskId {X} _.
Arguments status {X} _.
Arguments final {X} _.
Arguments timer {X} _.
Arguments block : simpl never.
Arguments main_report : simpl never.

(** ** The collaborators as the specification describes them *)

Module Model.

(** Modelled from the spec: SampleSource.c is not part of the sources.  A
    source has a name, a kind, a count of the frames it has processed and,
    for a file read from, the frames not yet read. *)
Record SampleSourceMembers := {
  sourceType : SampleSourceType;
  sourceName : option string;
  framesLeft : Z;
  numFramesProcessed : Z
}.

(** Modelled from the spec: AudioSettings.c is not part of the sources. *)
Record AudioSettingsMembers := {
  blocksize : Z;
  numChannels : Z
}.

(** What a scenario fixes: how a command line parses, what [strtol] reads
    from a string, the default settings, the frames of the audio file of
    each name ([None]: no such file), whether a file can be created, the
    events of each MIDI file, the plugins a plugin argument names, and the
    wall clock. *)
Record Scenario := {
  parse : list string -> option ProgramOptions;
  number : string -> Z;
  defaultBlocksize : Z;
  defaultNumChannels : Z;
  audioFile : string -> option Z;
  creatable : string -> bool;
  midiFile : string -> option MidiSequence;
  pluginsNamed : string -> option (list Plugin);
  clock : nat -> Z
}.

Definition guessSampleSourceType (name : string) : SampleSourceType :=
  SAMPLE_SOURCE_TYPE_PCM.

Definition newSampleSource (type : SampleSourceType) (name : option string)
    : SampleSourceMembers :=
  {| sourceType := type; sourceName := name; framesLeft := 0; numFramesProcessed := 0 |}.

(** Modelled from the spec: opening fails when the file cannot be found
    (read) or created (write); the silence source never fails to open. *)
Definition openSampleSource (s : Scenario) (source : SampleSourceMembers)
    (mode : SampleSourceOpenAs) : bool * SampleSourceMembers :=
  match sourceType source, sourceName source, mode with
  | SAMPLE_SOURCE_TYPE_SILENCE, _, _ => (true, source)
  | SAMPLE_SOURCE_TYPE_PCM, Some name, SAMPLE_SOURCE_OPEN_READ =>
      match audioFile s name with
      | Some frames =>
          (true, {| sourceType := sourceType source;
                    sourceName := sourceName source;
                    framesLeft := frames;
                    numFramesProcessed := 0 |})
      | None => (false, source)
      end
  | SAMPLE_SOURCE_TYPE_PCM, Some name, SAMPLE_SOURCE_OPEN_WRITE =>
      (creatable s name, source)
  | _, _, _ => (false, source)
  end.

(** Modelled from the spec: reading one block.  The silence source fills the
    whole buffer, always.  A file fills the buffer with the frames it has
    left, at most a buffer's worth, and never reads past its end; the value
    [main] negates into [finishedReading] tells whether the whole buffer
    was filled, so that end of stream is reported once fewer than
    [blocksize] frames are returned. *)
Definition readSampleBlock (source : SampleSourceMembers) (buffer : SampleBuffer)
    : bool * Z * SampleSourceMembers :=
  match sourceType source with
  | SAMPLE_SOURCE_TYPE_SILENCE =>
      (true, bufferBlocksize buffer,
       {| sourceType := sourceType source;
          sourceName := sourceName source;
          framesLeft := framesLeft source;
          numFramesProcessed := numFramesProcessed source + bufferBlocksize buffer |})
  | _ =>
      let frames := Z.min (bufferBlocksize buffer) (framesLeft source) in
      (bufferBlocksize buffer <=? frames, frames,
       {| sourceType := sourceType source;
          sourceName := sourceName source;
          framesLeft := framesLeft source - frames;
          numFramesProcessed := numFramesProcessed source + frames |})
  end.

(** Modelled from the spec: writing one block writes the frames presented. *)
Definition writeSampleBlock (source : SampleSourceMembers) (buffer : SampleBuffer)
    : SampleSourceMembers :=
  {| sourceType := sourceType source;
     sourceName := sourceName source;
     framesLeft := framesLeft source;
     numFramesProcessed := numFramesProcessed source + bufferBlocksize buffer |}.

(** Modelled from the spec: MidiSequence.c is not part of the sources.  The
    query answers, in the order of the sequence, every event with
    [start <= timestamp < start + length]; it reads the sequence and does
    not change it.  Its result tells whether events remain after the
    window; it reports exhaustion once none does. *)
Definition inRange (start length : Z) (e : MidiEvent) : bool :=
  (start <=? timestamp e) && (timestamp e <? start + length).

Definition remains (start length : Z) (e : MidiEvent) : bool :=
  start + length <=? timestamp e.

Definition fillMidiEventsFromRange (sequence : MidiSequence) (start length : Z)
    : bool * list MidiEvent :=
  (existsb (remains start length) sequence, filter (inRange start length) sequence).

(** Modelled from the spec: the chain is initialised by opening every
    plugin in chain order; it fails when a plugin fails to open. *)
Definition initializePluginChain (chain : PluginChain) : bool :=
  forallb (fun plugin => open plugin (pluginName plugin)) (plugins chain).

Definition addPluginsFromArgumentString (s : Scenario) (chain : PluginChain)
    (arg : string) : option PluginChain :=
  match pluginsNamed s arg with
  | Some added => Some {| plugins := plugins chain ++ added |}
  | None => None
  end.

Definition openMidiSource (s : Scenario) (name : string) : bool :=
  match midiFile s name with Some _ => true | None => false end.

Definition readMidiEvents (s : Scenario) (name : string) : bool * MidiSequence :=
  match midiFile s name with
  | Some sequence => (true, sequence)
  | None => (false, [])
  end.

End Model.

(** The collaborators of a scenario. *)
Definition host (s : Model.Scenario) : Collaborators :=
  {| SampleSource := Model.SampleSourceMembers;
     MidiSource := string;
     AudioSettings := Model.AudioSettingsMembers;
     parseCommandLine := Model.parse s;
     strtol := Model.number s;
     initAudioSettings :=
       {| Model.blocksize := Model.defaultBlocksize s;
          Model.numChannels := Model.defaultNumChannels s |};
     setBlocksize := fun n a =>
       {| Model.blocksize := n; Model.numChannels := Model.numChannels a |};
     setNumChannels := fun n a =>
       {| Model.blocksize := Model.blocksize a; Model.numChannels := n |};
     getBlocksize := Model.blocksize;
     getNumChannels := Model.numChannels;
     guessSampleSourceType := Model.guessSampleSourceType;
     newSampleSource := Model.newSampleSource;
     newMidiSource := fun name => name;
     addPluginsFromArgumentString := Model.addPluginsFromArgumentString s;
     initializePluginChain := Model.initializePluginChain;
     openSampleSource := Model.openSampleSource s;
     readSampleBlock := Model.readSampleBlock;
     writeSampleBlock := Model.writeSampleBlock;
     numFramesProcessed := Model.numFramesProcessed;
     openMidiSource := Model.openMidiSource s;
     readMidiEvents := Model.readMidiEvents s;
     fillMidiEventsFromRange := Model.fillMidiEventsFromRange;
     wallClock := Model.clock s |}.

(** ** Reading a run *)

Section Runs.

Variable X : Collaborators.

(** The locals and the process state after the first [n] blocks. *)
Definition afterBlocks (n : nat) (l : Locals X) (p : Process X) : Locals X * Process X :=
  Nat.iter n (fun s => block X (fst s) (snd s)) (l, p).

(** The calls the MIDI part of a block makes when the clock reads [start]. *)
Definition midiCalls (l : Locals X) (start : Z) : list Call :=
  match midiSequence l with
  | Some sequence =>
      let '(more, events) := fillMidiEventsFromRange X sequence start (blocksize l) in
      [FillMidiEventsFromRange start (blocksize l) events more;
       ProcessPluginChainMidiEvents events]
  | None => []
  end.

(** The calls one block makes. *)
Definition blockCalls (l : Locals X) (p : Process X) : list Call :=
  let '(blockRead, frames, _) := readSampleBlock X (inputSource l) (inputSampleBuffer l) in
  ReadSampleBlock frames blockRead
    :: midiCalls l (getAudioClockCurrentSample (audioClock p))
    ++ [ProcessPluginChainAudio; WriteSampleBlock; AdvanceAudioClock (blocksize l)].

(** What the [k]-th [readSampleBlock] of the loop answers (counting from 0). *)
Definition blockRead (k : nat) (l : Locals X) (p : Process X) : bool :=
  let l' := fst (afterBlocks k l p) in
  fst (fst (readSampleBlock X (inputSource l') (inputSampleBuffer l'))).

(** What the MIDI query of block [k] answers when [sequence] is loaded. *)
Definition moreMidi (sequence : MidiSequence) (size : Z) (k : nat) : bool :=
  fst (fillMidiEventsFromRange X sequence (Z.of_nat k * size) size).

End Runs.

Arguments afterBlocks {X} n l p.
Arguments blockCalls {X} l p.
Arguments midiCalls {X} l start.
Arguments blockRead {X} k l p.

(** The blocks read, the MIDI windows queried and the blocks written. *)
Definition reads (cs : list Call) : list (Z * bool) :=
  flat_map (fun c => match c with ReadSampleBlock n r => [(n, r)] | _ => [] end) cs.

Definition midiQueries (cs : list Call) : list (Z * Z * list MidiEvent) :=
  flat_map
    (fun c => match c with
              | FillMidiEventsFromRange s n es _ => [(s, n, es)]
              | _ => []
              end) cs.

Definition count (f : Call -> bool) (cs : list Call) : nat :=
  List.length (filter f cs).

Definition isAdvance (c : Call) : bool :=
  match c with AdvanceAudioClock _ => true | _ => false end.

(** The calls of the blocks [0 .. n - 1]. *)
Definition loopCalls {X} (n : nat) (l : Locals X) (p : Process X) : list Call :=
  flat_map (fun k => blockCalls (fst (afterBlocks k l p)) (snd (afterBlocks k l p)))
    (seq 0 n).

(** The loop stops after exactly [n] blocks. *)
Definition stopsAfter {X} (n : nat) (l : Locals X) (p : Process X) : Prop :=
  finishedReading (fst (afterBlocks n l p)) = true /\
  forall j, (j < n)%nat -> finishedReading (fst (afterBlocks j l p)) = false.

(** What a run that entered the loop and stopped after [n] blocks leaves. *)
Definition ranBlocks {X} (n : nat) (l : Locals X) (p : Process X) (o : Outcome X) : Prop :=
  status o = RETURN_CODE_SUCCESS /\
  final o = snd (main_report X (fst (afterBlocks n l p)) (snd (afterBlocks n l p))) /\
  timer o = Some (fst (main_report X (fst (afterBlocks n l p)) (snd (afterBlocks n l p)))).

Definition isLoopCall (c : Call) : bool :=
  match c with
  | ReadSampleBlock _ _ | FillMidiEventsFromRange _ _ _ _
  | ProcessPluginChainMidiEvents _ | ProcessPluginChainAudio
  | WriteSampleBlock | AdvanceAudioClock _ | StopAudioClock => true
  | _ => false
  end.

(** The calls made inside the loop. *)
Definition isBlockCall (c : Call) : bool :=
  match c with
  | ReadSampleBlock _ _ | FillMidiEventsFromRange _ _ _ _
  | ProcessPluginChainMidiEvents _ | ProcessPluginChainAudio
  | WriteSampleBlock | AdvanceAudioClock _ => true
  | _ => false
  end.

Definition isLogInfo (c : Call) : bool :=
  match c with LogInfo _ _ => true | _ => false end.

(** The calls of lines 61-146. *)
Definition isOptionCall (c : Call) : bool :=
  match c with
  | Printf _ | LogInfo _ _ | NewSampleSource _ (Some _) | NewMidiSource _
  | AddPluginsFromArgumentString _ => true
  | _ => false
  end.

Definition isSetupCall (c : Call) : bool := negb (isLoopCall c).

(** A process that has only made calls accepted by [Q], and has neither
    touched the audio clock nor read the wall clock. *)
Definition quietProcess {X} (Q : Call -> bool) (p : Process X) : Prop :=
  audioClock p = initAudioClock /\ wallReadings p = O /\ forallb Q (calls p) = true.

Definition preserves {X A} (I : Process X -> Prop) (m : M X A) : Prop :=
  forall p, I p -> I (snd (m p)).

(** Line 172 was reached: the silence source was made the input. *)
Definition isSilenceDefault (c : Call) : bool :=
  match c with
  | NewSampleSource SAMPLE_SOURCE_TYPE_SILENCE None => true
  | _ => false
  end.

Definition silenceSelected (cs : list Call) : bool := existsb isSilenceDefault cs.

(** The greatest timestamp of a sequence (0 for the empty sequence). *)
Definition lastTimestamp (sequence : MidiSequence) : Z :=
  fold_right Z.max 0 (map timestamp sequence).

(** The events of [sequence] in the half-open window
    [[k * size, (k + 1) * size)]. *)
Definition window (size : Z) (sequence : MidiSequence) (k : nat) : list MidiEvent :=
  filter (Model.inRange (Z.of_nat k * size) size) sequence.

(** The time accumulated over the slots of a timer. *)
Definition sumTaskTimes (times : list Z) : Z := fold_right Z.add 0 times.

(** A timer with [slots] slots in a process: either no task has been
    started and the wall clock has not been read, or a window is open for a
    slot of the timer since the latest reading, and the slots add up to the
    time from the first reading to that one. *)
Definition timing {X} (slots : Z) (t : TaskTimer) (p : Process X) : Prop :=
  numTasks t = slots /\
  List.length (totalTaskTimes t) = Z.to_nat slots /\
  match currentTask t with
  | None => wallReadings p = O /\ sumTaskTimes (totalTaskTimes t) = 0
  | Some taskId =>
      0 <= taskId < slots /\ (0 < wallReadings p)%nat /\
      startTime t = wallClock X (pred (wallReadings p)) /\
      sumTaskTimes (totalTaskTimes t) = startTime t - wallClock X 0
  end.

(** ** Sample runs *)

Module Example.

Local Open Scope string_scope.

Definition effect : Plugin :=
  {| pluginType := PLUGIN_TYPE_VST_2X; pluginName := "effect";
     open := fun _ => true; process := fun buffer => buffer |}.

Definition instrument : Plugin :=
  {| pluginType := PLUGIN_TYPE_INSTRUMENT; pluginName := "instrument";
     open := fun _ => true; process := fun buffer => buffer |}.

Definition event (t : Z) : MidiEvent := {| timestamp := t; message := [144; 60; 100] |}.

Definition option (i : OptionIndex) (on : bool) (arg : string) : ProgramOption :=
  {| index := i; enabled := on; argument := arg |}.

(** [--blocksize 256 --output out.pcm --plugin <plugin>], with
    [--input in.pcm] and [--midi-file song.mid] as asked. *)
Definition options (input midi output : bool) (plugin : string) : ProgramOptions :=
  fun i =>
    match i with
    | OPTION_BLOCKSIZE => option i true "256"
    | OPTION_INPUT_SOURCE => option i input "in.pcm"
    | OPTION_OUTPUT_SOURCE => option i output "out.pcm"
    | OPTION_MIDI_SOURCE => option i midi "song.mid"
    | OPTION_PLUGIN => option i true plugin
    | _ => option i false ""
    end.

(** A machine on which in.pcm has [frames] frames, song.mid has events
    at 0, 300 and 600, and the wall clock moves 10ms between readings. *)
Definition scenario (input midi output : bool) (plugin : string) (frames : Z)
    : Model.Scenario :=
  {| Model.parse := fun _ => Some (options input midi output plugin);
     Model.number := fun _ => 256;
     Model.defaultBlocksize := 512;
     Model.defaultNumChannels := 2;
     Model.audioFile := fun _ => Some frames;
     Model.creatable := fun _ => true;
     Model.midiFile := fun _ => Some [event 0; event 300; event 600];
     Model.pluginsNamed := fun name =>
       if String.eqb name "effect" then Some [effect]
       else if String.eqb name "instrument" then Some [instrument]
       else Some [];
     Model.clock := fun n => Z.of_nat n * 10 |}.

Definition argv : list string := ["mrswatson"; "--options"].

End Example.

(** ** Reading the setup and the report *)

(** Lines 67-90: the command line asks for the usage, the version or the
    supported file types. *)
Definition isInfoRun (programOptions : ProgramOptions) (argv : list string) : bool :=
  enabled (programOptions OPTION_HELP) || (Z.of_nat (List.length argv) =? 1)
  || enabled (programOptions OPTION_VERSION)
  || enabled (programOptions OPTION_FILE_TYPES).

(** What such a run prints: the usage comes before the version, the version
    before the file types. *)
Definition infoText (programOptions : ProgramOptions) (argv : list string) : string :=
  if enabled (programOptions OPTION_HELP) || (Z.of_nat (List.length argv) =? 1)
  then Msg.usage
  else if enabled (programOptions OPTION_VERSION) then Msg.version
  else Msg.fileTypes.

(** A computation that, when it makes [main] return, returns an allowed
    status. *)
Definition exitsOnly {X A} (allowed : ReturnCode -> Prop) (m : M X A) : Prop :=
  forall p rc p', m p = (Exit rc, p') -> allowed rc.

(** Calls that open a source or load the MIDI events, and the order in
    which lines 185-206 make them. *)
Definition isOpening (c : Call) : bool :=
  match c with
  | OpenSampleSource _ | OpenMidiSource | ReadMidiEvents => true
  | _ => false
  end.

Definition openings : list Call :=
  [OpenSampleSource SAMPLE_SOURCE_OPEN_READ; OpenSampleSource SAMPLE_SOURCE_OPEN_WRITE;
   OpenMidiSource; ReadMidiEvents].

(** Calls made while the chain and the sources are checked: no source is
    touched yet. *)
Definition isConfigCall (c : Call) : bool := isSetupCall c && negb (isSourceIO c).

(** The event lists handed to the plugin chain, block by block. *)
Definition dispatched (cs : list Call) : list (list MidiEvent) :=
  flat_map
    (fun c => match c with ProcessPluginChainMidiEvents es => [es] | _ => [] end) cs.

(** The times of the per-component lines of the report (lines 251-254). *)
Definition taskTimeLines (cs : list Call) : list Z :=
  flat_map
    (fun c => match c with
              | LogInfo msg [time] => if String.eqb msg Msg.taskTime then [time] else []
              | _ => []
              end) cs.

(** The total the report logs (line 250). *)
Definition totalTimeLines (cs : list Call) : list Z :=
  flat_map
    (fun c => match c with
              | LogInfo msg [time] => if String.eqb msg Msg.totalTime then [time] else []
              | _ => []
              end) cs.

(** The shapes of the calls made before the loop: the report's lines with
    one number are not among them. *)
Definition madeBySetup (c : Call) : bool :=
  match c with
  | Printf _ | LogError _ | LogWarn _ | LogInfo _ [] | LogInfo _ [_; _]
  | NewSampleSource _ _ | NewMidiSource _ | AddPluginsFromArgumentString _
  | InitializePluginChain | DisplayPluginInfo
  | OpenSampleSource _ | OpenMidiSource | ReadMidiEvents => true
  | _ => false
  end.

(** ** The version string (lines 44-46) *)

(** A [CharString]: the characters before the terminating NUL, and the size
    of the buffer that holds them. *)
Record CharStringMembers := {
  data : string;
  capacity : nat
}.

Definition CharString := CharStringMembers.

(** [%d] *)
Definition decimal (n : Z) : string :=
  DecimalString.NilZero.string_of_int (Z.to_int n).

(** The first [n] characters of a text. *)
Fixpoint truncate (n : nat) (text : string) : string :=
  match n, text with
  | S n', String.String c rest => String.String c (truncate n' rest)
  | _, _ => String.EmptyString
  end.

(** [snprintf(s->data, s->capacity, ...)] for the text the format expands
    to: as much of the text as fits before the NUL, nothing at all in a
    buffer of size 0. *)
Definition snprintf (s : CharString) (text : string) : CharString :=
  match capacity s with
  | O => s
  | S room => {| data := truncate room text; capacity := capacity s |}
  end.

(** The text of ["%s version %d.%d.%d"]. *)
Definition versionText (PROGRAM_NAME : string)
    (VERSION_MAJOR VERSION_MINOR VERSION_PATCH : Z) : string :=
  String.append PROGRAM_NAME
    (String.append " version "
       (String.append (decimal VERSION_MAJOR)
          (String.append "."
             (String.append (decimal VERSION_MINOR)
                (String.append "." (decimal VERSION_PATCH)))))).

(** [fillVersionString]; the four macros come from headers that are not
    part of the sources. *)
Definition fillVersionString (PROGRAM_NAME : string)
    (VERSION_MAJOR VERSION_MINOR VERSION_PATCH : Z) (outString : CharString) : CharString :=
  snprintf outString (versionText PROGRAM_NAME VERSION_MAJOR VERSION_MINOR VERSION_PATCH).

(** ** More sample runs *)

Module Machine.

Local Open Scope string_scope.

Definition optionNumber (i : OptionIndex) : nat :=
  match i with
  | OPTION_BLOCKSIZE => 0 | OPTION_CHANNELS => 1 | OPTION_COLOR_LOGGING => 2
  | OPTION_DISPLAY_INFO => 3 | OPTION_FILE_TYPES => 4 | OPTION_HELP => 5
  | OPTION_INPUT_SOURCE => 6 | OPTION_MIDI_SOURCE => 7 | OPTION_OUTPUT_SOURCE => 8
  | OPTION_PLUGIN => 9 | OPTION_QUIET => 10 | OPTION_SAMPLERATE => 11
  | OPTION_VERBOSE => 12 | OPTION_VERSION => 13
  end.

(** The options of [given] are enabled, each with the argument of its
    kind. *)
Definition options (given : list OptionIndex) (plugin : string) : ProgramOptions :=
  fun i =>
    {| index := i;
       enabled := existsb (fun j => Nat.eqb (optionNumber i) (optionNumber j)) given;
       argument :=
         match i with
         | OPTION_BLOCKSIZE => "256"
         | OPTION_CHANNELS => "2"
         | OPTION_INPUT_SOURCE => "in.pcm"
         | OPTION_OUTPUT_SOURCE => "out.pcm"
         | OPTION_MIDI_SOURCE => "song.mid"
         | OPTION_PLUGIN => plugin
         | _ => ""
         end |}.

(** A machine on which the command line parses to [parsed], numbers read as
    [size], in.pcm has the frames of [audio] if it exists, files can be
    created or not, and song.mid holds [midi] if it exists. *)
Definition scenario (parsed : option ProgramOptions) (size : Z) (audio : option Z)
    (canCreate : bool) (midi : option MidiSequence) : Model.Scenario :=
  {| Model.parse := fun _ => parsed;
     Model.number := fun _ => size;
     Model.defaultBlocksize := 512;
     Model.defaultNumChannels := 2;
     Model.audioFile := fun _ => audio;
     Model.creatable := fun _ => canCreate;
     Model.midiFile := fun _ => midi;
     Model.pluginsNamed := fun name =>
       if String.eqb name "effect" then Some [Example.effect]
       else if String.eqb name "instrument" then Some [Example.instrument]
       else if String.eqb name "both" then Some [Example.instrument; Example.effect]
       else if String.eqb name "broken" then None
       else Some [];
     Model.clock := fun n => Z.of_nat n * 10 |}.

End Machine.

(** ** Facts about the embedding *)

Lemma PluginType_eqb_eq (a b : PluginType) : PluginType_eqb a b = true <-> a = b.
Proof. destruct a, b; simpl; split; congruence. Qed.

Section LoopFacts.

Variable X : Collaborators.

Lemma timeTask_process taskId t (p : Process X) :
  audioSettings (snd (timeTask X taskId t p)) = audioSettings p /\
  audioClock (snd (timeTask X taskId t p)) = audioClock p /\
  calls (snd (timeTask X taskId t p)) = calls p /\
  wallReadings (snd (timeTask X taskId t p)) = S (wallReadings p).
Proof. unfold timeTask, readWallClock; simpl; auto. Qed.

Lemma timeTasks_process taskIds : forall t (p : Process X),
  audioSettings (snd (timeTasks X taskIds t p)) = audioSettings p /\
  audioClock (snd (timeTasks X taskIds t p)) = audioClock p /\
  calls (snd (timeTasks X taskIds t p)) = calls p.
Proof.
  induction taskIds as [|i rest IH]; intros t p; cbn [timeTasks]; auto.
  destruct (timeTask X i t p) as [t' p'] eqn:E.
  destruct (timeTask_process i t p) as (A & B & C & _).
  rewrite E in A, B, C; simpl in A, B, C.
  destruct (IH t' p') as (A' & B' & C'). rewrite A', B', C'. auto.
Qed.

Lemma processPluginChainMidiEvents_process chain events t (p : Process X) :
  audioClock (snd (processPluginChainMidiEvents X chain events t p)) = audioClock p /\
  calls (snd (processPluginChainMidiEvents X chain events t p))
    = calls p ++ [ProcessPluginChainMidiEvents events].
Proof.
  unfold processPluginChainMidiEvents.
  destruct (plugins chain) as [|h ?]; simpl; auto.
  destruct (PluginType_eqb _ _); simpl; auto.
Qed.

Lemma processPluginChainAudio_process chain t (p : Process X) :
  audioClock (snd (processPluginChainAudio X chain t p)) = audioClock p /\
  calls (snd (processPluginChainAudio X chain t p)) = calls p ++ [ProcessPluginChainAudio].
Proof.
  unfold processPluginChainAudio.
  destruct (timeTasks_process (chainPositions chain) t (record X ProcessPluginChainAudio p))
    as (_ & B & C).
  rewrite B, C. simpl. auto.
Qed.

Lemma blockMidi_process (l : Locals X) finished t p :
  audioClock (snd (blockMidi X l finished t p)) = audioClock p /\
  calls (snd (blockMidi X l finished t p))
    = calls p ++ midiCalls l (getAudioClockCurrentSample (audioClock p)) /\
  fst (fst (blockMidi X l finished t p))
    = match midiSequence l with
      | Some sequence =>
          negb (fst (fillMidiEventsFromRange X sequence
                       (getAudioClockCurrentSample (audioClock p)) (blocksize l)))
      | None => finished
      end.
Proof.
  unfold blockMidi, midiCalls.
  destruct (midiSequence l) as [sequence|].
  - destruct (fillMidiEventsFromRange X sequence _ _) as [more events].
    set (p1 := record X _ p).
    destruct (processPluginChainMidiEvents_process (pluginChain l) events t p1) as (A & B).
    destruct (processPluginChainMidiEvents X (pluginChain l) events t p1) as [t' p2].
    destruct (timeTask_process (hostTaskId l) t' p2) as (_ & A3 & B3 & _).
    destruct (timeTask X (hostTaskId l) t' p2) as [t'' p3].
    cbn [fst snd] in *.
    rewrite A3, B3, A, B. subst p1. cbn [record calls audioClock].
    rewrite <- app_assoc. auto.
  - cbn [fst snd]. rewrite app_nil_r. auto.
Qed.

(** One block: the locals it keeps, the flag it sets, the calls it makes
    and what it does to the audio clock. *)
Lemma block_spec (l : Locals X) (p : Process X) :
  let s := block X l p in
  pluginChain (fst s) = pluginChain l /\
  midiSequence (fst s) = midiSequence l /\
  blocksize (fst s) = blocksize l /\
  inputSampleBuffer (fst s) = inputSampleBuffer l /\
  outputSampleBuffer (fst s) = outputSampleBuffer l /\
  hostTaskId (fst s) = hostTaskId l /\
  inputSource (fst s) = snd (readSampleBlock X (inputSource l) (inputSampleBuffer l)) /\
  finishedReading (fst s)
    = match midiSequence l with
      | Some sequence =>
          negb (fst (fillMidiEventsFromRange X sequence
                       (getAudioClockCurrentSample (audioClock p)) (blocksize l)))
      | None => negb (fst (fst (readSampleBlock X (inputSource l) (inputSampleBuffer l))))
      end /\
  audioClock (snd s) = advanceAudioClock (blocksize l) (audioClock p) /\
  calls (snd s) = calls p ++ blockCalls l p.
Proof.
  unfold block, blockCalls.
  destruct (timeTask_process (hostTaskId l) (taskTimer l) p) as (_ & A1 & B1 & _).
  destruct (timeTask X (hostTaskId l) (taskTimer l) p) as [t1 p1].
  destruct (readSampleBlock X (inputSource l) (inputSampleBuffer l)) as [[ok frames] input].
  set (p2 := record X (ReadSampleBlock frames ok) p1).
  destruct (blockMidi_process l (negb ok) t1 p2) as (A3 & B3 & C3).
  destruct (blockMidi X l (negb ok) t1 p2) as [[finished t3] p3].
  destruct (processPluginChainAudio_process (pluginChain l) t3 p3) as (A4 & B4).
  destruct (processPluginChainAudio X (pluginChain l) t3 p3) as [t4 p4].
  destruct (timeTask_process (hostTaskId l) t4 p4) as (_ & A5 & B5 & _).
  destruct (timeTask X (hostTaskId l) t4 p4) as [t5 p5].
  cbn [fst snd] in *.
  assert (Hc : audioClock p2 = audioClock p) by (subst p2; cbn; exact A1).
  assert (Hs : calls p2 = calls p ++ [ReadSampleBlock frames ok])
    by (subst p2; cbn; rewrite B1; reflexivity).
  cbn [pluginChain midiSequence blocksize inputSampleBuffer outputSampleBuffer
       hostTaskId inputSource finishedReading record withClock audioClock calls].
  repeat split; auto.
  - rewrite C3, Hc. reflexivity.
  - rewrite A5, A4, A3, Hc. reflexivity.
  - rewrite B5, B4, B3, Hs, Hc. repeat rewrite <- app_assoc. reflexivity.
Qed.

Lemma afterBlocks_S n (l : Locals X) p :
  afterBlocks (S n) l p
  = block X (fst (afterBlocks n l p)) (snd (afterBlocks n l p)).
Proof. reflexivity. Qed.

Lemma afterBlocks_head n (l : Locals X) p :
  afterBlocks (S n) l p
  = afterBlocks n (fst (block X l p)) (snd (block X l p)).
Proof.
  induction n as [|n IH].
  - cbn. destruct (block X l p); reflexivity.
  - rewrite afterBlocks_S, IH. reflexivity.
Qed.

(** The locals the loop never assigns. *)
Lemma afterBlocks_constants n (l : Locals X) p :
  pluginChain (fst (afterBlocks n l p)) = pluginChain l /\
  midiSequence (fst (afterBlocks n l p)) = midiSequence l /\
  blocksize (fst (afterBlocks n l p)) = blocksize l /\
  inputSampleBuffer (fst (afterBlocks n l p)) = inputSampleBuffer l /\
  outputSampleBuffer (fst (afterBlocks n l p)) = outputSampleBuffer l /\
  hostTaskId (fst (afterBlocks n l p)) = hostTaskId l.
Proof.
  induction n as [|n IH]; [cbn; auto 10|].
  rewrite afterBlocks_S.
  destruct (block_spec (fst (afterBlocks n l p)) (snd (afterBlocks n l p)))
    as (A & B & C & D & E & F & _).
  cbv zeta in *. destruct IH as (A' & B' & C' & D' & E' & F').
  repeat split; congruence.
Qed.

(** The clock after [n] blocks of a running clock. *)
Lemma afterBlocks_clock n (l : Locals X) p :
  stopped (audioClock p) = false ->
  audioClock (snd (afterBlocks n l p))
  = {| currentSample := currentSample (audioClock p) + Z.of_nat n * blocksize l;
       stopped := false |}.
Proof.
  intros Hrun. induction n as [|n IH].
  - cbn. destruct (audioClock p) as [c st]; cbn in *. subst. f_equal. lia.
  - rewrite afterBlocks_S.
    destruct (block_spec (fst (afterBlocks n l p)) (snd (afterBlocks n l p)))
      as (_ & _ & _ & _ & _ & _ & _ & _ & C & _).
    cbv zeta in C. rewrite C, IH.
    destruct (afterBlocks_constants n l p) as (_ & _ & B & _). rewrite B.
    unfold advanceAudioClock. cbn [stopped currentSample]. f_equal. lia.
Qed.

Lemma afterBlocks_calls n (l : Locals X) p :
  calls (snd (afterBlocks n l p)) = calls p ++ loopCalls n l p.
Proof.
  unfold loopCalls. induction n as [|n IH].
  - cbn. now rewrite app_nil_r.
  - rewrite afterBlocks_S.
    destruct (block_spec (fst (afterBlocks n l p)) (snd (afterBlocks n l p)))
      as (_ & _ & _ & _ & _ & _ & _ & _ & _ & C).
    cbv zeta in C. rewrite C, IH, seq_S, flat_map_app. cbn.
    now rewrite app_nil_r, app_assoc.
Qed.

(** The loop returns exactly when some block sets [finishedReading], and
    then it has run the blocks up to the first such block. *)
Lemma main_loop_stops fuel : forall (l : Locals X) p n,
  stopsAfter n l p -> (n <= fuel)%nat ->
  main_loop X fuel l p = Some (afterBlocks n l p).
Proof.
  induction fuel as [|fuel IH]; intros l p n [Hn Hlt] Hle.
  - assert (n = O) by lia. subst n. cbn in *. now rewrite Hn.
  - destruct n as [|n].
    + cbn in *. now rewrite Hn.
    + cbn [main_loop].
      pose proof (Hlt O ltac:(lia)) as H0. cbn in H0. rewrite H0.
      rewrite afterBlocks_head in Hn |- *.
      destruct (block X l p) as [l' p'] eqn:E. cbn [fst snd] in *.
      apply IH; [|lia]. split; [exact Hn|].
      intros j Hj. specialize (Hlt (S j) ltac:(lia)).
      now rewrite afterBlocks_head, E in Hlt.
Qed.

Lemma main_loop_stopped fuel : forall (l : Locals X) p s,
  main_loop X fuel l p = Some s ->
  exists n, (n <= fuel)%nat /\ stopsAfter n l p /\ s = afterBlocks n l p.
Proof.
  induction fuel as [|fuel IH]; intros l p s H; cbn [main_loop] in H.
  - destruct (finishedReading l) eqn:F; [|discriminate].
    exists O. injection H as <-. repeat split; auto. intros j Hj; lia.
  - destruct (finishedReading l) eqn:F.
    + exists O. injection H as <-. repeat split; auto; [lia|]. intros j Hj; lia.
    + destruct (block X l p) as [l' p'] eqn:E.
      destruct (IH _ _ _ H) as (n & Hle & [Hn Hlt] & ->).
      exists (S n). split; [lia|]. unfold stopsAfter.
      rewrite afterBlocks_head, E. cbn [fst snd].
      split; [split|]; auto.
      intros [|j] Hj; [exact F|].
      rewrite afterBlocks_head, E. cbn [fst snd]. apply Hlt. lia.
Qed.

Lemma stopsAfter_unique n m (l : Locals X) p :
  stopsAfter n l p -> stopsAfter m l p -> n = m.
Proof.
  intros [Hn Hln] [Hm Hlm].
  destruct (Nat.lt_trichotomy n m) as [H|[H|H]]; auto.
  - rewrite (Hlm n H) in Hn. discriminate.
  - rewrite (Hln m H) in Hm. discriminate.
Qed.

End LoopFacts.

Section SetupFacts.

Variable X : Collaborators.

Lemma preserves_ret {A} (I : Process X -> Prop) (a : A) : preserves I (ret X a).
Proof. intros p H; exact H. Qed.

Lemma preserves_exit {A} (I : Process X -> Prop) rc : preserves I (@exit X A rc).
Proof. intros p H; exact H. Qed.

Lemma preserves_bind {A B} (I : Process X -> Prop) (m : M X A) (k : A -> M X B) :
  preserves I m -> (forall a, preserves I (k a)) -> preserves I (bind X m k).
Proof.
  intros Hm Hk p H. unfold bind. specialize (Hm p H).
  destruct (m p) as [[a|rc] p']; cbn [snd] in *; [apply Hk|]; exact Hm.
Qed.

Lemma quiet_record Q c (p : Process X) :
  Q c = true -> quietProcess Q p -> quietProcess Q (record X c p).
Proof.
  intros Hc (A & B & C). repeat split; auto. cbn.
  rewrite forallb_app, C. cbn. now rewrite Hc.
Qed.

Lemma preserves_call Q c : Q c = true -> preserves (quietProcess Q) (call X c).
Proof. intros Hc p H. now apply quiet_record. Qed.

Lemma preserves_withSettings Q f : preserves (quietProcess Q) (withSettings X f).
Proof. intros p H; exact H. Qed.

Lemma preserves_fail {A} Q msg rc :
  Q (LogError msg) = true -> preserves (quietProcess Q) (@fail X A msg rc).
Proof.
  intros H. apply preserves_bind; [now apply preserves_call|].
  intros _. apply preserves_exit.
Qed.

Lemma quiet_weaken (Q Q' : Call -> bool) (p : Process X) :
  (forall c, Q c = true -> Q' c = true) -> quietProcess Q p -> quietProcess Q' p.
Proof.
  intros HQ (A & B & C). repeat split; auto.
  rewrite forallb_forall in *. auto.
Qed.

Ltac preserve :=
  repeat match goal with
    | |- preserves _ (ret _ _) => apply preserves_ret
    | |- preserves _ (exit _ _) => apply preserves_exit
    | |- preserves _ (withSettings _ _) => apply preserves_withSettings
    | |- preserves _ (call _ _) => apply preserves_call; reflexivity
    | |- preserves _ (fail _ _ _) => apply preserves_fail; reflexivity
    | |- preserves _ (bind _ _ _) => apply preserves_bind; [|intros ?]
    end.

Lemma handleOption_quiet option c :
  preserves (quietProcess isOptionCall) (handleOption X option c).
Proof.
  unfold handleOption.
  destruct (enabled option); [|preserve].
  destruct (index option); preserve.
  destruct (addPluginsFromArgumentString X _ _); preserve.
Qed.

Lemma handleOptions_quiet programOptions indices : forall c,
  preserves (quietProcess isOptionCall) (handleOptions X programOptions indices c).
Proof.
  induction indices as [|i rest IH]; intros c; cbn [handleOptions]; preserve.
  - apply handleOption_quiet.
  - apply IH.
Qed.

Lemma main_options_quiet argv :
  preserves (quietProcess isOptionCall) (main_options X argv).
Proof.
  unfold main_options.
  destruct (parseCommandLine X argv) as [programOptions|]; preserve.
  destruct (_ || _); preserve.
  destruct (enabled (programOptions OPTION_VERSION)); preserve.
  destruct (enabled (programOptions OPTION_FILE_TYPES)); preserve.
  apply handleOptions_quiet.
Qed.

Lemma main_chain_quiet c : preserves (quietProcess isSetupCall) (main_chain X c).
Proof.
  unfold main_chain.
  destruct (_ =? _); preserve.
  destruct (negb _); preserve.
  destruct (cfgDisplayPluginInfo X c); preserve.
Qed.

Lemma main_sources_quiet c : preserves (quietProcess isSetupCall) (main_sources X c).
Proof.
  unfold main_sources.
  destruct (cfgOutputSource X c); preserve.
  destruct (cfgInputSource X c); preserve.
  destruct (plugins _) as [|headPlugin ?]; preserve.
  destruct (PluginType_eqb _ _); preserve.
  destruct (cfgMidiSource X c); preserve.
Qed.

Lemma main_open_quiet c sources :
  preserves (quietProcess isSetupCall) (main_open X c sources).
Proof.
  unfold main_open. destruct sources as [input output]. preserve.
  destruct (openSampleSource X input _) as [opened input']. 
  destruct (negb opened); preserve.
  destruct (openSampleSource X output _) as [opened' output'].
  destruct (negb opened'); preserve.
  destruct (cfgMidiSource X c) as [midiSource|]; preserve.
  destruct (negb (openMidiSource X midiSource)); preserve.
  destruct (readMidiEvents X midiSource) as [eventsRead sequence].
  destruct (negb eventsRead); preserve.
Qed.

Lemma main_locals_quiet c opened :
  preserves (quietProcess isSetupCall) (main_locals X c opened).
Proof.
  intros p H. unfold main_locals. destruct opened as [[input output] sequence].
  cbn [snd]. now apply quiet_record.
Qed.

Lemma startProcess_quiet Q : quietProcess Q (startProcess X).
Proof. repeat split. Qed.

Lemma isOptionCall_isSetupCall c : isOptionCall c = true -> isSetupCall c = true.
Proof. destruct c; cbn; congruence. Qed.

Lemma isOptionCall_not_io c : isOptionCall c = true -> negb (isSourceIO c) = true.
Proof. destruct c; cbn; congruence. Qed.

(** Setting up makes no call of the loop, leaves the audio clock as
    [initAudioClock] made it and does not read the wall clock. *)
Lemma main_setup_quiet argv :
  quietProcess isSetupCall (snd (main_setup X argv (startProcess X))).
Proof.
  unfold main_setup.
  pose proof (main_options_quiet argv _ (startProcess_quiet isOptionCall)) as H0.
  apply (quiet_weaken _ isSetupCall _ isOptionCall_isSetupCall) in H0.
  unfold bind at 1.
  destruct (main_options X argv (startProcess X)) as [[c|rc] p0]; cbn [snd] in *; auto.
  revert H0. generalize p0. change (preserves (quietProcess isSetupCall)
    (bind X (main_chain X c) (fun _ => bind X (main_sources X c)
       (fun sources => bind X (main_open X c sources) (main_locals X c))))).
  preserve.
  - apply main_chain_quiet.
  - apply main_sources_quiet.
  - apply main_open_quiet.
  - apply main_locals_quiet.
Qed.

(** When the setup runs through: the stages it went through. *)
Lemma main_setup_stages argv l p :
  main_setup X argv (startProcess X) = (Next l, p) ->
  exists c p0 p1 sources p2 opened p3,
    main_options X argv (startProcess X) = (Next c, p0) /\
    main_chain X c p0 = (Next tt, p1) /\
    main_sources X c p1 = (Next sources, p2) /\
    main_open X c sources p2 = (Next opened, p3) /\
    main_locals X c opened p3 = (Next l, p).
Proof.
  unfold main_setup, bind. intros H.
  destruct (main_options X argv (startProcess X)) as [[c|rc] p0] eqn:E0; [|discriminate].
  destruct (main_chain X c p0) as [[[]|rc] p1] eqn:E1; [|discriminate].
  destruct (main_sources X c p1) as [[sources|rc] p2] eqn:E2; [|discriminate].
  destruct (main_open X c sources p2) as [[opened|rc] p3] eqn:E3; [|discriminate].
  exists c, p0, p1, sources, p2, opened, p3. auto.
Qed.

Lemma main_chain_next c p p' :
  main_chain X c p = (Next tt, p') ->
  plugins (cfgPluginChain X c) <> [] /\ initializePluginChain X (cfgPluginChain X c) = true.
Proof.
  unfold main_chain. intros H.
  destruct (Z.eqb_spec (numPlugins (cfgPluginChain X c)) 0) as [Hz|Hz].
  - unfold fail, bind, call, exit in H. discriminate.
  - split.
    + intros E. apply Hz. unfold numPlugins. now rewrite E.
    + unfold fail, bind, call, exit, ret in H.
      destruct (initializePluginChain X _); [reflexivity|discriminate].
Qed.

(** The locals with which the loop is entered. *)
Lemma main_setup_locals argv l p :
  main_setup X argv (startProcess X) = (Next l, p) ->
  finishedReading l = false /\
  plugins (pluginChain l) <> [] /\
  taskTimer l = newTaskTimer (numPlugins (pluginChain l) + 1) /\
  hostTaskId l = numPlugins (pluginChain l) /\
  blocksize l = getBlocksize X (audioSettings p) /\
  bufferBlocksize (inputSampleBuffer l) = blocksize l /\
  bufferBlocksize (outputSampleBuffer l) = blocksize l.
Proof.
  intros H. destruct (main_setup_stages _ _ _ H)
    as (c & p0 & p1 & sources & p2 & [[input output] sequence] & p3 & _ & Hc & _ & _ & Hl).
  apply main_chain_next in Hc. destruct Hc as [Hne _].
  unfold main_locals in Hl. injection Hl as <- <-. cbn.
  repeat split; auto. lia.
Qed.

End SetupFacts.

(** ** Verifying the chain and the sources (lines 148-182) *)

Lemma main_exits X argv fuel rc p :
  main_setup X argv (startProcess X) = (Exit rc, p) ->
  main X fuel argv = Some {| status := rc; final := p; timer := None |}.
Proof. intros H. unfold main. now rewrite H. Qed.

Lemma main_setup_from_sources X argv c p0 p1 :
  main_options X argv (startProcess X) = (Next c, p0) ->
  main_chain X c p0 = (Next tt, p1) ->
  main_setup X argv (startProcess X)
  = bind X (main_sources X c)
      (fun sources => bind X (main_open X c sources) (main_locals X c)) p1.
Proof.
  intros H0 H1. unfold main_setup. unfold bind at 1. rewrite H0.
  unfold bind at 1. now rewrite H1.
Qed.

(** C4. When the command line has been taken in and the plugin chain holds
    no plugin, [main] returns the missing-required-option status right
    after logging it: no sample or MIDI source has been opened, read or
    written. *)
Theorem no_plugins_aborts_before_io X argv fuel c p0 :
  main_options X argv (startProcess X) = (Next c, p0) ->
  numPlugins (cfgPluginChain X c) = 0 ->
  exists o,
    main X fuel argv = Some o /\
    status o = RETURN_CODE_MISSING_REQUIRED_OPTION /\
    calls (final o) = calls p0 ++ [LogError Msg.noPlugins] /\
    forallb (fun call => negb (isSourceIO call)) (calls (final o)) = true.
Proof.
  intros H0 Hn.
  assert (Hs : main_setup X argv (startProcess X)
               = (Exit RETURN_CODE_MISSING_REQUIRED_OPTION,
                  record X (LogError Msg.noPlugins) p0)).
  { unfold main_setup. unfold bind at 1. rewrite H0.
    unfold bind at 1. unfold main_chain. rewrite Hn. reflexivity. }
  eexists. split; [apply main_exits, Hs|]. cbn.
  repeat split. rewrite forallb_app. cbn. rewrite andb_true_r.
  pose proof (main_options_quiet X argv _ (startProcess_quiet X isOptionCall)) as (_ & _ & Q).
  rewrite H0 in Q. cbn [snd] in Q.
  rewrite forallb_forall in *. intros x Hx. now apply isOptionCall_not_io, Q.
Qed.

Lemma no_plugins_aborts_before_io_witness :
  let X := host (Example.scenario true true true "nothing"%string 1000) in
  exists c p0,
    main_options X Example.argv (startProcess X) = (Next c, p0) /\
    numPlugins (cfgPluginChain X c) = 0 /\
    exists o,
      main X 0 Example.argv = Some o /\
      status o = RETURN_CODE_MISSING_REQUIRED_OPTION /\
      calls (final o) = calls p0 ++ [LogError Msg.noPlugins] /\
      forallb (fun call => negb (isSourceIO call)) (calls (final o)) = true.
Proof.
  intros X.
  destruct (main_options X Example.argv (startProcess X)) as [[c|rc] p0] eqn:E;
    [|vm_compute in E; discriminate].
  exists c, p0.
  assert (Hn : numPlugins (cfgPluginChain X c) = 0).
  { vm_compute in E. injection E as <- _. reflexivity. }
  split; [reflexivity|]. split; [exact Hn|].
  exact (no_plugins_aborts_before_io X Example.argv 0 c p0 E Hn).
Defined.

Lemma hd_error_cons {A} (l : list A) (x : A) :
  hd_error l = Some x -> exists rest, l = x :: rest.
Proof. destruct l; cbn; intros H; [discriminate|]. injection H as ->. eauto. Qed.

Lemma main_options_no_silence X argv :
  silenceSelected (calls (snd (main_options X argv (startProcess X)))) = false.
Proof.
  pose proof (main_options_quiet X argv _ (startProcess_quiet X isOptionCall)) as (_ & _ & Q).
  unfold silenceSelected. apply not_true_is_false. intros H.
  apply existsb_exists in H. destruct H as (c & Hin & Hc).
  rewrite forallb_forall in Q. specialize (Q c Hin).
  destruct c as [| | | |[] []| | | | | | | | | | | | | |]; cbn in *; discriminate.
Qed.

Lemma main_chain_no_silence X c p :
  silenceSelected (calls p) = false ->
  silenceSelected (calls (snd (main_chain X c p))) = false.
Proof.
  intros H. unfold main_chain, fail, bind, call, exit, ret, silenceSelected in *.
  destruct (_ =? _); cbn; [rewrite existsb_app, H; reflexivity|].
  destruct (negb _); cbn.
  - repeat rewrite existsb_app. rewrite H. reflexivity.
  - destruct (cfgDisplayPluginInfo X c); cbn; repeat rewrite existsb_app; now rewrite H.
Qed.

(** C5. In a run that reaches the check of the sources with an output
    source and without an input source: when the head plugin is an
    instrument the silence source becomes the input, and without a MIDI
    source [main] then returns the missing-required-option status with the
    message about the missing MIDI source; when the head plugin is not an
    instrument [main] returns that status with the message about the
    missing input source. *)
Theorem missing_input_source X argv c p0 p1 output head :
  main_options X argv (startProcess X) = (Next c, p0) ->
  main_chain X c p0 = (Next tt, p1) ->
  cfgOutputSource X c = Some output ->
  cfgInputSource X c = None ->
  hd_error (plugins (cfgPluginChain X c)) = Some head ->
  (pluginType head = PLUGIN_TYPE_INSTRUMENT ->
     (forall midiSource, cfgMidiSource X c = Some midiSource ->
        main_sources X c p1
        = (Next (newSampleSource X SAMPLE_SOURCE_TYPE_SILENCE None, output),
           record X (NewSampleSource SAMPLE_SOURCE_TYPE_SILENCE None) p1)) /\
     (cfgMidiSource X c = None ->
        forall fuel, exists o,
          main X fuel argv = Some o /\
          status o = RETURN_CODE_MISSING_REQUIRED_OPTION /\
          calls (final o)
          = calls p1 ++ [NewSampleSource SAMPLE_SOURCE_TYPE_SILENCE None;
                         LogError Msg.noMidi])) /\
  (pluginType head <> PLUGIN_TYPE_INSTRUMENT ->
     forall fuel, exists o,
       main X fuel argv = Some o /\
       status o = RETURN_CODE_MISSING_REQUIRED_OPTION /\
       calls (final o) = calls p1 ++ [LogError Msg.noInput]).
Proof.
  intros H0 H1 Hout Hin Hhd.
  destruct (hd_error_cons _ _ Hhd) as [rest Hp].
  pose proof (main_setup_from_sources X argv c p0 p1 H0 H1) as Hs.
  split.
  - intros Hi. apply PluginType_eqb_eq in Hi. split.
    + intros midiSource Hm. unfold main_sources.
      rewrite Hout, Hin, Hp, Hi, Hm. reflexivity.
    + intros Hm fuel. eexists. split.
      * apply main_exits. rewrite Hs. unfold bind at 1. unfold main_sources.
        rewrite Hout, Hin, Hp, Hi, Hm. reflexivity.
      * cbn. split; [reflexivity|]. now rewrite <- app_assoc.
  - intros Hi fuel.
    assert (Hb : PluginType_eqb (pluginType head) PLUGIN_TYPE_INSTRUMENT = false).
    { apply not_true_is_false. intros E. now apply PluginType_eqb_eq in E. }
    eexists. split.
    + apply main_exits. rewrite Hs. unfold bind at 1. unfold main_sources.
      rewrite Hout, Hin, Hp, Hb. reflexivity.
    + cbn. split; reflexivity.
Qed.

Lemma missing_input_source_witness :
  let X := host (Example.scenario false false true "instrument"%string 1000) in
  exists o,
    main X 0 Example.argv = Some o /\
    status o = RETURN_CODE_MISSING_REQUIRED_OPTION /\
    exists prefix,
      calls (final o)
      = prefix ++ [NewSampleSource SAMPLE_SOURCE_TYPE_SILENCE None; LogError Msg.noMidi].
Proof.
  intros X.
  destruct (main_options X Example.argv (startProcess X)) as [[c|rc] p0] eqn:E0;
    [|vm_compute in E0; discriminate].
  destruct (main_chain X c p0) as [[[]|rc] p1] eqn:E1;
    [|vm_compute in E0; injection E0 as <- <-; vm_compute in E1; discriminate].
  assert (Hc : cfgOutputSource X c
               = Some (newSampleSource X SAMPLE_SOURCE_TYPE_PCM (Some "out.pcm"%string)) /\
               cfgInputSource X c = None /\
               hd_error (plugins (cfgPluginChain X c)) = Some Example.instrument /\
               cfgMidiSource X c = None).
  { vm_compute in E0. injection E0 as <- _. repeat split. }
  destruct Hc as (Hout & Hin & Hhd & Hm).
  destruct (missing_input_source X Example.argv c p0 p1 _ _ E0 E1 Hout Hin Hhd)
    as [Hinstrument _].
  destruct (Hinstrument eq_refl) as [_ Hmissing].
  destruct (Hmissing Hm O) as (o & Ho & Hst & Hcalls).
  exists o. split; [exact Ho|]. split; [exact Hst|]. exists (calls p1). exact Hcalls.
Defined.




(** ** Runs that reach the loop *)

Section RunFacts.

Variable X : Collaborators.

Lemma count_app f (a b : list Call) : count f (a ++ b) = (count f a + count f b)%nat.
Proof. unfold count. now rewrite filter_app, length_app. Qed.

Lemma reads_app (a b : list Call) : reads (a ++ b) = reads a ++ reads b.
Proof. apply flat_map_app. Qed.

Lemma midiQueries_app (a b : list Call) : midiQueries (a ++ b) = midiQueries a ++ midiQueries b.
Proof. apply flat_map_app. Qed.

(** Calls made outside the loop are not counted by any reading of a run. *)
Lemma outside_loop cs :
  forallb (fun c => negb (isBlockCall c)) cs = true ->
  reads cs = [] /\ midiQueries cs = [] /\
  count isRead cs = O /\ count isWrite cs = O /\
  count isAudioProcessing cs = O /\ count isAdvance cs = O.
Proof.
  induction cs as [|c cs IH]; cbn [forallb]; [repeat split|].
  intros H. apply andb_true_iff in H. destruct H as [Hc Hcs].
  destruct (IH Hcs) as (A & B & C & D & E & F).
  unfold count in *.
  destruct c; cbn in Hc |- *; try discriminate; repeat split; assumption.
Qed.

Lemma setup_calls_outside_loop cs :
  forallb isSetupCall cs = true -> forallb (fun c => negb (isBlockCall c)) cs = true.
Proof.
  intros H. rewrite forallb_forall in *. intros c Hc. specialize (H c Hc).
  destruct c; cbn in *; congruence.
Qed.

Lemma midiCalls_counts (l : Locals X) start :
  reads (midiCalls l start) = [] /\
  count isRead (midiCalls l start) = O /\ count isWrite (midiCalls l start) = O /\
  count isAudioProcessing (midiCalls l start) = O /\
  count isAdvance (midiCalls l start) = O.
Proof.
  unfold midiCalls. destruct (midiSequence l) as [sequence|]; [|repeat split].
  destruct (fillMidiEventsFromRange X sequence start (blocksize l)); repeat split.
Qed.

(** Every block reads once, runs the chain once, writes once and advances
    the clock once, whatever the read reported. *)
Lemma blockCalls_counts (l : Locals X) p :
  reads (blockCalls l p)
  = [(snd (fst (readSampleBlock X (inputSource l) (inputSampleBuffer l))),
      fst (fst (readSampleBlock X (inputSource l) (inputSampleBuffer l))))] /\
  count isRead (blockCalls l p) = 1%nat /\ count isWrite (blockCalls l p) = 1%nat /\
  count isAudioProcessing (blockCalls l p) = 1%nat /\
  count isAdvance (blockCalls l p) = 1%nat.
Proof.
  unfold blockCalls.
  destruct (readSampleBlock X (inputSource l) (inputSampleBuffer l)) as [[ok frames] input].
  destruct (midiCalls_counts l (getAudioClockCurrentSample (audioClock p)))
    as (A & B & C & D & E).
  change (ReadSampleBlock frames ok :: ?m ++ ?t) with ([ReadSampleBlock frames ok] ++ m ++ t).
  rewrite !reads_app, !count_app, A, B, C, D, E. repeat split.
Qed.

Lemma loopCalls_counts n (l : Locals X) p :
  List.length (reads (loopCalls n l p)) = n /\
  count isRead (loopCalls n l p) = n /\ count isWrite (loopCalls n l p) = n /\
  count isAudioProcessing (loopCalls n l p) = n /\
  count isAdvance (loopCalls n l p) = n.
Proof.
  unfold loopCalls. induction n as [|n IH]; [repeat split|].
  rewrite seq_S, flat_map_app. cbn [flat_map Nat.add].
  rewrite app_nil_r, reads_app, length_app, !count_app.
  destruct IH as (A & B & C & D & E).
  destruct (blockCalls_counts (fst (afterBlocks n l p)) (snd (afterBlocks n l p)))
    as (A' & B' & C' & D' & E').
  rewrite A, B, C, D, E, A', B', C', D', E'. cbn [List.length]. repeat split; lia.
Qed.

Lemma fold_record_calls {A} (f : A -> Call) (xs : list A) : forall p : Process X,
  calls (fold_left (fun p x => record X (f x) p) xs p) = calls p ++ map f xs /\
  audioClock (fold_left (fun p x => record X (f x) p) xs p) = audioClock p /\
  wallReadings (fold_left (fun p x => record X (f x) p) xs p) = wallReadings p.
Proof.
  induction xs as [|x xs IH]; intros p; cbn [fold_left map].
  - now rewrite app_nil_r.
  - destruct (IH (record X (f x) p)) as (Hc & Ha & Hw). rewrite Hc, Ha, Hw. cbn.
    now rewrite <- app_assoc.
Qed.

(** The report stops the audio clock, reads the wall clock once to stop the
    timer, and logs. *)
Lemma main_report_spec (l : Locals X) p :
  fst (main_report X l p) = stopTiming (wallClock X (wallReadings p)) (taskTimer l) /\
  audioClock (snd (main_report X l p)) = stopAudioClock (audioClock p) /\
  wallReadings (snd (main_report X l p)) = S (wallReadings p) /\
  exists logs,
    calls (snd (main_report X l p))
    = calls p ++ StopAudioClock
        :: LogInfo Msg.totalTime
             [totalProcessingTime (stopTiming (wallClock X (wallReadings p)) (taskTimer l))]
        :: logs /\
    forallb isLogInfo logs = true.
Proof.
  unfold main_report, readWallClock. cbn [fst snd].
  match goal with |- context [fold_left ?g ?xs ?q] =>
    destruct (fold_record_calls
                (fun i => LogInfo Msg.taskTime
                            [nth i (totalTaskTimes
                               (stopTiming (wallClock X (wallReadings p)) (taskTimer l))) 0])
                xs q) as (A & B & C)
  end.
  cbn [record withClock calls audioClock wallReadings] in *.
  repeat split; auto.
  eexists. rewrite A. cbn [calls]. repeat rewrite <- app_assoc. cbn [app].
  split; [reflexivity|].
  rewrite forallb_app. cbn. rewrite andb_true_r.
  apply forallb_forall. intros c Hc. apply in_map_iff in Hc.
  destruct Hc as (i & <- & _). reflexivity.
Qed.

Lemma logs_outside_loop logs :
  forallb isLogInfo logs = true ->
  forallb (fun c => negb (isBlockCall c)) logs = true.
Proof.
  intros H. rewrite forallb_forall in *. intros c Hc. specialize (H c Hc).
  destruct c; cbn in *; congruence.
Qed.

Lemma main_after_setup argv fuel l p :
  main_setup X argv (startProcess X) = (Next l, p) ->
  main X fuel argv
  = match main_loop X fuel l p with
    | None => None
    | Some (l', p') =>
        Some {| status := RETURN_CODE_SUCCESS;
                final := snd (main_report X l' p');
                timer := Some (fst (main_report X l' p')) |}
    end.
Proof.
  intros H. unfold main. rewrite H.
  destruct (main_loop X fuel l p) as [[l' p']|]; [|reflexivity].
  now destruct (main_report X l' p').
Qed.

Lemma main_stops argv fuel l p n :
  main_setup X argv (startProcess X) = (Next l, p) ->
  stopsAfter n l p -> (n <= fuel)%nat ->
  exists o, main X fuel argv = Some o /\ ranBlocks n l p o.
Proof.
  intros Hs Hn Hle. rewrite (main_after_setup _ _ _ _ Hs).
  rewrite (main_loop_stops X fuel l p n Hn Hle).
  unfold ranBlocks.
  destruct (afterBlocks n l p) as [l' p']. eexists. split; [reflexivity|].
  cbn [status final timer fst snd]. auto.
Qed.

Lemma main_stopped argv fuel l p o :
  main_setup X argv (startProcess X) = (Next l, p) ->
  main X fuel argv = Some o ->
  exists n, (1 <= n <= fuel)%nat /\ stopsAfter n l p /\ ranBlocks n l p o.
Proof.
  intros Hs Ho. rewrite (main_after_setup _ _ _ _ Hs) in Ho.
  destruct (main_loop X fuel l p) as [[l' p']|] eqn:E; [|discriminate].
  destruct (main_loop_stopped X fuel l p _ E) as (n & Hle & Hn & Heq).
  exists n. split; [|split; [exact Hn|]].
  - split; [|exact Hle]. destruct n; [|lia].
    destruct Hn as [Hn _]. cbn in Hn.
    destruct (main_setup_locals X _ _ _ Hs) as (F & _). congruence.
  - injection Ho as <-. unfold ranBlocks. rewrite <- Heq.
    cbn [status final timer fst snd]. auto.
Qed.

(** The calls of a run that stopped after [n] blocks: those of the setup,
    those of the blocks, and the report. *)
Lemma ranBlocks_calls argv n l p o :
  main_setup X argv (startProcess X) = (Next l, p) ->
  ranBlocks n l p o ->
  reads (calls (final o)) = reads (loopCalls n l p) /\
  midiQueries (calls (final o)) = midiQueries (loopCalls n l p) /\
  count isRead (calls (final o)) = n /\ count isWrite (calls (final o)) = n /\
  count isAudioProcessing (calls (final o)) = n /\
  count isAdvance (calls (final o)) = n.
Proof.
  intros Hs (_ & Hf & _).
  pose proof (main_setup_quiet X argv) as (_ & _ & Q). rewrite Hs in Q. cbn [snd] in Q.
  destruct (outside_loop _ (setup_calls_outside_loop _ Q)) as (A & B & C & D & E & F).
  destruct (main_report_spec (fst (afterBlocks n l p)) (snd (afterBlocks n l p)))
    as (_ & _ & _ & logs & Hc & Hl).
  destruct (outside_loop _ (logs_outside_loop _ Hl)) as (A' & B' & C' & D' & E' & F').
  destruct (loopCalls_counts n l p) as (_ & C2 & D2 & E2 & F2).
  rewrite Hf, Hc, afterBlocks_calls.
  change (StopAudioClock :: ?a :: logs) with ([StopAudioClock; a] ++ logs).
  rewrite !reads_app, !midiQueries_app, !count_app.
  rewrite A, B, C, D, E, F, A', B', C', D', E', F', C2, D2, E2, F2.
  cbn. rewrite !app_nil_r. repeat split; lia.
Qed.

End RunFacts.

Section LoopClaims.

Variable X : Collaborators.

Lemma finished_without_midi k (l : Locals X) p :
  midiSequence l = None ->
  finishedReading (fst (afterBlocks (S k) l p)) = negb (blockRead k l p).
Proof.
  intros Hm. rewrite afterBlocks_S.
  destruct (block_spec X (fst (afterBlocks k l p)) (snd (afterBlocks k l p)))
    as (_ & _ & _ & _ & _ & _ & _ & F & _).
  cbv zeta in F. rewrite F.
  destruct (afterBlocks_constants X k l p) as (_ & -> & _). now rewrite Hm.
Qed.

Lemma finished_with_midi k (l : Locals X) p sequence :
  midiSequence l = Some sequence ->
  audioClock p = initAudioClock ->
  finishedReading (fst (afterBlocks (S k) l p))
  = negb (moreMidi X sequence (blocksize l) k).
Proof.
  intros Hm Hc. rewrite afterBlocks_S.
  destruct (block_spec X (fst (afterBlocks k l p)) (snd (afterBlocks k l p)))
    as (_ & _ & _ & _ & _ & _ & _ & F & _).
  cbv zeta in F. rewrite F.
  destruct (afterBlocks_constants X k l p) as (_ & -> & -> & _). rewrite Hm.
  rewrite afterBlocks_clock by (rewrite Hc; reflexivity).
  rewrite Hc. reflexivity.
Qed.

Lemma stopsAfter_S (more : nat -> bool) n (l : Locals X) p :
  finishedReading l = false ->
  (forall k, finishedReading (fst (afterBlocks (S k) l p)) = negb (more k)) ->
  stopsAfter (S n) l p <->
  more n = false /\ forall j, (j < n)%nat -> more j = true.
Proof.
  intros F Hk. unfold stopsAfter. rewrite Hk. split.
  - intros [Hn Hlt]. split; [now destruct (more n)|].
    intros j Hj. specialize (Hlt (S j) ltac:(lia)). rewrite Hk in Hlt.
    now destruct (more j).
  - intros [Hn Hlt]. split; [now rewrite Hn|].
    intros [|j] Hj; [exact F|]. rewrite Hk, Hlt by lia. reflexivity.
Qed.

(** When [more k] tells whether the loop goes on after block [k], the run
    ends with the first block for which it does not, and only then. *)
Lemma loop_runs_while (more : nat -> bool) argv (l : Locals X) p :
  main_setup X argv (startProcess X) = (Next l, p) ->
  (forall k, finishedReading (fst (afterBlocks (S k) l p)) = negb (more k)) ->
  (forall n, more n = false -> (forall j, (j < n)%nat -> more j = true) ->
     forall fuel, (n < fuel)%nat ->
     exists o, main X fuel argv = Some o /\
               status o = RETURN_CODE_SUCCESS /\
               count isRead (calls (final o)) = S n) /\
  (forall fuel o, main X fuel argv = Some o ->
     status o = RETURN_CODE_SUCCESS /\
     exists n, (n < fuel)%nat /\ more n = false /\
               (forall j, (j < n)%nat -> more j = true) /\
               count isRead (calls (final o)) = S n).
Proof.
  intros Hs Hk. destruct (main_setup_locals X _ _ _ Hs) as (F & _). split.
  - intros n Hn Hlt fuel Hf.
    destruct (main_stops X argv fuel l p (S n) Hs) as (o & Ho & Hr); [|lia|].
    + apply (stopsAfter_S more); auto.
    + exists o. split; [exact Ho|]. split; [apply Hr|].
      now destruct (ranBlocks_calls X argv _ _ _ _ Hs Hr) as (_ & _ & C & _).
  - intros fuel o Ho.
    destruct (main_stopped X argv fuel l p o Hs Ho) as (n & Hn & Hstop & Hr).
    split; [apply Hr|]. destruct n as [|n]; [lia|]. exists n.
    apply (stopsAfter_S more) in Hstop; auto. destruct Hstop as [Hm Hlt].
    split; [lia|]. split; [exact Hm|]. split; [exact Hlt|].
    now destruct (ranBlocks_calls X argv _ _ _ _ Hs Hr) as (_ & _ & C & _).
Qed.

(** C2, amended. In a run without a MIDI sequence, the loop ends with the
    first block whose [readSampleBlock] reports that no full block was read,
    and only then: when block [n] is the first such block, [main] returns
    success after [n + 1] reads; a run that returns has ended that way. End
    of stream is no error. *)
Theorem loop_ends_at_end_of_stream argv (l : Locals X) p :
  main_setup X argv (startProcess X) = (Next l, p) ->
  midiSequence l = None ->
  (forall n, blockRead n l p = false ->
     (forall j, (j < n)%nat -> blockRead j l p = true) ->
     forall fuel, (n < fuel)%nat ->
     exists o, main X fuel argv = Some o /\
               status o = RETURN_CODE_SUCCESS /\
               count isRead (calls (final o)) = S n) /\
  (forall fuel o, main X fuel argv = Some o ->
     status o = RETURN_CODE_SUCCESS /\
     exists n, (n < fuel)%nat /\ blockRead n l p = false /\
               (forall j, (j < n)%nat -> blockRead j l p = true) /\
               count isRead (calls (final o)) = S n).
Proof.
  intros Hs Hm.
  apply (loop_runs_while (fun k => blockRead k l p) argv l p Hs).
  intros k. now apply finished_without_midi.
Qed.

(** C9. In a run with a MIDI sequence, every block sets [finishedReading]
    to the negation of what the MIDI query of that block answers, whatever
    the input source reported: the loop goes on while the query reports
    more events and ends with the first block whose query does not. *)
Theorem midi_query_decides_the_loop argv (l : Locals X) p sequence :
  main_setup X argv (startProcess X) = (Next l, p) ->
  midiSequence l = Some sequence ->
  (forall k, finishedReading (fst (afterBlocks (S k) l p))
             = negb (moreMidi X sequence (blocksize l) k)) /\
  (forall n, moreMidi X sequence (blocksize l) n = false ->
     (forall j, (j < n)%nat -> moreMidi X sequence (blocksize l) j = true) ->
     forall fuel, (n < fuel)%nat ->
     exists o, main X fuel argv = Some o /\
               status o = RETURN_CODE_SUCCESS /\
               count isRead (calls (final o)) = S n) /\
  (forall fuel o, main X fuel argv = Some o ->
     status o = RETURN_CODE_SUCCESS /\
     exists n, (n < fuel)%nat /\ moreMidi X sequence (blocksize l) n = false /\
               (forall j, (j < n)%nat -> moreMidi X sequence (blocksize l) j = true) /\
               count isRead (calls (final o)) = S n).
Proof.
  intros Hs Hm.
  assert (Hk : forall k, finishedReading (fst (afterBlocks (S k) l p))
                         = negb (moreMidi X sequence (blocksize l) k)).
  { intros k. apply finished_with_midi; [exact Hm|].
    pose proof (main_setup_quiet X argv) as (C & _). now rewrite Hs in C. }
  split; [exact Hk|].
  exact (loop_runs_while (moreMidi X sequence (blocksize l)) argv l p Hs Hk).
Qed.


End LoopClaims.

Lemma loop_ends_at_end_of_stream_witness :
  let X := host (Example.scenario true false true "effect"%string 1000) in
  exists o,
    main X 4 Example.argv = Some o /\
    status o = RETURN_CODE_SUCCESS /\
    count isRead (calls (final o)) = 4%nat.
Proof.
  intros X.
  destruct (main_setup X Example.argv (startProcess X)) as [[l|rc] p] eqn:E;
    [|vm_compute in E; discriminate].
  assert (Hm : midiSequence l = None).
  { vm_compute in E. injection E as <- _. reflexivity. }
  destruct (loop_ends_at_end_of_stream X Example.argv l p E Hm) as [Hends _].
  apply (Hends 3%nat).
  - vm_compute in E. injection E as <- <-. reflexivity.
  - intros j Hj. vm_compute in E. injection E as <- <-.
    destruct j as [|[|[|j]]]; [reflexivity|reflexivity|reflexivity|lia].
  - lia.
Defined.

(** C2, as stated, fails: with a MIDI sequence loaded the first read of a
    100-frame input reports the end of the stream, and the loop runs two
    more blocks, until the MIDI events are exhausted. *)
Lemma loop_continues_past_end_of_stream :
  let X := host (Example.scenario true true true "effect"%string 100) in
  main X 1 Example.argv = None /\
  exists o,
    main X 3 Example.argv = Some o /\
    status o = RETURN_CODE_SUCCESS /\
    reads (calls (final o)) = [(100, false); (0, false); (0, false)].
Proof.
  intros X. split; [vm_compute; reflexivity|].
  eexists. split; [vm_compute; reflexivity|]. split; vm_compute; reflexivity.
Qed.

Lemma midi_query_decides_the_loop_witness :
  let X := host (Example.scenario true true true "effect"%string 100) in
  exists l p,
    main_setup X Example.argv (startProcess X) = (Next l, p) /\
    blockRead 0 l p = false /\
    finishedReading (fst (afterBlocks 1 l p)) = false /\
    exists o,
      main X 3 Example.argv = Some o /\
      status o = RETURN_CODE_SUCCESS /\
      count isRead (calls (final o)) = 3%nat.
Proof.
  intros X.
  destruct (main_setup X Example.argv (startProcess X)) as [[l|rc] p] eqn:E;
    [|vm_compute in E; discriminate].
  exists l, p. split; [reflexivity|].
  assert (Hm : midiSequence l
               = Some [Example.event 0; Example.event 300; Example.event 600]).
  { vm_compute in E. injection E as <- _. reflexivity. }
  assert (Hb : blocksize l = 256).
  { vm_compute in E. injection E as <- _. reflexivity. }
  destruct (midi_query_decides_the_loop X Example.argv l p _ E Hm)
    as (Hflag & Hends & _).
  split; [vm_compute in E; injection E as <- <-; reflexivity|].
  split; [rewrite Hflag, Hb; reflexivity|].
  apply (Hends 2%nat).
  - rewrite Hb. reflexivity.
  - intros j Hj. rewrite Hb. destruct j as [|[|j]]; [reflexivity|reflexivity|lia].
  - lia.
Defined.


(** C6. The audio clock reads 0 when the process starts; the setup leaves
    it alone; each block advances it by [blocksize], once, as its last
    call, right after the block was written; so it reads [k * blocksize]
    when block [k] begins, never decreases, and at the end of a run reads
    the number of blocks written times [blocksize]. *)
Theorem audio_clock_counts_blocks X argv (l : Locals X) p :
  main_setup X argv (startProcess X) = (Next l, p) ->
  0 <= blocksize l ->
  getAudioClockCurrentSample (audioClock (startProcess X)) = 0 /\
  (forall k,
     getAudioClockCurrentSample (audioClock (snd (afterBlocks k l p)))
     = Z.of_nat k * blocksize l /\
     audioClock (snd (afterBlocks (S k) l p))
     = advanceAudioClock (blocksize l) (audioClock (snd (afterBlocks k l p))) /\
     exists body,
       calls (snd (afterBlocks (S k) l p))
       = calls (snd (afterBlocks k l p)) ++ body
           ++ [WriteSampleBlock; AdvanceAudioClock (blocksize l)] /\
       count isAdvance body = O) /\
  (forall j k, (j <= k)%nat ->
     getAudioClockCurrentSample (audioClock (snd (afterBlocks j l p)))
     <= getAudioClockCurrentSample (audioClock (snd (afterBlocks k l p)))) /\
  (forall fuel o, main X fuel argv = Some o ->
     count isAdvance (calls (final o)) = count isWrite (calls (final o)) /\
     getAudioClockCurrentSample (audioClock (final o))
     = Z.of_nat (count isWrite (calls (final o))) * blocksize l).
Proof.
  intros Hs Hb.
  pose proof (main_setup_quiet X argv) as (Hc & _). rewrite Hs in Hc. cbn [snd] in Hc.
  assert (Hclock : forall k,
            getAudioClockCurrentSample (audioClock (snd (afterBlocks k l p)))
            = Z.of_nat k * blocksize l).
  { intros k. rewrite afterBlocks_clock by (rewrite Hc; reflexivity).
    rewrite Hc. reflexivity. }
  split; [reflexivity|]. split; [|split].
  - intros k. split; [apply Hclock|].
    rewrite afterBlocks_S.
    destruct (block_spec X (fst (afterBlocks k l p)) (snd (afterBlocks k l p)))
      as (_ & _ & _ & _ & _ & _ & _ & _ & C & D).
    cbv zeta in C, D.
    destruct (afterBlocks_constants X k l p) as (_ & _ & B & _).
    rewrite B in C. split; [exact C|].
    rewrite D. unfold blockCalls.
    destruct (readSampleBlock X _ _) as [[result frames] input].
    rewrite B.
    set (midi := midiCalls _ _).
    exists (ReadSampleBlock frames result :: midi ++ [ProcessPluginChainAudio]).
    split.
    + cbn [app]. rewrite <- app_assoc. reflexivity.
    + destruct (midiCalls_counts X (fst (afterBlocks k l p))
                  (getAudioClockCurrentSample (audioClock (snd (afterBlocks k l p)))))
        as (_ & _ & _ & _ & E).
      change (ReadSampleBlock frames result :: midi ++ [ProcessPluginChainAudio])
        with ([ReadSampleBlock frames result] ++ midi ++ [ProcessPluginChainAudio]).
      rewrite !count_app. subst midi. rewrite E. reflexivity.
  - intros j k Hjk. rewrite !Hclock. nia.
  - intros fuel o Ho.
    destruct (main_stopped X argv fuel l p o Hs Ho) as (n & _ & _ & Hr).
    destruct (ranBlocks_calls X argv _ _ _ _ Hs Hr) as (_ & _ & _ & W & _ & A).
    rewrite W, A. split; [reflexivity|].
    destruct Hr as (_ & -> & _).
    destruct (main_report_spec X (fst (afterBlocks n l p)) (snd (afterBlocks n l p)))
      as (_ & -> & _).
    cbn [stopAudioClock getAudioClockCurrentSample currentSample]. apply Hclock.
Qed.

Lemma audio_clock_counts_blocks_witness :
  let X := host (Example.scenario true false true "effect"%string 1000) in
  exists o,
    main X 4 Example.argv = Some o /\
    count isWrite (calls (final o)) = 4%nat /\
    count isAdvance (calls (final o)) = count isWrite (calls (final o)) /\
    getAudioClockCurrentSample (audioClock (final o))
    = Z.of_nat (count isWrite (calls (final o))) * 256.
Proof.
  intros X.
  destruct (main_setup X Example.argv (startProcess X)) as [[l|rc] p] eqn:E;
    [|vm_compute in E; discriminate].
  assert (Hb : blocksize l = 256).
  { vm_compute in E. injection E as <- _. reflexivity. }
  destruct (main X 4 Example.argv) as [o|] eqn:Ho; [|vm_compute in Ho; discriminate].
  exists o. split; [reflexivity|].
  split; [vm_compute in Ho; injection Ho as <-; vm_compute; reflexivity|].
  assert (H0 : 0 <= blocksize l) by (rewrite Hb; lia).
  destruct (audio_clock_counts_blocks X Example.argv l p E H0) as (_ & _ & _ & H).
  rewrite <- Hb. exact (H 4%nat o Ho).
Defined.

(** ** A file read to its end (Scenario C) *)

Lemma reads_loopCalls X n (l : Locals X) p :
  reads (loopCalls n l p)
  = map (fun k =>
           let l' := fst (afterBlocks k l p) in
           (snd (fst (readSampleBlock X (inputSource l') (inputSampleBuffer l'))),
            fst (fst (readSampleBlock X (inputSource l') (inputSampleBuffer l')))))
      (seq 0 n).
Proof.
  unfold loopCalls. induction n as [|n IH]; [reflexivity|].
  rewrite seq_S, flat_map_app, map_app, reads_app, IH. cbn [flat_map map Nat.add].
  rewrite app_nil_r.
  now destruct (blockCalls_counts X (fst (afterBlocks n l p)) (snd (afterBlocks n l p)))
    as (-> & _).
Qed.

Section FileInput.

Variable s : Model.Scenario.
Variable l : Locals (host s).
Variable p : Process (host s).
Hypothesis file : Model.sourceType (inputSource l) = SAMPLE_SOURCE_TYPE_PCM.
Hypothesis buffer : bufferBlocksize (inputSampleBuffer l) = blocksize l.

(** The file after [k] blocks, while it has frames for them. *)
Lemma file_after_blocks k :
  Z.of_nat k * blocksize l <= Model.framesLeft (inputSource l) ->
  0 <= blocksize l ->
  Model.sourceType (inputSource (fst (afterBlocks k l p))) = SAMPLE_SOURCE_TYPE_PCM /\
  Model.framesLeft (inputSource (fst (afterBlocks k l p)))
  = Model.framesLeft (inputSource l) - Z.of_nat k * blocksize l.
Proof.
  intros Hk Hb. induction k as [|k IH].
  - change (afterBlocks 0 l p) with (l, p). cbn [fst]. split; [exact file|]. lia.
  - destruct IH as [IHt IHf]; [nia|].
    rewrite afterBlocks_S.
    destruct (block_spec (host s) (fst (afterBlocks k l p)) (snd (afterBlocks k l p)))
      as (_ & _ & _ & _ & _ & _ & I & _).
    cbv zeta in I. rewrite I.
    destruct (afterBlocks_constants (host s) k l p) as (_ & _ & _ & -> & _).
    cbn [readSampleBlock host]. unfold Model.readSampleBlock.
    rewrite IHt. cbn [snd Model.sourceType Model.framesLeft].
    split; [reflexivity|]. rewrite IHf, buffer. nia.
Qed.

(** What the read of block [k] answers and how many frames it returns. *)
Lemma file_read k :
  Z.of_nat k * blocksize l <= Model.framesLeft (inputSource l) ->
  0 <= blocksize l ->
  let l' := fst (afterBlocks k l p) in
  fst (readSampleBlock (host s) (inputSource l') (inputSampleBuffer l'))
  = (blocksize l
       <=? Z.min (blocksize l)
                 (Model.framesLeft (inputSource l) - Z.of_nat k * blocksize l),
     Z.min (blocksize l)
           (Model.framesLeft (inputSource l) - Z.of_nat k * blocksize l)).
Proof.
  intros Hk Hb. destruct (file_after_blocks k Hk Hb) as [Ht Hf].
  cbv zeta.
  destruct (afterBlocks_constants (host s) k l p) as (_ & _ & _ & -> & _).
  cbn [readSampleBlock host]. unfold Model.readSampleBlock.
  rewrite Ht, Hf, buffer. reflexivity.
Qed.

End FileInput.

(** C3. An input file of exactly 1000 frames read with a blocksize of 256
    and no MIDI sequence: the loop makes exactly four reads, which return
    256, 256, 256 and 232 frames; [finishedReading] stays false after the
    first three and becomes true with the fourth, after which [main]
    returns. *)
Theorem thousand_frames_in_four_blocks s argv (l : Locals (host s)) p :
  main_setup (host s) argv (startProcess (host s)) = (Next l, p) ->
  midiSequence l = None ->
  Model.sourceType (inputSource l) = SAMPLE_SOURCE_TYPE_PCM ->
  Model.framesLeft (inputSource l) = 1000 ->
  blocksize l = 256 ->
  finishedReading (fst (afterBlocks 1 l p)) = false /\
  finishedReading (fst (afterBlocks 2 l p)) = false /\
  finishedReading (fst (afterBlocks 3 l p)) = false /\
  finishedReading (fst (afterBlocks 4 l p)) = true /\
  forall fuel, (4 <= fuel)%nat ->
  exists o,
    main (host s) fuel argv = Some o /\
    status o = RETURN_CODE_SUCCESS /\
    reads (calls (final o)) = [(256, true); (256, true); (256, true); (232, false)].
Proof.
  intros Hs Hm Ht Hf Hb.
  destruct (main_setup_locals (host s) _ _ _ Hs) as (F & _ & _ & _ & _ & Hbuf & _).
  assert (Hread : forall k, (k <= 3)%nat ->
            let l' := fst (afterBlocks k l p) in
            fst (readSampleBlock (host s) (inputSource l') (inputSampleBuffer l'))
            = (256 <=? Z.min 256 (1000 - Z.of_nat k * 256),
               Z.min 256 (1000 - Z.of_nat k * 256))).
  { intros k Hk. rewrite <- Hb, <- Hf. apply file_read; auto; lia. }
  assert (Hfin : forall k, (k <= 3)%nat ->
            finishedReading (fst (afterBlocks (S k) l p))
            = negb (256 <=? Z.min 256 (1000 - Z.of_nat k * 256))).
  { intros k Hk. rewrite (finished_without_midi (host s) k l p Hm).
    unfold blockRead. specialize (Hread k Hk). cbv zeta in Hread.
    now rewrite Hread. }
  assert (F1 := Hfin 0%nat ltac:(lia)). assert (F2 := Hfin 1%nat ltac:(lia)).
  assert (F3 := Hfin 2%nat ltac:(lia)). assert (F4 := Hfin 3%nat ltac:(lia)).
  cbn in F1, F2, F3, F4.
  repeat (split; [assumption|]).
  intros fuel Hfuel.
  destruct (main_stops (host s) argv fuel l p 4 Hs) as (o & Ho & Hr); [|lia|].
  - split; [exact F4|]. intros [|[|[|[|j]]]] Hj; try assumption; lia.
  - exists o. split; [exact Ho|]. split; [apply Hr|].
    destruct (ranBlocks_calls (host s) argv _ _ _ _ Hs Hr) as (-> & _).
    rewrite reads_loopCalls. cbn [seq map].
    pose proof (Hread 0%nat ltac:(lia)) as R0. pose proof (Hread 1%nat ltac:(lia)) as R1.
    pose proof (Hread 2%nat ltac:(lia)) as R2. pose proof (Hread 3%nat ltac:(lia)) as R3.
    cbv zeta in R0, R1, R2, R3 |- *. rewrite R0, R1, R2, R3. reflexivity.
Qed.

Lemma thousand_frames_in_four_blocks_witness :
  let X := host (Example.scenario true false true "effect"%string 1000) in
  exists o,
    main X 4 Example.argv = Some o /\
    status o = RETURN_CODE_SUCCESS /\
    reads (calls (final o)) = [(256, true); (256, true); (256, true); (232, false)].
Proof.
  intros X.
  destruct (main_setup X Example.argv (startProcess X)) as [[l|rc] p] eqn:E;
    [|vm_compute in E; discriminate].
  assert (H : midiSequence l = None /\
              Model.sourceType (inputSource l) = SAMPLE_SOURCE_TYPE_PCM /\
              Model.framesLeft (inputSource l) = 1000 /\
              blocksize l = 256).
  { vm_compute in E. injection E as <- _. repeat split. }
  destruct H as (Hm & Ht & Hf & Hb).
  destruct (thousand_frames_in_four_blocks _ Example.argv l p E Hm Ht Hf Hb)
    as (_ & _ & _ & _ & H).
  exact (H 4%nat (le_n 4)).
Defined.

(** ** MIDI windows (Scenario D) *)

Lemma midiQueries_loopCalls X n (l : Locals X) p sequence :
  midiSequence l = Some sequence ->
  audioClock p = initAudioClock ->
  midiQueries (loopCalls n l p)
  = map (fun k =>
           (Z.of_nat k * blocksize l, blocksize l,
            snd (fillMidiEventsFromRange X sequence (Z.of_nat k * blocksize l)
                   (blocksize l))))
      (seq 0 n).
Proof.
  intros Hm Hc. unfold loopCalls. induction n as [|n IH]; [reflexivity|].
  rewrite seq_S, flat_map_app, map_app, midiQueries_app, IH.
  cbn [flat_map map Nat.add]. rewrite app_nil_r. f_equal.
  unfold blockCalls, midiCalls.
  destruct (afterBlocks_constants X n l p) as (_ & -> & -> & _). rewrite Hm.
  rewrite afterBlocks_clock by (rewrite Hc; reflexivity). rewrite Hc.
  cbn [getAudioClockCurrentSample currentSample initAudioClock Z.add].
  destruct (readSampleBlock X _ _) as [[result frames] input].
  destruct (fillMidiEventsFromRange X sequence _ _) as [more events].
  reflexivity.
Qed.

(** Events remain after a window exactly when the window ends at or before
    the last timestamp. *)
Lemma remains_lastTimestamp sequence start length :
  0 < start + length ->
  existsb (Model.remains start length) sequence
  = (start + length <=? lastTimestamp sequence).
Proof.
  intros Hpos. unfold lastTimestamp.
  induction sequence as [|e rest IH]; cbn [existsb map fold_right].
  - symmetry. apply Z.leb_gt. lia.
  - rewrite IH. unfold Model.remains.
    destruct (Z.leb_spec (start + length) (timestamp e));
      destruct (Z.leb_spec (start + length) (fold_right Z.max 0 (map timestamp rest)));
      cbn; symmetry; try (apply Z.leb_le; lia); apply Z.leb_gt; lia.
Qed.

Lemma lastTimestamp_bounds sequence :
  0 <= lastTimestamp sequence /\
  forall e, In e sequence -> timestamp e <= lastTimestamp sequence.
Proof.
  unfold lastTimestamp. induction sequence as [|x rest [IH0 IH]]; cbn [map fold_right].
  - split; [lia|]. intros e [].
  - split; [lia|]. intros e [<-|He]; [lia|]. specialize (IH e He). lia.
Qed.

(** Splitting a list by two predicates that exclude each other. *)
Lemma filter_split {A} (f g h : A -> bool) (xs : list A) :
  (forall x, In x xs -> h x = f x || g x) ->
  (forall x, In x xs -> f x && g x = false) ->
  Permutation (filter f xs ++ filter g xs) (filter h xs).
Proof.
  induction xs as [|x xs IH]; intros Hh Hd; cbn [filter]; [constructor|].
  assert (IH' : Permutation (filter f xs ++ filter g xs) (filter h xs)).
  { apply IH; intros y Hy; [apply Hh|apply Hd]; now right. }
  specialize (Hh x (or_introl eq_refl)). specialize (Hd x (or_introl eq_refl)).
  rewrite Hh. destruct (f x), (g x); cbn in Hd |- *; try discriminate.
  - now constructor.
  - rewrite <- IH'. symmetry. apply Permutation_middle.
  - exact IH'.
Qed.

(** The first [n] windows hold, between them, the events before
    [n * size], each once. *)
Lemma windows_partition size sequence n :
  0 <= size ->
  Permutation (flat_map (window size sequence) (seq 0 n))
    (filter (fun e => (0 <=? timestamp e) && (timestamp e <? Z.of_nat n * size)) sequence).
Proof.
  intros Hsize. induction n as [|n IH].
  - cbn [seq flat_map]. replace (filter _ sequence) with (@nil MidiEvent); [constructor|].
    symmetry.
    induction sequence as [|e rest IHr]; [reflexivity|]. cbn [filter].
    replace ((0 <=? timestamp e) && (timestamp e <? Z.of_nat 0 * size)) with false; [exact IHr|].
    symmetry. apply andb_false_iff.
    destruct (Z.leb_spec 0 (timestamp e)); [right; apply Z.ltb_ge; lia|now left].
  - rewrite seq_S, flat_map_app. cbn [flat_map Nat.add]. rewrite app_nil_r, IH.
    apply filter_split; intros e _; unfold Model.inRange.
    + destruct (Z.leb_spec 0 (timestamp e)), (Z.ltb_spec (timestamp e) (Z.of_nat n * size)),
        (Z.leb_spec (Z.of_nat n * size) (timestamp e)),
        (Z.ltb_spec (timestamp e) (Z.of_nat n * size + size)),
        (Z.ltb_spec (timestamp e) (Z.of_nat (S n) * size)); cbn; try reflexivity; nia.
    + destruct (Z.leb_spec 0 (timestamp e)), (Z.ltb_spec (timestamp e) (Z.of_nat n * size)),
        (Z.leb_spec (Z.of_nat n * size) (timestamp e)),
        (Z.ltb_spec (timestamp e) (Z.of_nat n * size + size)); cbn; try reflexivity; nia.
Qed.

Lemma filter_all {A} (f : A -> bool) (xs : list A) :
  (forall x, In x xs -> f x = true) -> filter f xs = xs.
Proof.
  induction xs as [|x xs IH]; intros H; cbn [filter]; [reflexivity|].
  rewrite (H x (or_introl eq_refl)), IH; [reflexivity|]. intros y Hy. apply H. now right.
Qed.

(** An event is in window [k] exactly when it is in the sequence and [k]
    is its timestamp divided by the size. *)
Lemma in_window size sequence k e :
  0 < size -> 0 <= timestamp e ->
  In e (window size sequence k) <->
  In e sequence /\ k = Z.to_nat (timestamp e / size).
Proof.
  intros Hsize Hts. unfold window, Model.inRange. rewrite filter_In, andb_true_iff.
  rewrite Z.leb_le, Z.ltb_lt.
  pose proof (Z.div_mod (timestamp e) size ltac:(lia)) as Hdm.
  pose proof (Z.mod_pos_bound (timestamp e) size Hsize) as Hmod.
  pose proof (Z.div_pos (timestamp e) size Hts Hsize) as Hdiv.
  split; intros [Hin Hk]; (split; [exact Hin|]).
  - assert (Z.of_nat k = timestamp e / size) by nia. lia.
  - subst k. rewrite Z2Nat.id by lia. nia.
Qed.

Lemma flat_map_snd_map {A B C} (f : A -> B * list C) (xs : list A) :
  flat_map snd (map f xs) = flat_map (fun x => snd (f x)) xs.
Proof. induction xs as [|x xs IH]; cbn; [reflexivity|]. now rewrite IH. Qed.

(** C1. With a MIDI sequence loaded, events at non-negative timestamps and
    a positive blocksize, and the range query answering as the
    specification describes it: the run returns after as many blocks as it
    takes to pass the last timestamp; the query of block [k] is made for the
    half-open window that starts at [k * blocksize] and is [blocksize] long,
    the first at 0; between them the query results hold every event of the
    sequence, each once; and an event whose timestamp is the end of window
    [k] is delivered by the query of block [k + 1], not by that of block
    [k]. *)
Theorem midi_windows_partition_the_sequence X argv (l : Locals X) p sequence :
  main_setup X argv (startProcess X) = (Next l, p) ->
  midiSequence l = Some sequence ->
  fillMidiEventsFromRange X = Model.fillMidiEventsFromRange ->
  0 < blocksize l ->
  (forall e, In e sequence -> 0 <= timestamp e) ->
  let size := blocksize l in
  let n := S (Z.to_nat (lastTimestamp sequence / size)) in
  forall fuel, (n <= fuel)%nat ->
  exists o,
    main X fuel argv = Some o /\
    status o = RETURN_CODE_SUCCESS /\
    midiQueries (calls (final o))
    = map (fun k => (Z.of_nat k * size, size, window size sequence k)) (seq 0 n) /\
    Permutation (flat_map snd (midiQueries (calls (final o)))) sequence /\
    (forall e, In e sequence ->
       exists k, (k < n)%nat /\ forall j, In e (window size sequence j) <-> j = k) /\
    (forall e k, In e sequence -> timestamp e = Z.of_nat k * size + size ->
       (S k < n)%nat /\
       ~ In e (window size sequence k) /\ In e (window size sequence (S k))).
Proof.
  intros Hs Hm HX Hsize Hts size n fuel Hfuel.
  pose proof (main_setup_quiet X argv) as (Hc & _). rewrite Hs in Hc. cbn [snd] in Hc.
  destruct (main_setup_locals X _ _ _ Hs) as (F & _).
  destruct (lastTimestamp_bounds sequence) as [Hlast0 Hlast].
  set (N := Z.to_nat (lastTimestamp sequence / size)) in *.
  assert (HN : Z.of_nat N = lastTimestamp sequence / size).
  { subst N. rewrite Z2Nat.id; [reflexivity|]. apply Z.div_pos; lia. }
  pose proof (Z.div_mod (lastTimestamp sequence) size ltac:(lia)) as Hdm.
  pose proof (Z.mod_pos_bound (lastTimestamp sequence) size Hsize) as Hmod.
  assert (Hmore : forall k, moreMidi X sequence size k
                            = (Z.of_nat k * size + size <=? lastTimestamp sequence)).
  { intros k. unfold moreMidi. rewrite HX. cbn [Model.fillMidiEventsFromRange fst].
    apply remains_lastTimestamp. nia. }
  assert (Hfin : forall k, finishedReading (fst (afterBlocks (S k) l p))
                           = negb (moreMidi X sequence size k)).
  { intros k. now apply finished_with_midi. }
  assert (Hstop : stopsAfter n l p).
  { apply (stopsAfter_S X (moreMidi X sequence size)); auto. split.
    - rewrite Hmore. apply Z.leb_gt. nia.
    - intros j Hj. rewrite Hmore. apply Z.leb_le. nia. }
  destruct (main_stops X argv fuel l p n Hs Hstop Hfuel) as (o & Ho & Hr).
  exists o. split; [exact Ho|]. split; [apply Hr|].
  destruct (ranBlocks_calls X argv _ _ _ _ Hs Hr) as (_ & -> & _).
  rewrite (midiQueries_loopCalls X n l p sequence Hm Hc), HX.
  cbn [Model.fillMidiEventsFromRange snd]. fold size.
  split; [reflexivity|].
  assert (Hin : forall e, In e sequence ->
            (Z.to_nat (timestamp e / size) < n)%nat /\
            forall j, In e (window size sequence j) <-> j = Z.to_nat (timestamp e / size)).
  { intros e He. split.
    - pose proof (Z.div_le_mono (timestamp e) (lastTimestamp sequence) size Hsize
                    (Hlast e He)).
      pose proof (Z.div_pos (timestamp e) size (Hts e He) Hsize).
      subst n N. lia.
    - intros j. rewrite in_window by auto. tauto. }
  split; [|split].
  - rewrite flat_map_snd_map. cbn [snd].
    rewrite (windows_partition size sequence n) by lia.
    rewrite filter_all; [reflexivity|].
    intros e He. apply andb_true_iff. split; [apply Z.leb_le; auto|].
    apply Z.ltb_lt. specialize (Hlast e He). subst n. nia.
  - intros e He. exists (Z.to_nat (timestamp e / size)). now apply Hin.
  - intros e k He Hk. destruct (Hin e He) as [Hlt Hwin].
    assert (Hdiv : timestamp e / size = Z.of_nat (S k)).
    { symmetry. apply (Z.div_unique _ _ _ 0); [lia|nia]. }
    rewrite Hdiv, Nat2Z.id in Hlt, Hwin.
    split; [exact Hlt|]. split; [|now apply Hwin].
    intros Hk'. apply Hwin in Hk'. lia.
Qed.

Lemma midi_windows_partition_the_sequence_witness :
  let X := host (Example.scenario false true true "instrument"%string 0) in
  let sequence := [Example.event 0; Example.event 300; Example.event 600] in
  exists o,
    main X 3 Example.argv = Some o /\
    status o = RETURN_CODE_SUCCESS /\
    midiQueries (calls (final o))
    = [(0, 256, [Example.event 0]); (256, 256, [Example.event 300]);
       (512, 256, [Example.event 600])] /\
    Permutation (flat_map snd (midiQueries (calls (final o)))) sequence.
Proof.
  intros X sequence.
  destruct (main_setup X Example.argv (startProcess X)) as [[l|rc] p] eqn:E;
    [|vm_compute in E; discriminate].
  assert (H : midiSequence l = Some sequence /\ blocksize l = 256).
  { vm_compute in E. injection E as <- _. split; reflexivity. }
  destruct H as (Hm & Hb).
  assert (Hsize : 0 < blocksize l) by (rewrite Hb; lia).
  assert (Hts : forall e, In e sequence -> 0 <= timestamp e).
  { intros e [<-|[<-|[<-|[]]]]; cbn; lia. }
  destruct (midi_windows_partition_the_sequence X Example.argv l p sequence
              E Hm eq_refl Hsize Hts 3%nat)
    as (o & Ho & Hst & Hq & Hperm & _).
  { rewrite Hb. vm_compute. lia. }
  exists o. split; [exact Ho|]. split; [exact Hst|]. split; [|exact Hperm].
  rewrite Hq, Hb. reflexivity.
Defined.

(** ** Time accounting *)

Lemma addTaskTime_spec i d : forall times,
  List.length (addTaskTime i d times) = List.length times /\
  ((i < List.length times)%nat ->
   sumTaskTimes (addTaskTime i d times) = sumTaskTimes times + d).
Proof.
  induction i as [|i IH]; intros [|t rest]; cbn [addTaskTime List.length sumTaskTimes fold_right];
    try (split; [reflexivity|intros; lia]).
  destruct (IH rest) as [Hl Hs]. rewrite Hl. split; [reflexivity|].
  intros Hi. fold (sumTaskTimes (addTaskTime i d rest)).
  rewrite Hs by lia. unfold sumTaskTimes. lia.
Qed.

Section TimerFacts.

Variable X : Collaborators.

Lemma timing_same_readings slots t (p p' : Process X) :
  wallReadings p' = wallReadings p -> timing slots t p -> timing slots t p'.
Proof. unfold timing. intros ->. auto. Qed.

Lemma timeTask_timing slots taskId t (p : Process X) :
  timing slots t p -> 0 <= taskId < slots ->
  timing slots (fst (timeTask X taskId t p)) (snd (timeTask X taskId t p)) /\
  currentTask (fst (timeTask X taskId t p)) = Some taskId.
Proof.
  intros (Hn & Hlen & Hcur) Hid. unfold timeTask, readWallClock, timing.
  cbn [fst snd startTimingTask numTasks currentTask startTime totalTaskTimes wallReadings pred].
  split; [|reflexivity]. split; [exact Hn|].
  unfold closeTaskWindow. destruct (currentTask t) as [c|].
  - destruct Hcur as (Hc & Hw & Hst & Hsum).
    replace ((0 <=? c) && (c <? numTasks t)) with true
      by (symmetry; apply andb_true_iff; split; [apply Z.leb_le|apply Z.ltb_lt]; lia).
    destruct (addTaskTime_spec (Z.to_nat c) (wallClock X (wallReadings p) - startTime t)
                (totalTaskTimes t)) as [Hl Hs].
    rewrite Hl, Hs by lia. repeat split; try lia; auto.
  - destruct Hcur as (Hw & Hsum). rewrite Hw. repeat split; auto; lia.
Qed.

Lemma timeTasks_timing slots taskIds : forall t (p : Process X),
  timing slots t p -> Forall (fun taskId => 0 <= taskId < slots) taskIds ->
  timing slots (fst (timeTasks X taskIds t p)) (snd (timeTasks X taskIds t p)) /\
  (currentTask t <> None -> currentTask (fst (timeTasks X taskIds t p)) <> None).
Proof.
  induction taskIds as [|i rest IH]; intros t p Ht Hids; cbn [timeTasks].
  - split; [exact Ht|auto].
  - inversion Hids as [|? ? Hi Hrest]; subst.
    destruct (timeTask_timing slots i t p Ht Hi) as [Ht' Hc].
    destruct (timeTask X i t p) as [t' p']. cbn [fst snd] in *.
    destruct (IH t' p' Ht' Hrest) as [Ht'' Hc'']. split; [exact Ht''|].
    intros _. apply Hc''. congruence.
Qed.

Lemma chainPositions_valid (chain : PluginChain) :
  Forall (fun taskId => 0 <= taskId < numPlugins chain + 1) (chainPositions chain).
Proof.
  unfold chainPositions, numPlugins. apply Forall_forall. intros i Hi.
  apply in_map_iff in Hi. destruct Hi as (k & <- & Hk). apply in_seq in Hk. lia.
Qed.

Lemma processPluginChainMidiEvents_timing chain events t (p : Process X) :
  timing (numPlugins chain + 1) t p -> currentTask t <> None ->
  timing (numPlugins chain + 1)
    (fst (processPluginChainMidiEvents X chain events t p))
    (snd (processPluginChainMidiEvents X chain events t p)) /\
  currentTask (fst (processPluginChainMidiEvents X chain events t p)) <> None.
Proof.
  intros Ht Hc. unfold processPluginChainMidiEvents.
  assert (Ht' : timing (numPlugins chain + 1) t
                  (record X (ProcessPluginChainMidiEvents events) p))
    by (now apply (timing_same_readings _ _ p)).
  destruct (plugins chain) as [|h rest] eqn:E; [now split|].
  destruct (PluginType_eqb _ _); [|now split].
  destruct (timeTask_timing _ 0 t _ Ht') as [H1 H2].
  - unfold numPlugins. lia.
  - split; [exact H1|congruence].
Qed.

Lemma processPluginChainAudio_timing chain t (p : Process X) :
  timing (numPlugins chain + 1) t p -> currentTask t <> None ->
  timing (numPlugins chain + 1)
    (fst (processPluginChainAudio X chain t p))
    (snd (processPluginChainAudio X chain t p)) /\
  currentTask (fst (processPluginChainAudio X chain t p)) <> None.
Proof.
  intros Ht Hc. unfold processPluginChainAudio.
  destruct (timeTasks_timing (numPlugins chain + 1) (chainPositions chain) t
              (record X ProcessPluginChainAudio p)) as [H1 H2].
  - now apply (timing_same_readings _ _ p).
  - apply chainPositions_valid.
  - split; auto.
Qed.

Lemma blockMidi_timing (l : Locals X) finished t p :
  hostTaskId l = numPlugins (pluginChain l) ->
  timing (numPlugins (pluginChain l) + 1) t p -> currentTask t <> None ->
  timing (numPlugins (pluginChain l) + 1)
    (snd (fst (blockMidi X l finished t p))) (snd (blockMidi X l finished t p)) /\
  currentTask (snd (fst (blockMidi X l finished t p))) <> None.
Proof.
  intros Hh Ht Hc. unfold blockMidi.
  destruct (midiSequence l) as [sequence|]; [|now split].
  destruct (fillMidiEventsFromRange X sequence _ _) as [more events].
  set (p1 := record X _ p).
  assert (Ht1 : timing (numPlugins (pluginChain l) + 1) t p1)
    by (now apply (timing_same_readings _ _ p)).
  destruct (processPluginChainMidiEvents_timing (pluginChain l) events t p1 Ht1 Hc)
    as [Ht2 Hc2].
  destruct (processPluginChainMidiEvents X (pluginChain l) events t p1) as [t2 p2].
  cbn [fst snd] in *.
  destruct (timeTask_timing _ (hostTaskId l) t2 p2 Ht2) as [Ht3 Hc3].
  - rewrite Hh. unfold numPlugins. lia.
  - destruct (timeTask X (hostTaskId l) t2 p2) as [t3 p3]. cbn [fst snd] in *.
    split; [exact Ht3|congruence].
Qed.

(** A block keeps the timer's account: when it ends a window is open, and
    the slots add up to the time since the first reading. *)
Lemma block_timing (l : Locals X) p :
  hostTaskId l = numPlugins (pluginChain l) ->
  timing (numPlugins (pluginChain l) + 1) (taskTimer l) p ->
  timing (numPlugins (pluginChain l) + 1)
    (taskTimer (fst (block X l p))) (snd (block X l p)) /\
  currentTask (taskTimer (fst (block X l p))) <> None.
Proof.
  intros Hh Ht. unfold block.
  assert (Hhost : 0 <= hostTaskId l < numPlugins (pluginChain l) + 1)
    by (rewrite Hh; unfold numPlugins; lia).
  destruct (timeTask_timing _ (hostTaskId l) (taskTimer l) p Ht Hhost) as [Ht1 Hc1].
  destruct (timeTask X (hostTaskId l) (taskTimer l) p) as [t1 p1]. cbn [fst snd] in *.
  destruct (readSampleBlock X (inputSource l) (inputSampleBuffer l)) as [[ok frames] input].
  set (p2 := record X (ReadSampleBlock frames ok) p1).
  assert (Ht2 : timing (numPlugins (pluginChain l) + 1) t1 p2)
    by (now apply (timing_same_readings _ _ p1)).
  destruct (blockMidi_timing l (negb ok) t1 p2 Hh Ht2) as [Ht3 Hc3]; [congruence|].
  destruct (blockMidi X l (negb ok) t1 p2) as [[finished t3] p3]. cbn [fst snd] in *.
  destruct (processPluginChainAudio_timing (pluginChain l) t3 p3 Ht3 Hc3) as [Ht4 Hc4].
  destruct (processPluginChainAudio X (pluginChain l) t3 p3) as [t4 p4]. cbn [fst snd] in *.
  destruct (timeTask_timing _ (hostTaskId l) t4 p4 Ht4 Hhost) as [Ht5 Hc5].
  destruct (timeTask X (hostTaskId l) t4 p4) as [t5 p5].
  cbn [fst snd taskTimer] in *.
  split; [|congruence].
  now apply (timing_same_readings _ _ p5).
Qed.

Lemma afterBlocks_timing n (l : Locals X) p :
  hostTaskId l = numPlugins (pluginChain l) ->
  timing (numPlugins (pluginChain l) + 1) (taskTimer l) p ->
  timing (numPlugins (pluginChain l) + 1)
    (taskTimer (fst (afterBlocks n l p))) (snd (afterBlocks n l p)) /\
  ((0 < n)%nat -> currentTask (taskTimer (fst (afterBlocks n l p))) <> None).
Proof.
  intros Hh Ht. induction n as [|n [IH _]].
  - split; [exact Ht|lia].
  - rewrite afterBlocks_S.
    destruct (afterBlocks_constants X n l p) as (Hc & _ & _ & _ & _ & Hh').
    destruct (block_timing (fst (afterBlocks n l p)) (snd (afterBlocks n l p))) as [H1 H2].
    + now rewrite Hh', Hc.
    + now rewrite Hc.
    + rewrite Hc in H1. split; [exact H1|auto].
Qed.

Lemma newTaskTimer_timing n (p : Process X) :
  0 <= n -> wallReadings p = O -> timing n (newTaskTimer n) p.
Proof.
  intros Hn Hw. unfold timing, newTaskTimer. cbn.
  rewrite repeat_length. repeat split; auto.
  induction (Z.to_nat n) as [|k IH]; cbn; [reflexivity|]. now rewrite IH.
Qed.

(** Stopping the timer closes the open window: the slots add up to the
    time from the first reading of the wall clock to this one. *)
Lemma stopTiming_total slots t (p : Process X) :
  timing slots t p -> currentTask t <> None ->
  numTasks (stopTiming (wallClock X (wallReadings p)) t) = slots /\
  List.length (totalTaskTimes (stopTiming (wallClock X (wallReadings p)) t))
  = Z.to_nat slots /\
  sumTaskTimes (totalTaskTimes (stopTiming (wallClock X (wallReadings p)) t))
  = wallClock X (wallReadings p) - wallClock X 0.
Proof.
  intros (Hn & Hlen & Hcur) Hc. unfold stopTiming, closeTaskWindow.
  cbn [numTasks totalTaskTimes]. destruct (currentTask t) as [c|]; [|congruence].
  destruct Hcur as (Hid & Hw & Hst & Hsum).
  replace ((0 <=? c) && (c <? numTasks t)) with true
    by (symmetry; apply andb_true_iff; split; [apply Z.leb_le|apply Z.ltb_lt]; lia).
  destruct (addTaskTime_spec (Z.to_nat c) (wallClock X (wallReadings p) - startTime t)
              (totalTaskTimes t)) as [Hl Hs].
  rewrite Hl, Hs by lia. repeat split; auto; lia.
Qed.

End TimerFacts.

(** The loop of lines 246-249 adds up the slots, modulo the range of
    [unsigned long]. *)
Lemma totalProcessingTime_sum t :
  List.length (totalTaskTimes t) = Z.to_nat (numTasks t) ->
  totalProcessingTime t = sumTaskTimes (totalTaskTimes t) mod ULONG_MODULUS.
Proof.
  unfold totalProcessingTime. intros <-.
  assert (H : forall times skipped acc,
            fold_left (fun total i => (total + nth i (skipped ++ times) 0) mod ULONG_MODULUS)
              (seq (List.length skipped) (List.length times)) (acc mod ULONG_MODULUS)
            = (acc + sumTaskTimes times) mod ULONG_MODULUS).
  { induction times as [|x rest IH]; intros skipped acc; cbn [List.length seq fold_left].
    - cbn. f_equal. lia.
    - rewrite app_nth2, Nat.sub_diag by lia. cbn [nth].
      rewrite Z.add_mod_idemp_l by (unfold ULONG_MODULUS; lia).
      replace (skipped ++ x :: rest) with ((skipped ++ [x]) ++ rest)
        by (now rewrite <- app_assoc).
      replace (S (List.length skipped)) with (List.length (skipped ++ [x]))
        by (rewrite length_app; cbn; lia).
      rewrite IH. cbn [sumTaskTimes fold_right]. f_equal. unfold sumTaskTimes. lia. }
  specialize (H (totalTaskTimes t) [] 0). cbn [app List.length] in H.
  rewrite Z.mod_0_l in H by (unfold ULONG_MODULUS; lia). exact H.
Qed.

(** C7. The task timer is made with [numPlugins + 1] slots and keeps that
    number through every block; its last slot is the host's; in a run that
    returns from the loop, the slots add up to the time measured from the
    first reading of the wall clock, at the start of the first block, to the
    last, when the timer is stopped; and while that time fits an
    [unsigned long], it is the total the report logs. *)
Theorem task_timer_accounts_for_the_run X argv fuel (l : Locals X) p o :
  main_setup X argv (startProcess X) = (Next l, p) ->
  main X fuel argv = Some o ->
  let duration := wallClock X (pred (wallReadings (final o))) - wallClock X 0 in
  0 <= duration < ULONG_MODULUS ->
  (forall k, numTasks (taskTimer (fst (afterBlocks k l p)))
             = numPlugins (pluginChain l) + 1) /\
  hostTaskId l = numPlugins (pluginChain l) + 1 - 1 /\
  exists t,
    timer o = Some t /\
    numTasks t = numPlugins (pluginChain l) + 1 /\
    List.length (totalTaskTimes t) = Z.to_nat (numTasks t) /\
    sumTaskTimes (totalTaskTimes t) = duration /\
    totalProcessingTime t = sumTaskTimes (totalTaskTimes t) /\
    In (LogInfo Msg.totalTime [duration]) (calls (final o)).
Proof.
  intros Hs Ho duration Hrange.
  destruct (main_setup_locals X _ _ _ Hs) as (_ & _ & Ht & Hh & _).
  pose proof (main_setup_quiet X argv) as (_ & Hw & _). rewrite Hs in Hw. cbn [snd] in Hw.
  assert (Hinit : timing (numPlugins (pluginChain l) + 1) (taskTimer l) p).
  { rewrite Ht. apply newTaskTimer_timing; [unfold numPlugins; lia|exact Hw]. }
  split; [|split; [lia|]].
  - intros k. now destruct (afterBlocks_timing X k l p Hh Hinit) as [(Hn & _) _].
  - destruct (main_stopped X argv fuel l p o Hs Ho) as (n & [Hn _] & _ & (_ & Hf & Htm)).
    destruct (afterBlocks_timing X n l p Hh Hinit) as [Hinv Hopen].
    specialize (Hopen ltac:(lia)).
    set (l' := fst (afterBlocks n l p)) in *. set (p' := snd (afterBlocks n l p)) in *.
    destruct (main_report_spec X l' p') as (Ht' & _ & Hw' & logs & Hcalls & _).
    destruct (stopTiming_total X _ _ _ Hinv Hopen) as (Hnum & Hlen & Hsum).
    assert (Hd : duration = wallClock X (wallReadings p') - wallClock X 0).
    { subst duration. rewrite Hf, Hw'. reflexivity. }
    rewrite <- Hd in Hsum.
    assert (Htotal : totalProcessingTime (stopTiming (wallClock X (wallReadings p'))
                                            (taskTimer l'))
                     = duration).
    { rewrite totalProcessingTime_sum by (now rewrite Hlen, Hnum).
      rewrite Hsum. apply Z.mod_small. exact Hrange. }
    exists (fst (main_report X l' p')). split; [exact Htm|].
    rewrite Ht'. split; [exact Hnum|]. split; [now rewrite Hlen, Hnum|].
    split; [exact Hsum|]. split; [now rewrite Htotal, Hsum|].
    rewrite Hf, Hcalls, Htotal. apply in_or_app. right. right. now left.
Qed.

Lemma task_timer_accounts_for_the_run_witness :
  let X := host (Example.scenario true false true "effect"%string 1000) in
  exists o t,
    main X 4 Example.argv = Some o /\
    timer o = Some t /\
    numTasks t = 2 /\
    sumTaskTimes (totalTaskTimes t) = 120 /\
    totalProcessingTime t = sumTaskTimes (totalTaskTimes t) /\
    In (LogInfo Msg.totalTime [120]) (calls (final o)).
Proof.
  intros X.
  destruct (main_setup X Example.argv (startProcess X)) as [[l|rc] p] eqn:E;
    [|vm_compute in E; discriminate].
  destruct (main X 4 Example.argv) as [o|] eqn:Ho; [|vm_compute in Ho; discriminate].
  assert (Hn : numPlugins (pluginChain l) + 1 = 2).
  { vm_compute in E. injection E as <- _. reflexivity. }
  assert (Hd : wallClock X (pred (wallReadings (final o))) - wallClock X 0 = 120).
  { vm_compute in Ho. injection Ho as <-. reflexivity. }
  assert (Hrange : 0 <= wallClock X (pred (wallReadings (final o))) - wallClock X 0
                   < ULONG_MODULUS).
  { rewrite Hd. unfold ULONG_MODULUS. lia. }
  destruct (task_timer_accounts_for_the_run X Example.argv 4 l p o E Ho Hrange)
    as (_ & _ & t & Ht & Hnum & _ & Hsum & Htotal & Hlog).
  exists o, t. rewrite <- Hn, <- Hd. auto 10.
Defined.

(** ** Which stage ends a run *)

Section Stages.

Variable X : Collaborators.

Lemma exitsOnly_ret {A} allowed (a : A) : exitsOnly allowed (ret X a).
Proof. intros p rc p' H. discriminate. Qed.

Lemma exitsOnly_exit {A} (allowed : ReturnCode -> Prop) rc :
  allowed rc -> exitsOnly allowed (@exit X A rc).
Proof. intros H p rc' p' E. injection E as <- _. exact H. Qed.

Lemma exitsOnly_call allowed c : exitsOnly allowed (call X c).
Proof. intros p rc p' H. discriminate. Qed.

Lemma exitsOnly_withSettings allowed f : exitsOnly allowed (withSettings X f).
Proof. intros p rc p' H. discriminate. Qed.

Lemma exitsOnly_bind {A B} allowed (m : M X A) (k : A -> M X B) :
  exitsOnly allowed m -> (forall a, exitsOnly allowed (k a)) ->
  exitsOnly allowed (bind X m k).
Proof.
  intros Hm Hk p rc p' H. unfold bind in H.
  destruct (m p) as [[a|rc0] p0] eqn:E.
  - exact (Hk a p0 rc p' H).
  - injection H as <- <-. exact (Hm p rc0 p0 E).
Qed.

Lemma exitsOnly_fail {A} (allowed : ReturnCode -> Prop) msg rc :
  allowed rc -> exitsOnly allowed (@fail X A msg rc).
Proof.
  intros H. apply exitsOnly_bind; [apply exitsOnly_call|].
  intros _. now apply exitsOnly_exit.
Qed.

Ltac exits :=
  repeat match goal with
    | |- exitsOnly _ (ret _ _) => apply exitsOnly_ret
    | |- exitsOnly _ (exit _ _) => apply exitsOnly_exit; auto
    | |- exitsOnly _ (withSettings _ _) => apply exitsOnly_withSettings
    | |- exitsOnly _ (call _ _) => apply exitsOnly_call
    | |- exitsOnly _ (fail _ _ _) => apply exitsOnly_fail; auto
    | |- exitsOnly _ (bind _ _ _) => apply exitsOnly_bind; [|intros ?]
    end.

Lemma handleOption_exits option c :
  exitsOnly (fun rc => rc = RETURN_CODE_INVALID_PLUGIN_CHAIN) (handleOption X option c).
Proof.
  unfold handleOption. destruct (enabled option); [|exits].
  destruct (index option); exits.
  destruct (addPluginsFromArgumentString X _ _); exits.
Qed.

Lemma handleOptions_exits programOptions indices : forall c,
  exitsOnly (fun rc => rc = RETURN_CODE_INVALID_PLUGIN_CHAIN)
    (handleOptions X programOptions indices c).
Proof.
  induction indices as [|i rest IH]; intros c; cbn [handleOptions]; exits.
  - apply handleOption_exits.
  - apply IH.
Qed.

Lemma main_chain_exits c :
  exitsOnly (fun rc => rc = RETURN_CODE_MISSING_REQUIRED_OPTION
                       \/ rc = RETURN_CODE_PLUGIN_ERROR) (main_chain X c).
Proof.
  unfold main_chain. destruct (_ =? _); exits.
  destruct (negb _); exits. destruct (cfgDisplayPluginInfo X c); exits.
Qed.

Lemma main_sources_exits c :
  exitsOnly (fun rc => rc = RETURN_CODE_MISSING_REQUIRED_OPTION) (main_sources X c).
Proof.
  unfold main_sources.
  destruct (cfgOutputSource X c); exits.
  destruct (cfgInputSource X c); exits.
  destruct (plugins _) as [|headPlugin ?]; exits.
  destruct (PluginType_eqb _ _); exits.
  destruct (cfgMidiSource X c); exits.
Qed.

Lemma main_open_exits c sources :
  exitsOnly (fun rc => rc = RETURN_CODE_IO_ERROR) (main_open X c sources).
Proof.
  unfold main_open. destruct sources as [input output]. exits.
  destruct (openSampleSource X input _) as [opened input'].
  destruct (negb opened); exits.
  destruct (openSampleSource X output _) as [opened' output'].
  destruct (negb opened'); exits.
  destruct (cfgMidiSource X c) as [midiSource|]; exits.
  destruct (negb (openMidiSource X midiSource)); exits.
  destruct (readMidiEvents X midiSource) as [eventsRead sequence].
  destruct (negb eventsRead); exits.
Qed.

(** What the options stage does with a command line. *)
Lemma main_options_cases argv p :
  match parseCommandLine X argv with
  | None => main_options X argv p = (Exit RETURN_CODE_INVALID_ARGUMENT, p)
  | Some programOptions =>
      if isInfoRun programOptions argv
      then main_options X argv p
           = (Exit RETURN_CODE_NOT_RUN, record X (Printf (infoText programOptions argv)) p)
      else main_options X argv p
           = bind X (handleOptions X programOptions optionIndices (unconfigured X))
               (fun c => bind X (call X (LogInfo Msg.initialized [])) (fun _ => ret X c)) p
  end.
Proof.
  unfold main_options, isInfoRun, infoText.
  destruct (parseCommandLine X argv) as [programOptions|]; [|reflexivity].
  destruct (enabled (programOptions OPTION_HELP) || (Z.of_nat (List.length argv) =? 1));
    [reflexivity|].
  destruct (enabled (programOptions OPTION_VERSION)); [reflexivity|].
  destruct (enabled (programOptions OPTION_FILE_TYPES)); reflexivity.
Qed.

(** The stage at which a run that does not reach the loop returns. *)
Lemma main_setup_exit argv rc p :
  main_setup X argv (startProcess X) = (Exit rc, p) ->
  main_options X argv (startProcess X) = (Exit rc, p) \/
  (exists c p0,
     main_options X argv (startProcess X) = (Next c, p0) /\
     (main_chain X c p0 = (Exit rc, p) \/
      exists p1,
        main_chain X c p0 = (Next tt, p1) /\
        (main_sources X c p1 = (Exit rc, p) \/
         exists sources p2,
           main_sources X c p1 = (Next sources, p2) /\
           main_open X c sources p2 = (Exit rc, p)))).
Proof.
  unfold main_setup, bind. intros H.
  destruct (main_options X argv (startProcess X)) as [[c|rc0] p0] eqn:E0;
    cbv beta iota in H; [|left; injection H as <- <-; reflexivity].
  right. exists c, p0. split; [reflexivity|].
  destruct (main_chain X c p0) as [[[]|rc1] p1] eqn:E1;
    cbv beta iota in H; [|left; injection H as <- <-; reflexivity].
  right. exists p1. split; [reflexivity|].
  destruct (main_sources X c p1) as [[sources|rc2] p2] eqn:E2;
    cbv beta iota in H; [|left; injection H as <- <-; reflexivity].
  right. exists sources, p2. split; [reflexivity|].
  destruct (main_open X c sources p2) as [[opened|rc3] p3] eqn:E3;
    cbv beta iota in H; [|injection H as <- <-; reflexivity].
  unfold main_locals in H. destruct opened as [[i o'] m]. discriminate.
Qed.

(** A run that returns either returned from the setup, or entered the loop
    and left it after at least one block. *)
Lemma main_outcome argv fuel o :
  main X fuel argv = Some o ->
  (exists rc p,
     main_setup X argv (startProcess X) = (Exit rc, p) /\
     o = {| status := rc; final := p; timer := None |}) \/
  (exists l p n,
     main_setup X argv (startProcess X) = (Next l, p) /\
     (1 <= n <= fuel)%nat /\ stopsAfter n l p /\ ranBlocks n l p o).
Proof.
  intros Ho. destruct (main_setup X argv (startProcess X)) as [[l|rc] p] eqn:Hs.
  - right. destruct (main_stopped X argv fuel l p o Hs Ho) as (n & Hn & Hstop & Hr).
    exists l, p, n. split; [reflexivity|]. split; [exact Hn|]. split; assumption.
  - left. rewrite (main_exits X argv fuel rc p Hs) in Ho. injection Ho as <-.
    exists rc, p. auto.
Qed.


End Stages.

(** Every way a run can end, stage by stage. *)
Lemma main_ends X argv fuel o :
  main X fuel argv = Some o ->
  (parseCommandLine X argv = None /\
   o = {| status := RETURN_CODE_INVALID_ARGUMENT; final := startProcess X; timer := None |})
  \/ (exists programOptions,
        parseCommandLine X argv = Some programOptions /\
        isInfoRun programOptions argv = true /\
        o = {| status := RETURN_CODE_NOT_RUN;
               final := record X (Printf (infoText programOptions argv)) (startProcess X);
               timer := None |})
  \/ (exists programOptions p,
        parseCommandLine X argv = Some programOptions /\
        isInfoRun programOptions argv = false /\
        handleOptions X programOptions optionIndices (unconfigured X) (startProcess X)
        = (Exit RETURN_CODE_INVALID_PLUGIN_CHAIN, p) /\
        o = {| status := RETURN_CODE_INVALID_PLUGIN_CHAIN; final := p; timer := None |})
  \/ (exists c p0 rc p,
        main_options X argv (startProcess X) = (Next c, p0) /\
        main_chain X c p0 = (Exit rc, p) /\
        (rc = RETURN_CODE_MISSING_REQUIRED_OPTION \/ rc = RETURN_CODE_PLUGIN_ERROR) /\
        o = {| status := rc; final := p; timer := None |})
  \/ (exists c p0 p1 p,
        main_options X argv (startProcess X) = (Next c, p0) /\
        main_chain X c p0 = (Next tt, p1) /\
        main_sources X c p1 = (Exit RETURN_CODE_MISSING_REQUIRED_OPTION, p) /\
        o = {| status := RETURN_CODE_MISSING_REQUIRED_OPTION; final := p; timer := None |})
  \/ (exists c p0 p1 sources p2 p,
        main_options X argv (startProcess X) = (Next c, p0) /\
        main_chain X c p0 = (Next tt, p1) /\
        main_sources X c p1 = (Next sources, p2) /\
        main_open X c sources p2 = (Exit RETURN_CODE_IO_ERROR, p) /\
        o = {| status := RETURN_CODE_IO_ERROR; final := p; timer := None |})
  \/ (exists l p n,
        main_setup X argv (startProcess X) = (Next l, p) /\
        (1 <= n <= fuel)%nat /\ stopsAfter n l p /\ ranBlocks n l p o).
Proof.
  intros Ho.
  destruct (main_outcome X argv fuel o Ho) as [(rc & p & Hs & ->)|H];
    [|do 6 right; exact H].
  destruct (main_setup_exit X argv rc p Hs)
    as [H0|(c & p0 & H0 & [H1|(p1 & H1 & [H2|(sources & p2 & H2 & H3)])])].
  - pose proof (main_options_cases X argv (startProcess X)) as Hc.
    destruct (parseCommandLine X argv) as [programOptions|].
    + destruct (isInfoRun programOptions argv) eqn:Hi.
      * right; left. exists programOptions. rewrite Hc in H0. injection H0 as <- <-. auto.
      * right; right; left. rewrite Hc in H0. unfold bind at 1 in H0.
        destruct (handleOptions X programOptions optionIndices (unconfigured X)
                    (startProcess X)) as [[c|rc0] p0] eqn:E; [discriminate|].
        injection H0 as <- <-.
        pose proof (handleOptions_exits X _ _ _ _ _ _ E) as ->.
        exists programOptions, p0. auto.
    + left. rewrite Hc in H0. injection H0 as <- <-. auto.
  - do 3 right; left. exists c, p0, rc, p.
    pose proof (main_chain_exits X c p0 rc p H1). auto.
  - do 4 right; left. pose proof (main_sources_exits X c p1 rc p H2) as ->.
    exists c, p0, p1, p. auto.
  - do 5 right; left. pose proof (main_open_exits X c sources p2 rc p H3) as ->.
    exists c, p0, p1, sources, p2, p. auto 6.
Qed.

(** X1. A command line that does not parse makes [main] return the
    invalid-argument status at once, before any call is made; no other
    run returns that status. *)
Theorem invalid_argument_iff_not_parsed X fuel argv :
  (parseCommandLine X argv = None ->
   main X fuel argv
   = Some {| status := RETURN_CODE_INVALID_ARGUMENT;
             final := startProcess X; timer := None |}) /\
  (forall o, main X fuel argv = Some o ->
     status o = RETURN_CODE_INVALID_ARGUMENT -> parseCommandLine X argv = None).
Proof.
  split.
  - intros Hp. apply main_exits. unfold main_setup. unfold bind at 1.
    pose proof (main_options_cases X argv (startProcess X)) as Hc.
    rewrite Hp in Hc. now rewrite Hc.
  - intros o Ho Hst.
    destruct (main_ends X argv fuel o Ho)
      as [[Hp _]|[(? & _ & _ & ->)|[(? & ? & _ & _ & _ & ->)
         |[(? & ? & ? & ? & _ & _ & [-> | ->] & ->)|[(? & ? & ? & ? & _ & _ & _ & ->)
         |[(? & ? & ? & ? & ? & ? & _ & _ & _ & _ & ->)
         |(? & ? & ? & _ & _ & _ & (Hs & _))]]]]]];
      try exact Hp; cbn in Hst; congruence.
Qed.

Lemma invalid_argument_iff_not_parsed_witness :
  let X := host (Machine.scenario None 256 (Some 1000) true None) in
  main X 0 Example.argv
  = Some {| status := RETURN_CODE_INVALID_ARGUMENT;
            final := startProcess X; timer := None |}.
Proof.
  intros X.
  destruct (invalid_argument_iff_not_parsed X 0 Example.argv) as [H _].
  apply H. reflexivity.
Defined.

(** X2. When the command line parses and asks for the usage (or has no
    argument), the version or the file types, [main] prints that one text
    (the usage before the version, the version before the file types) and
    returns the not-run status: no option is acted on, no plugin loaded, no
    source made.  No other run returns that status. *)
Theorem info_run_does_not_run X fuel argv :
  (forall programOptions,
     parseCommandLine X argv = Some programOptions ->
     isInfoRun programOptions argv = true ->
     main X fuel argv
     = Some {| status := RETURN_CODE_NOT_RUN;
               final := record X (Printf (infoText programOptions argv)) (startProcess X);
               timer := None |}) /\
  (forall o, main X fuel argv = Some o ->
     status o = RETURN_CODE_NOT_RUN ->
     exists programOptions,
       parseCommandLine X argv = Some programOptions /\
       isInfoRun programOptions argv = true).
Proof.
  split.
  - intros programOptions Hp Hi. apply main_exits. unfold main_setup. unfold bind at 1.
    pose proof (main_options_cases X argv (startProcess X)) as Hc.
    rewrite Hp, Hi in Hc. now rewrite Hc.
  - intros o Ho Hst.
    destruct (main_ends X argv fuel o Ho)
      as [[_ ->]|[(opts & Hp & Hi & _)|[(? & ? & _ & _ & _ & ->)
         |[(? & ? & ? & ? & _ & _ & [-> | ->] & ->)|[(? & ? & ? & ? & _ & _ & _ & ->)
         |[(? & ? & ? & ? & ? & ? & _ & _ & _ & _ & ->)
         |(? & ? & ? & _ & _ & _ & (Hs & _))]]]]]];
      try (exists opts; now split); cbn in Hst; congruence.
Qed.

Lemma info_run_does_not_run_witness :
  let options := Machine.options [OPTION_HELP; OPTION_VERSION; OPTION_PLUGIN]
                   "broken"%string in
  let X := host (Machine.scenario (Some options) 256 None false None) in
  main X 0 Example.argv
  = Some {| status := RETURN_CODE_NOT_RUN;
            final := record X (Printf Msg.usage) (startProcess X);
            timer := None |}.
Proof.
  intros options X.
  destruct (info_run_does_not_run X 0 Example.argv) as [H _].
  exact (H options eq_refl eq_refl).
Defined.

Section ConfigFacts.

Variable X : Collaborators.

Ltac keeps :=
  repeat match goal with
    | |- preserves _ (ret _ _) => apply preserves_ret
    | |- preserves _ (exit _ _) => apply preserves_exit
    | |- preserves _ (call _ _) => apply preserves_call; reflexivity
    | |- preserves _ (fail _ _ _) => apply preserves_fail; reflexivity
    | |- preserves _ (bind _ _ _) => apply preserves_bind; [|intros ?]
    end.

Lemma main_chain_config c : preserves (quietProcess isConfigCall) (main_chain X c).
Proof.
  unfold main_chain.
  destruct (_ =? _); keeps.
  destruct (negb _); keeps.
  destruct (cfgDisplayPluginInfo X c); keeps.
Qed.

Lemma main_sources_config c : preserves (quietProcess isConfigCall) (main_sources X c).
Proof.
  unfold main_sources.
  destruct (cfgOutputSource X c); keeps.
  destruct (cfgInputSource X c); keeps.
  destruct (plugins _) as [|headPlugin ?]; keeps.
  destruct (PluginType_eqb _ _); keeps.
  destruct (cfgMidiSource X c); keeps.
Qed.

Lemma isOptionCall_isConfigCall c : isOptionCall c = true -> isConfigCall c = true.
Proof. destruct c; cbn; congruence. Qed.

Lemma main_options_config argv :
  quietProcess isConfigCall (snd (main_options X argv (startProcess X))).
Proof.
  apply (quiet_weaken X isOptionCall); [exact isOptionCall_isConfigCall|].
  apply main_options_quiet, startProcess_quiet.
Qed.

Lemma config_calls_no_io (p : Process X) :
  quietProcess isConfigCall p ->
  forallb (fun c => negb (isSourceIO c)) (calls p) = true.
Proof.
  intros (_ & _ & Q). rewrite forallb_forall in *. intros c Hc.
  specialize (Q c Hc). unfold isConfigCall in Q. now apply andb_true_iff in Q.
Qed.

End ConfigFacts.

(** X3. Errors of configuration touch no source: a run that returns any
    status other than success or I/O error has not opened, read or written
    a sample or MIDI source. *)
Theorem configuration_errors_touch_no_source X fuel argv o :
  main X fuel argv = Some o ->
  status o <> RETURN_CODE_SUCCESS ->
  status o <> RETURN_CODE_IO_ERROR ->
  forallb (fun c => negb (isSourceIO c)) (calls (final o)) = true.
Proof.
  intros Ho Hs Hio.
  pose proof (main_options_config X argv) as Q0.
  destruct (main_ends X argv fuel o Ho)
    as [[_ ->]|[(opts & Hp & Hi & ->)|[(opts & p & Hp & Hi & He & ->)
       |[(c & p0 & rc & p & H0 & H1 & _ & ->)|[(c & p0 & p1 & p & H0 & H1 & H2 & ->)
       |[(? & ? & ? & ? & ? & ? & _ & _ & _ & _ & ->)
       |(? & ? & ? & _ & _ & _ & (Hst & _))]]]]]]; cbn [final status] in *;
    try congruence.
  - reflexivity.
  - reflexivity.
  - apply config_calls_no_io.
    pose proof (main_options_cases X argv (startProcess X)) as Hc.
    rewrite Hp, Hi in Hc. rewrite Hc in Q0. unfold bind at 1 in Q0.
    rewrite He in Q0. exact Q0.
  - apply config_calls_no_io. rewrite H0 in Q0.
    pose proof (main_chain_config X c p0 Q0) as Q1. now rewrite H1 in Q1.
  - apply config_calls_no_io. rewrite H0 in Q0.
    pose proof (main_chain_config X c p0 Q0) as Q1. rewrite H1 in Q1.
    pose proof (main_sources_config X c p1 Q1) as Q2. now rewrite H2 in Q2.
Qed.

Lemma configuration_errors_touch_no_source_witness :
  let options := Machine.options [OPTION_INPUT_SOURCE; OPTION_MIDI_SOURCE; OPTION_PLUGIN]
                   "effect"%string in
  let X := host (Machine.scenario (Some options) 256 (Some 1000) true None) in
  exists o,
    main X 0 Example.argv = Some o /\
    status o = RETURN_CODE_MISSING_REQUIRED_OPTION /\
    forallb (fun c => negb (isSourceIO c)) (calls (final o)) = true.
Proof.
  intros options X.
  destruct (main X 0 Example.argv) as [o|] eqn:Ho; [|vm_compute in Ho; discriminate].
  assert (Hst : status o = RETURN_CODE_MISSING_REQUIRED_OPTION).
  { vm_compute in Ho. injection Ho as <-. reflexivity. }
  exists o. split; [reflexivity|]. split; [exact Hst|].
  apply (configuration_errors_touch_no_source X 0 Example.argv o Ho);
    rewrite Hst; discriminate.
Defined.



(** X5. In a run that reaches the check of the sources, the check passes
    exactly when an output source was supplied and either an input source
    was supplied or the head plugin is an instrument and a MIDI source was
    supplied; in every other case [main] returns the
    missing-required-option status without entering the loop. *)
Theorem sources_accepted_iff X argv c p0 p1 :
  main_options X argv (startProcess X) = (Next c, p0) ->
  main_chain X c p0 = (Next tt, p1) ->
  let accepted :=
    cfgOutputSource X c <> None /\
    (cfgInputSource X c <> None \/
     (exists head, hd_error (plugins (cfgPluginChain X c)) = Some head /\
                   pluginType head = PLUGIN_TYPE_INSTRUMENT) /\
     cfgMidiSource X c <> None) in
  ((exists sources p2, main_sources X c p1 = (Next sources, p2)) <-> accepted) /\
  (~ accepted ->
   forall fuel, exists o,
     main X fuel argv = Some o /\
     status o = RETURN_CODE_MISSING_REQUIRED_OPTION /\ timer o = None).
Proof.
  intros H0 H1 accepted.
  assert (Hiff : (exists sources p2, main_sources X c p1 = (Next sources, p2)) <-> accepted).
  { subst accepted. unfold main_sources, fail, bind, call, exit, ret.
    destruct (cfgOutputSource X c) as [output|].
    2:{ split; [intros (? & ? & ?); discriminate|intros [H _]; congruence]. }
    destruct (cfgInputSource X c) as [input|].
    { split; [intros _; split; [discriminate|left; discriminate]|eauto]. }
    destruct (plugins (cfgPluginChain X c)) as [|head rest]; cbn [hd_error].
    { split; [intros (? & ? & ?); discriminate|].
      intros [_ [H|[(head & Hh & _) _]]]; congruence. }
    destruct (PluginType_eqb (pluginType head) PLUGIN_TYPE_INSTRUMENT) eqn:Ht.
    - apply PluginType_eqb_eq in Ht.
      destruct (cfgMidiSource X c) as [midiSource|].
      + split; [|eauto]. intros _. split; [discriminate|]. right.
        split; [eauto|discriminate].
      + split; [intros (? & ? & ?); discriminate|].
        intros [_ [H|[_ H]]]; congruence.
    - split; [intros (? & ? & ?); discriminate|].
      intros [_ [H|[(h & Hh & Hi) _]]]; [congruence|].
      injection Hh as <-. apply PluginType_eqb_eq in Hi. congruence. }
  split; [exact Hiff|].
  intros Hno fuel.
  destruct (main_sources X c p1) as [[sources|rc] p2] eqn:E.
  - exfalso. apply Hno, Hiff. eauto.
  - pose proof (main_sources_exits X c p1 rc p2 E) as ->.
    eexists. split.
    + apply main_exits. rewrite (main_setup_from_sources X argv c p0 p1 H0 H1).
      unfold bind at 1. rewrite E. reflexivity.
    + split; reflexivity.
Qed.

Lemma sources_accepted_iff_witness :
  let options := Machine.options [OPTION_OUTPUT_SOURCE; OPTION_MIDI_SOURCE; OPTION_PLUGIN]
                   "effect"%string in
  let X := host (Machine.scenario (Some options) 256 (Some 1000) true (Some [])) in
  exists o,
    main X 0 Example.argv = Some o /\
    status o = RETURN_CODE_MISSING_REQUIRED_OPTION /\ timer o = None.
Proof.
  intros options X.
  destruct (main_options X Example.argv (startProcess X)) as [[c|rc] p0] eqn:E0;
    [|vm_compute in E0; discriminate].
  destruct (main_chain X c p0) as [[[]|rc] p1] eqn:E1;
    [|vm_compute in E0; injection E0 as <- <-; vm_compute in E1; discriminate].
  destruct (sources_accepted_iff X Example.argv c p0 p1 E0 E1) as [_ H].
  apply H. intros [_ [Hin|[(head & Hh & Hi) _]]].
  - vm_compute in E0. injection E0 as <- _. now apply Hin.
  - vm_compute in E0. injection E0 as <- _. cbn in Hh. injection Hh as <-. discriminate.
Defined.

(** X6. The output source is checked before the input source, and the
    plugin information is displayed before either: a run that reaches the
    check with an initialised chain and no output source returns the
    missing-required-option status with the message about the output
    source, whatever the input source, MIDI source and head plugin are,
    after displaying the plugin information if that was asked for. *)
Theorem missing_output_source X argv c p0 :
  main_options X argv (startProcess X) = (Next c, p0) ->
  numPlugins (cfgPluginChain X c) <> 0 ->
  initializePluginChain X (cfgPluginChain X c) = true ->
  cfgOutputSource X c = None ->
  forall fuel, exists o,
    main X fuel argv = Some o /\
    status o = RETURN_CODE_MISSING_REQUIRED_OPTION /\
    calls (final o)
    = calls p0 ++ InitializePluginChain
        :: (if cfgDisplayPluginInfo X c then [DisplayPluginInfo] else [])
        ++ [LogError Msg.noOutput].
Proof.
  intros H0 Hn Hi Hout fuel. apply Z.eqb_neq in Hn.
  set (p1 := if cfgDisplayPluginInfo X c
             then record X DisplayPluginInfo (record X InitializePluginChain p0)
             else record X InitializePluginChain p0).
  assert (H1 : main_chain X c p0 = (Next tt, p1)).
  { unfold main_chain. rewrite Hn. unfold bind at 1. cbn [call]. rewrite Hi.
    subst p1. cbn [negb]. now destruct (cfgDisplayPluginInfo X c). }
  eexists. split.
  - apply main_exits. rewrite (main_setup_from_sources X argv c p0 p1 H0 H1).
    unfold bind at 1. unfold main_sources. rewrite Hout. reflexivity.
  - cbn [status final]. split; [reflexivity|].
    subst p1. destruct (cfgDisplayPluginInfo X c); cbn;
      repeat rewrite <- app_assoc; reflexivity.
Qed.

Lemma missing_output_source_witness :
  let options := Machine.options [OPTION_DISPLAY_INFO; OPTION_INPUT_SOURCE; OPTION_PLUGIN]
                   "instrument"%string in
  let X := host (Machine.scenario (Some options) 256 (Some 1000) true None) in
  exists o,
    main X 0 Example.argv = Some o /\
    status o = RETURN_CODE_MISSING_REQUIRED_OPTION /\
    exists before,
      calls (final o)
      = before ++ [InitializePluginChain; DisplayPluginInfo; LogError Msg.noOutput].
Proof.
  intros options X.
  destruct (main_options X Example.argv (startProcess X)) as [[c|rc] p0] eqn:E0;
    [|vm_compute in E0; discriminate].
  assert (H : numPlugins (cfgPluginChain X c) <> 0 /\
              initializePluginChain X (cfgPluginChain X c) = true /\
              cfgOutputSource X c = None /\ cfgDisplayPluginInfo X c = true).
  { vm_compute in E0. injection E0 as <- _. repeat split. discriminate. }
  destruct H as (Hn & Hi & Hout & Hd).
  destruct (missing_output_source X Example.argv c p0 E0 Hn Hi Hout 0%nat)
    as (o & Ho & Hst & Hc).
  exists o. split; [exact Ho|]. split; [exact Hst|].
  exists (calls p0). rewrite Hc, Hd. reflexivity.
Defined.

(** X7. [main] returns the plugin-error status exactly when the command
    line was taken in with a chain that is not empty and that
    [initializePluginChain] fails to initialise; the error is then logged
    right after that call: no plugin information is displayed and no
    source is checked. *)
Theorem plugin_error_iff X fuel argv :
  (forall c p0,
     main_options X argv (startProcess X) = (Next c, p0) ->
     numPlugins (cfgPluginChain X c) <> 0 ->
     initializePluginChain X (cfgPluginChain X c) = false ->
     exists o,
       main X fuel argv = Some o /\
       status o = RETURN_CODE_PLUGIN_ERROR /\
       calls (final o)
       = calls p0 ++ [InitializePluginChain; LogError Msg.chainNotInitialized]) /\
  (forall o, main X fuel argv = Some o ->
     status o = RETURN_CODE_PLUGIN_ERROR ->
     exists c p0,
       main_options X argv (startProcess X) = (Next c, p0) /\
       numPlugins (cfgPluginChain X c) <> 0 /\
       initializePluginChain X (cfgPluginChain X c) = false).
Proof.
  split.
  - intros c p0 H0 Hn Hi. apply Z.eqb_neq in Hn. eexists. split.
    + apply main_exits. unfold main_setup. unfold bind at 1. rewrite H0.
      unfold bind at 1. unfold main_chain. rewrite Hn. unfold bind at 1. cbn [call].
      rewrite Hi. reflexivity.
    + cbn. split; [reflexivity|]. now rewrite <- app_assoc.
  - intros o Ho Hst.
    destruct (main_ends X argv fuel o Ho)
      as [[_ ->]|[(? & _ & _ & ->)|[(? & ? & _ & _ & _ & ->)
         |[(c & p0 & rc & p & H0 & H1 & _ & ->)|[(? & ? & ? & ? & _ & _ & _ & ->)
         |[(? & ? & ? & ? & ? & ? & _ & _ & _ & _ & ->)
         |(? & ? & ? & _ & _ & _ & (Hs & _))]]]]]];
      cbn [status] in Hst; try congruence.
    subst rc. exists c, p0. split; [exact H0|].
    unfold main_chain, fail, bind, call, exit, ret in H1.
    destruct (Z.eqb_spec (numPlugins (cfgPluginChain X c)) 0) as [Hz|Hz];
      [discriminate|].
    split; [exact Hz|].
    destruct (initializePluginChain X (cfgPluginChain X c)); [|reflexivity].
    cbn in H1. destruct (cfgDisplayPluginInfo X c); discriminate.
Qed.

Lemma plugin_error_iff_witness :
  let broken : Plugin :=
    {| pluginType := PLUGIN_TYPE_VST_2X; pluginName := "broken"%string;
       open := fun _ => false; process := fun buffer => buffer |} in
  let X := host {| Model.parse := fun _ =>
                     Some (Machine.options [OPTION_OUTPUT_SOURCE; OPTION_PLUGIN] "x"%string);
                   Model.number := fun _ => 256;
                   Model.defaultBlocksize := 512;
                   Model.defaultNumChannels := 2;
                   Model.audioFile := fun _ => None;
                   Model.creatable := fun _ => true;
                   Model.midiFile := fun _ => None;
                   Model.pluginsNamed := fun _ => Some [Example.effect; broken];
                   Model.clock := fun n => Z.of_nat n |} in
  exists o,
    main X 0 Example.argv = Some o /\
    status o = RETURN_CODE_PLUGIN_ERROR /\
    forallb (fun c => negb (isSourceIO c)) (calls (final o)) = true.
Proof.
  intros broken X.
  destruct (main_options X Example.argv (startProcess X)) as [[c|rc] p0] eqn:E0;
    [|vm_compute in E0; discriminate].
  assert (H : numPlugins (cfgPluginChain X c) <> 0 /\
              initializePluginChain X (cfgPluginChain X c) = false).
  { vm_compute in E0. injection E0 as <- _. split; [discriminate|reflexivity]. }
  destruct H as (Hn & Hi).
  destruct (plugin_error_iff X 0 Example.argv) as [H _].
  destruct (H c p0 E0 Hn Hi) as (o & Ho & Hst & Hc).
  exists o. split; [exact Ho|]. split; [exact Hst|].
  rewrite Hc. vm_compute in E0. injection E0 as _ <-. reflexivity.
Defined.

(** ** Opening the sources (lines 184-206) *)

(** What opening does, case by case. *)
Lemma main_open_cases X c input output (p : Process X) :
  let read := openSampleSource X input SAMPLE_SOURCE_OPEN_READ in
  let write := openSampleSource X output SAMPLE_SOURCE_OPEN_WRITE in
  let p1 := record X (OpenSampleSource SAMPLE_SOURCE_OPEN_READ) p in
  let p2 := record X (OpenSampleSource SAMPLE_SOURCE_OPEN_WRITE) p1 in
  main_open X c (input, output) p
  = if negb (fst read)
    then (Exit RETURN_CODE_IO_ERROR, record X (LogError Msg.inputNotOpened) p1)
    else if negb (fst write)
    then (Exit RETURN_CODE_IO_ERROR, record X (LogError Msg.outputNotOpened) p2)
    else
      match cfgMidiSource X c with
      | None => (Next (snd read, snd write, None), p2)
      | Some midiSource =>
          let p3 := record X OpenMidiSource p2 in
          let p4 := record X ReadMidiEvents p3 in
          if negb (openMidiSource X midiSource)
          then (Exit RETURN_CODE_IO_ERROR, record X (LogError Msg.midiNotOpened) p3)
          else if negb (fst (readMidiEvents X midiSource))
          then (Exit RETURN_CODE_IO_ERROR, record X (LogWarn Msg.midiNotRead) p4)
          else (Next (snd read, snd write, Some (snd (readMidiEvents X midiSource))), p4)
      end.
Proof.
  cbv zeta. unfold main_open, fail, bind, call, exit, ret.
  destruct (openSampleSource X input _) as [[] input']; cbn [fst snd negb]; [|reflexivity].
  destruct (openSampleSource X output _) as [[] output']; cbn [fst snd negb]; [|reflexivity].
  destruct (cfgMidiSource X c) as [midiSource|]; [|reflexivity].
  destruct (openMidiSource X midiSource); cbn [negb]; [|reflexivity].
  destruct (readMidiEvents X midiSource) as [[] sequence]; reflexivity.
Qed.

Lemma filter_none {A} (f : A -> bool) (xs : list A) :
  (forall x, In x xs -> f x = false) -> filter f xs = [].
Proof.
  induction xs as [|x xs IH]; intros H; cbn [filter]; [reflexivity|].
  rewrite (H x (or_introl eq_refl)). apply IH. intros y Hy. apply H. now right.
Qed.

Lemma config_calls_no_opening X (p : Process X) :
  quietProcess isConfigCall p -> filter isOpening (calls p) = [].
Proof.
  intros (_ & _ & Q). apply filter_none. intros c Hc.
  rewrite forallb_forall in Q. specialize (Q c Hc). destruct c; cbn in *; congruence.
Qed.

Lemma outside_loop_no_opening cs :
  forallb isBlockCall cs = true \/ forallb isLogInfo cs = true ->
  filter isOpening cs = [].
Proof.
  intros H. apply filter_none. intros c Hc.
  destruct H as [H|H]; rewrite forallb_forall in H; specialize (H c Hc);
    destruct c; cbn in *; congruence.
Qed.

Lemma blockCalls_all X (l : Locals X) p : forallb isBlockCall (blockCalls l p) = true.
Proof.
  unfold blockCalls, midiCalls.
  destruct (readSampleBlock X _ _) as [[result frames] input].
  destruct (midiSequence l) as [sequence|]; [|reflexivity].
  now destruct (fillMidiEventsFromRange X sequence _ _).
Qed.

Lemma loopCalls_all X n (l : Locals X) p : forallb isBlockCall (loopCalls n l p) = true.
Proof.
  unfold loopCalls. induction n as [|n IH]; [reflexivity|].
  rewrite seq_S, flat_map_app, forallb_app, IH. cbn [flat_map Nat.add].
  now rewrite app_nil_r, blockCalls_all.
Qed.

(** The calls of a whole run that went through the loop. *)
Lemma ranBlocks_all_calls X n (l : Locals X) p o :
  ranBlocks n l p o ->
  exists total logs,
    calls (final o)
    = calls p ++ loopCalls n l p ++ StopAudioClock :: LogInfo Msg.totalTime [total] :: logs /\
    forallb isLogInfo logs = true.
Proof.
  intros (_ & Hf & _).
  destruct (main_report_spec X (fst (afterBlocks n l p)) (snd (afterBlocks n l p)))
    as (_ & _ & _ & logs & Hc & Hl).
  eexists _, logs. rewrite Hf, Hc, afterBlocks_calls, <- app_assoc. auto.
Qed.

(** The openings a run makes up to the loop. *)
Lemma setup_openings X argv l p :
  main_setup X argv (startProcess X) = (Next l, p) ->
  filter isOpening (calls p) = firstn 2 openings \/
  filter isOpening (calls p) = firstn 4 openings.
Proof.
  intros Hs. destruct (main_setup_stages X _ _ _ Hs)
    as (c & p0 & p1 & [input output] & p2 & opened & p3 & H0 & H1 & H2 & H3 & H4).
  pose proof (main_options_config X argv) as Q0. rewrite H0 in Q0.
  pose proof (main_chain_config X c p0 Q0) as Q1. rewrite H1 in Q1.
  pose proof (main_sources_config X c p1 Q1) as Q2. rewrite H2 in Q2. cbn [snd] in Q2.
  apply config_calls_no_opening in Q2.
  unfold main_locals in H4. destruct opened as [[i o'] m]. injection H4 as _ <-.
  rewrite main_open_cases in H3. cbv zeta in H3.
  destruct (negb (fst (openSampleSource X input _))); [discriminate|].
  destruct (negb (fst (openSampleSource X output _))); [discriminate|].
  destruct (cfgMidiSource X c) as [midiSource|].
  - destruct (negb (openMidiSource X midiSource)); [discriminate|].
    destruct (negb (fst (readMidiEvents X midiSource))); [discriminate|].
    injection H3 as _ _ _ <-. right. cbn [record calls].
    rewrite !filter_app, Q2. reflexivity.
  - injection H3 as _ _ _ <-. left. cbn [record calls].
    rewrite !filter_app, Q2. reflexivity.
Qed.

(** X8. The sources are opened in one order, each at most once: the input
    for reading, the output for writing, the MIDI source, whose events are
    then loaded; a source is only opened after those before it, and the
    loop is only entered after the input and the output were opened.  In
    every run that returns, the opening calls made are a prefix of that
    sequence. *)
Theorem sources_open_in_order X fuel argv o :
  main X fuel argv = Some o ->
  exists k,
    filter isOpening (calls (final o)) = firstn k openings /\
    (status o = RETURN_CODE_SUCCESS -> (2 <= k)%nat) /\
    (status o = RETURN_CODE_IO_ERROR -> (1 <= k)%nat) /\
    (status o <> RETURN_CODE_SUCCESS -> status o <> RETURN_CODE_IO_ERROR -> k = O).
Proof.
  intros Ho.
  pose proof (main_options_config X argv) as Q0.
  destruct (main_ends X argv fuel o Ho)
    as [[_ ->]|[(opts & Hp & Hi & ->)|[(opts & p & Hp & Hi & He & ->)
       |[(c & p0 & rc & p & H0 & H1 & Hrc & ->)|[(c & p0 & p1 & p & H0 & H1 & H2 & ->)
       |[(c & p0 & p1 & [input output] & p2 & p & H0 & H1 & H2 & H3 & ->)
       |(l & p & n & Hs & _ & _ & Hr)]]]]]]; cbn [final status].
  - exists O. repeat split; try reflexivity; discriminate.
  - exists O. repeat split; try reflexivity; discriminate.
  - exists O. split; [|repeat split; discriminate].
    apply config_calls_no_opening.
    pose proof (main_options_cases X argv (startProcess X)) as Hc.
    rewrite Hp, Hi in Hc. rewrite Hc in Q0. unfold bind at 1 in Q0.
    now rewrite He in Q0.
  - exists O. split; [|destruct Hrc as [-> | ->]; repeat split; discriminate].
    apply config_calls_no_opening. rewrite H0 in Q0.
    pose proof (main_chain_config X c p0 Q0) as Q1. now rewrite H1 in Q1.
  - exists O. split; [|repeat split; discriminate].
    apply config_calls_no_opening. rewrite H0 in Q0.
    pose proof (main_chain_config X c p0 Q0) as Q1. rewrite H1 in Q1.
    pose proof (main_sources_config X c p1 Q1) as Q2. now rewrite H2 in Q2.
  - rewrite H0 in Q0.
    pose proof (main_chain_config X c p0 Q0) as Q1. rewrite H1 in Q1.
    pose proof (main_sources_config X c p1 Q1) as Q2. rewrite H2 in Q2. cbn [snd] in Q2.
    apply config_calls_no_opening in Q2.
    rewrite main_open_cases in H3. cbv zeta in H3.
    destruct (negb (fst (openSampleSource X input _))).
    { injection H3 as <-. exists 1%nat. cbn [record calls].
      rewrite !filter_app, Q2. repeat split; try discriminate; try lia; congruence. }
    destruct (negb (fst (openSampleSource X output _))).
    { injection H3 as <-. exists 2%nat. cbn [record calls].
      rewrite !filter_app, Q2. repeat split; try discriminate; try lia; congruence. }
    destruct (cfgMidiSource X c) as [midiSource|]; [|discriminate].
    destruct (negb (openMidiSource X midiSource)).
    { injection H3 as <-. exists 3%nat. cbn [record calls].
      rewrite !filter_app, Q2. repeat split; try discriminate; try lia; congruence. }
    destruct (negb (fst (readMidiEvents X midiSource))); [|discriminate].
    injection H3 as <-. exists 4%nat. cbn [record calls].
    rewrite !filter_app, Q2. repeat split; try discriminate; try lia; congruence.
  - destruct (ranBlocks_all_calls X n l p o Hr) as (total & logs & -> & Hl).
    destruct Hr as (Hst & _).
    change (StopAudioClock :: LogInfo Msg.totalTime [total] :: logs)
      with ([StopAudioClock; LogInfo Msg.totalTime [total]] ++ logs).
    rewrite !filter_app.
    rewrite (outside_loop_no_opening (loopCalls n l p)) by (left; apply loopCalls_all).
    rewrite (outside_loop_no_opening logs) by now right.
    cbn [filter isOpening]. rewrite !app_nil_r.
    destruct (setup_openings X argv l p Hs) as [-> | ->]; [exists 2%nat|exists 4%nat];
      repeat split; try lia; congruence.
Qed.

Lemma sources_open_in_order_witness :
  let options := Machine.options
                   [OPTION_INPUT_SOURCE; OPTION_OUTPUT_SOURCE; OPTION_MIDI_SOURCE;
                    OPTION_PLUGIN] "effect"%string in
  let X := host (Machine.scenario (Some options) 256 (Some 1000) true None) in
  exists o k,
    main X 0 Example.argv = Some o /\
    status o = RETURN_CODE_IO_ERROR /\
    filter isOpening (calls (final o)) = firstn k openings /\ (1 <= k)%nat.
Proof.
  intros options X.
  destruct (main X 0 Example.argv) as [o|] eqn:Ho; [|vm_compute in Ho; discriminate].
  assert (Hst : status o = RETURN_CODE_IO_ERROR).
  { vm_compute in Ho. injection Ho as <-. reflexivity. }
  destruct (sources_open_in_order X 0 Example.argv o Ho) as (k & Hk & _ & Hio & _).
  exists o, k. split; [reflexivity|]. split; [exact Hst|]. split; [exact Hk|].
  exact (Hio Hst).
Defined.

(** X9. When the input source cannot be opened the output source is left
    alone: [main] logs the failure and returns the I/O error status right
    after the failed call, without opening the output or the MIDI
    source. *)
Theorem failed_input_leaves_output_untouched X argv c p0 p1 input output p2 :
  main_options X argv (startProcess X) = (Next c, p0) ->
  main_chain X c p0 = (Next tt, p1) ->
  main_sources X c p1 = (Next (input, output), p2) ->
  fst (openSampleSource X input SAMPLE_SOURCE_OPEN_READ) = false ->
  forall fuel, exists o,
    main X fuel argv = Some o /\
    status o = RETURN_CODE_IO_ERROR /\
    calls (final o)
    = calls p2 ++ [OpenSampleSource SAMPLE_SOURCE_OPEN_READ; LogError Msg.inputNotOpened] /\
    filter isOpening (calls (final o)) = [OpenSampleSource SAMPLE_SOURCE_OPEN_READ].
Proof.
  intros H0 H1 H2 Hopen fuel.
  pose proof (main_options_config X argv) as Q0. rewrite H0 in Q0.
  pose proof (main_chain_config X c p0 Q0) as Q1. rewrite H1 in Q1.
  pose proof (main_sources_config X c p1 Q1) as Q2. rewrite H2 in Q2. cbn [snd] in Q2.
  apply config_calls_no_opening in Q2.
  eexists. split.
  - apply main_exits. rewrite (main_setup_from_sources X argv c p0 p1 H0 H1).
    unfold bind at 1. rewrite H2. unfold bind at 1.
    rewrite main_open_cases. cbv zeta. rewrite Hopen. reflexivity.
  - cbn [status final record calls]. split; [reflexivity|].
    rewrite <- app_assoc. split; [reflexivity|].
    rewrite filter_app, Q2. reflexivity.
Qed.

Lemma failed_input_leaves_output_untouched_witness :
  let options := Machine.options [OPTION_INPUT_SOURCE; OPTION_OUTPUT_SOURCE; OPTION_PLUGIN]
                   "effect"%string in
  let X := host (Machine.scenario (Some options) 256 None true None) in
  exists o,
    main X 0 Example.argv = Some o /\
    status o = RETURN_CODE_IO_ERROR /\
    filter isOpening (calls (final o)) = [OpenSampleSource SAMPLE_SOURCE_OPEN_READ].
Proof.
  intros options X.
  destruct (main_options X Example.argv (startProcess X)) as [[c|rc] p0] eqn:E0;
    [|vm_compute in E0; discriminate].
  destruct (main_chain X c p0) as [[[]|rc] p1] eqn:E1;
    [|vm_compute in E0; injection E0 as <- <-; vm_compute in E1; discriminate].
  destruct (main_sources X c p1) as [[[input output]|rc] p2] eqn:E2.
  2:{ vm_compute in E0; injection E0 as <- <-; vm_compute in E1; injection E1 as <-;
      vm_compute in E2; discriminate. }
  assert (Hopen : fst (openSampleSource X input SAMPLE_SOURCE_OPEN_READ) = false).
  { vm_compute in E0; injection E0 as <- <-; vm_compute in E1; injection E1 as <-;
    vm_compute in E2; injection E2 as <- _ _. reflexivity. }
  destruct (failed_input_leaves_output_untouched X Example.argv c p0 p1 input output p2
              E0 E1 E2 Hopen 0%nat) as (o & Ho & Hst & _ & Hopened).
  exists o. auto.
Defined.

(** X10. The loop has no exit but [finishedReading]: in a run without a
    MIDI sequence whose first [fuel] reads all report a full block, [main]
    has not returned after [fuel] blocks. *)
Theorem loop_goes_on_while_blocks_are_read X argv (l : Locals X) p fuel :
  main_setup X argv (startProcess X) = (Next l, p) ->
  midiSequence l = None ->
  (forall k, (k < fuel)%nat -> blockRead k l p = true) ->
  main X fuel argv = None.
Proof.
  intros Hs Hm Hreads. rewrite (main_after_setup X argv fuel l p Hs).
  destruct (main_loop X fuel l p) as [[l' p']|] eqn:E; [|reflexivity].
  exfalso.
  destruct (main_loop_stopped X fuel l p _ E) as (n & Hle & [Hn _] & _).
  destruct (main_setup_locals X _ _ _ Hs) as (F & _).
  destruct n as [|n]; [cbn in Hn; congruence|].
  rewrite (finished_without_midi X n l p Hm), Hreads in Hn by lia. discriminate.
Qed.

Lemma loop_goes_on_while_blocks_are_read_witness :
  let options := Machine.options
                   [OPTION_BLOCKSIZE; OPTION_INPUT_SOURCE; OPTION_OUTPUT_SOURCE;
                    OPTION_PLUGIN] "effect"%string in
  let X := host (Machine.scenario (Some options) 0 (Some 1000) true None) in
  main X 5 Example.argv = None.
Proof.
  intros options X.
  destruct (main_setup X Example.argv (startProcess X)) as [[l|rc] p] eqn:E;
    [|vm_compute in E; discriminate].
  apply (loop_goes_on_while_blocks_are_read X Example.argv l p 5 E).
  - vm_compute in E. injection E as <- _. reflexivity.
  - intros k Hk. vm_compute in E. injection E as <- <-.
    destruct k as [|[|[|[|[|k]]]]]; try reflexivity; lia.
Defined.

(** ** MIDI events on their way to the chain (lines 225-232) *)

Lemma dispatched_app (a b : list Call) : dispatched (a ++ b) = dispatched a ++ dispatched b.
Proof. apply flat_map_app. Qed.

Lemma outside_loop_no_dispatch cs :
  forallb (fun c => negb (isBlockCall c)) cs = true -> dispatched cs = [].
Proof.
  induction cs as [|c cs IH]; cbn [forallb]; [reflexivity|].
  intros H. apply andb_true_iff in H. destruct H as [Hc Hcs].
  specialize (IH Hcs). unfold dispatched in *. cbn [flat_map]. rewrite IH.
  destruct c; cbn in Hc |- *; try discriminate; reflexivity.
Qed.

Lemma blockCalls_dispatch X (l : Locals X) p :
  dispatched (blockCalls l p) = map snd (midiQueries (blockCalls l p)) /\
  List.length (midiQueries (blockCalls l p))
  = match midiSequence l with Some _ => 1%nat | None => O end.
Proof.
  unfold blockCalls, midiCalls.
  destruct (readSampleBlock X _ _) as [[result frames] input].
  destruct (midiSequence l) as [sequence|]; [|split; reflexivity].
  destruct (fillMidiEventsFromRange X sequence _ _); split; reflexivity.
Qed.

Lemma loopCalls_dispatch X n (l : Locals X) p :
  dispatched (loopCalls n l p) = map snd (midiQueries (loopCalls n l p)) /\
  List.length (midiQueries (loopCalls n l p))
  = match midiSequence l with Some _ => n | None => O end.
Proof.
  unfold loopCalls. induction n as [|n [IH1 IH2]].
  - split; [reflexivity|]. now destruct (midiSequence l).
  - rewrite seq_S, flat_map_app. cbn [flat_map Nat.add]. rewrite app_nil_r.
    rewrite dispatched_app, midiQueries_app, map_app, length_app, IH1, IH2.
    destruct (blockCalls_dispatch X (fst (afterBlocks n l p)) (snd (afterBlocks n l p)))
      as [-> ->].
    destruct (afterBlocks_constants X n l p) as (_ & -> & _).
    split; [reflexivity|]. destruct (midiSequence l); lia.
Qed.

(** X11. The plugin chain is handed, block by block, exactly the events the
    range query of that block returned, in the order of the queries; a run
    without a MIDI sequence makes no query and hands over nothing, a run
    with one makes one query per block read. *)
Theorem midi_events_reach_the_chain_as_queried X fuel argv o :
  main X fuel argv = Some o ->
  dispatched (calls (final o)) = map snd (midiQueries (calls (final o))) /\
  forall l p, main_setup X argv (startProcess X) = (Next l, p) ->
    List.length (midiQueries (calls (final o)))
    = match midiSequence l with
      | Some _ => count isRead (calls (final o))
      | None => O
      end.
Proof.
  intros Ho.
  destruct (main_outcome X argv fuel o Ho) as [(rc & p & Hs & ->)|(l & p & n & Hs & _ & _ & Hr)].
  - pose proof (main_setup_quiet X argv) as (_ & _ & Q). rewrite Hs in Q. cbn [snd] in Q.
    pose proof (setup_calls_outside_loop _ Q) as Q'.
    destruct (outside_loop _ Q') as (_ & Hq & _). cbn [final].
    rewrite Hq, (outside_loop_no_dispatch _ Q'). split; [reflexivity|].
    intros l' p' Hs'. congruence.
  - pose proof (main_setup_quiet X argv) as (_ & _ & Q). rewrite Hs in Q. cbn [snd] in Q.
    pose proof (setup_calls_outside_loop _ Q) as Q'.
    destruct (ranBlocks_calls X argv _ _ _ _ Hs Hr) as (_ & Hq & Hreads & _).
    destruct (ranBlocks_all_calls X n l p o Hr) as (total & logs & Hc & Hl).
    destruct (loopCalls_dispatch X n l p) as [Hd Hlen].
    split.
    + rewrite Hq, <- Hd, Hc.
      change (StopAudioClock :: LogInfo Msg.totalTime [total] :: logs)
        with ([StopAudioClock; LogInfo Msg.totalTime [total]] ++ logs).
      rewrite !dispatched_app, (outside_loop_no_dispatch _ Q'),
        (outside_loop_no_dispatch _ (logs_outside_loop _ Hl)).
      cbn. now rewrite app_nil_r.
    + intros l' p' Hs'. rewrite Hs in Hs'. injection Hs' as <- <-.
      now rewrite Hq, Hlen, Hreads.
Qed.

Lemma midi_events_reach_the_chain_as_queried_witness :
  let X := host (Example.scenario false true true "instrument"%string 0) in
  exists o,
    main X 3 Example.argv = Some o /\
    dispatched (calls (final o))
    = [[Example.event 0]; [Example.event 300]; [Example.event 600]] /\
    dispatched (calls (final o)) = map snd (midiQueries (calls (final o))).
Proof.
  intros X.
  destruct (main X 3 Example.argv) as [o|] eqn:Ho; [|vm_compute in Ho; discriminate].
  exists o. split; [reflexivity|].
  split; [vm_compute in Ho; injection Ho as <-; reflexivity|].
  now destruct (midi_events_reach_the_chain_as_queried X 3 Example.argv o Ho).
Defined.

(** ** The report (lines 243-258) *)

Section ReportFacts.

Variable X : Collaborators.

Ltac made :=
  repeat match goal with
    | |- preserves _ (ret _ _) => apply preserves_ret
    | |- preserves _ (exit _ _) => apply preserves_exit
    | |- preserves _ (withSettings _ _) => apply preserves_withSettings
    | |- preserves _ (call _ _) => apply preserves_call; reflexivity
    | |- preserves _ (fail _ _ _) => apply preserves_fail; reflexivity
    | |- preserves _ (bind _ _ _) => apply preserves_bind; [|intros ?]
    end.

Lemma handleOption_made option c :
  preserves (quietProcess madeBySetup) (handleOption X option c).
Proof.
  unfold handleOption.
  destruct (enabled option); [|made].
  destruct (index option); made.
  destruct (addPluginsFromArgumentString X _ _); made.
Qed.

Lemma handleOptions_made programOptions indices : forall c,
  preserves (quietProcess madeBySetup) (handleOptions X programOptions indices c).
Proof.
  induction indices as [|i rest IH]; intros c; cbn [handleOptions]; made.
  - apply handleOption_made.
  - apply IH.
Qed.

Lemma main_options_made argv :
  preserves (quietProcess madeBySetup) (main_options X argv).
Proof.
  unfold main_options.
  destruct (parseCommandLine X argv) as [programOptions|]; made.
  destruct (_ || _); made.
  destruct (enabled (programOptions OPTION_VERSION)); made.
  destruct (enabled (programOptions OPTION_FILE_TYPES)); made.
  apply handleOptions_made.
Qed.

Lemma main_chain_made c : preserves (quietProcess madeBySetup) (main_chain X c).
Proof.
  unfold main_chain.
  destruct (_ =? _); made.
  destruct (negb _); made.
  destruct (cfgDisplayPluginInfo X c); made.
Qed.

Lemma main_sources_made c : preserves (quietProcess madeBySetup) (main_sources X c).
Proof.
  unfold main_sources.
  destruct (cfgOutputSource X c); made.
  destruct (cfgInputSource X c); made.
  destruct (plugins _) as [|headPlugin ?]; made.
  destruct (PluginType_eqb _ _); made.
  destruct (cfgMidiSource X c); made.
Qed.

Lemma main_open_made c sources :
  preserves (quietProcess madeBySetup) (main_open X c sources).
Proof.
  unfold main_open. destruct sources as [input output]. made.
  destruct (openSampleSource X input _) as [opened input'].
  destruct (negb opened); made.
  destruct (openSampleSource X output _) as [opened' output'].
  destruct (negb opened'); made.
  destruct (cfgMidiSource X c) as [midiSource|]; made.
  destruct (negb (openMidiSource X midiSource)); made.
  destruct (readMidiEvents X midiSource) as [eventsRead sequence].
  destruct (negb eventsRead); made.
Qed.

Lemma main_locals_made c opened :
  preserves (quietProcess madeBySetup) (main_locals X c opened).
Proof.
  intros p H. unfold main_locals. destruct opened as [[input output] sequence].
  cbn [snd]. now apply quiet_record.
Qed.

(** The calls of the setup all have the shapes of [madeBySetup]. *)
Lemma main_setup_made argv :
  quietProcess madeBySetup (snd (main_setup X argv (startProcess X))).
Proof.
  unfold main_setup.
  pose proof (main_options_made argv _ (startProcess_quiet X madeBySetup)) as H0.
  unfold bind at 1.
  destruct (main_options X argv (startProcess X)) as [[c|rc] p0]; cbn [snd] in *; auto.
  revert H0. generalize p0. change (preserves (quietProcess madeBySetup)
    (bind X (main_chain X c) (fun _ => bind X (main_sources X c)
       (fun sources => bind X (main_open X c sources) (main_locals X c))))).
  made.
  - apply main_chain_made.
  - apply main_sources_made.
  - apply main_open_made.
  - apply main_locals_made.
Qed.

Lemma taskTimeLines_app (a b : list Call) :
  taskTimeLines (a ++ b) = taskTimeLines a ++ taskTimeLines b.
Proof. apply flat_map_app. Qed.

Lemma totalTimeLines_app (a b : list Call) :
  totalTimeLines (a ++ b) = totalTimeLines a ++ totalTimeLines b.
Proof. apply flat_map_app. Qed.

Lemma no_time_lines cs :
  forallb madeBySetup cs = true \/ forallb isBlockCall cs = true ->
  taskTimeLines cs = [] /\ totalTimeLines cs = [].
Proof.
  intros H. induction cs as [|c cs IH]; [split; reflexivity|].
  assert (Hc : madeBySetup c = true \/ isBlockCall c = true).
  { destruct H as [H|H]; cbn [forallb] in H; apply andb_true_iff in H; tauto. }
  assert (Hcs : forallb madeBySetup cs = true \/ forallb isBlockCall cs = true).
  { destruct H as [H|H]; cbn [forallb] in H; apply andb_true_iff in H; tauto. }
  destruct (IH Hcs) as [IH1 IH2].
  unfold taskTimeLines, totalTimeLines in *. cbn [flat_map]. rewrite IH1, IH2.
  destruct c as [| | |? [|? [|? [|? ?]]]| | | | | | | | | | | | | | |];
    cbn in Hc |- *; try (split; reflexivity); destruct Hc; discriminate.
Qed.

Lemma map_nth_all (xs : list Z) :
  map (fun i => nth i xs 0) (seq 0 (List.length xs)) = xs.
Proof.
  induction xs as [|x xs IH]; [reflexivity|].
  cbn [List.length seq map nth]. f_equal.
  rewrite <- seq_shift, map_map. exact IH.
Qed.

(** The calls of the report, in full. *)
Lemma main_report_calls (l : Locals X) p :
  let t := stopTiming (wallClock X (wallReadings p)) (taskTimer l) in
  calls (snd (main_report X l p))
  = calls p
    ++ [StopAudioClock; LogInfo Msg.totalTime [totalProcessingTime t]]
    ++ map (fun i => LogInfo Msg.taskTime [nth i (totalTaskTimes t) 0])
         (seq 0 (List.length (plugins (pluginChain l))))
    ++ [LogInfo Msg.taskTime [nth (Z.to_nat (hostTaskId l)) (totalTaskTimes t) 0];
        LogInfo Msg.frames [numFramesProcessed X (inputSource l);
                            numFramesProcessed X (outputSource l)];
        LogInfo Msg.shuttingDown []; LogInfo Msg.goodbye []].
Proof.
  cbv zeta. unfold main_report, readWallClock. cbn [fst snd].
  match goal with |- context [fold_left ?g ?xs ?q] =>
    destruct (fold_record_calls X
                (fun i => LogInfo Msg.taskTime
                            [nth i (totalTaskTimes
                               (stopTiming (wallClock X (wallReadings p)) (taskTimer l))) 0])
                xs q) as (Hc & _ & _)
  end.
  cbn [record withClock calls audioClock wallReadings] in *. rewrite Hc. cbn [calls].
  repeat rewrite <- app_assoc. reflexivity.
Qed.

Lemma taskTimeLines_map (times : list Z) :
  taskTimeLines (map (fun time => LogInfo Msg.taskTime [time]) times) = times /\
  totalTimeLines (map (fun time => LogInfo Msg.taskTime [time]) times) = [].
Proof.
  induction times as [|x xs [IH1 IH2]]; [split; reflexivity|].
  unfold taskTimeLines, totalTimeLines in *. cbn [map flat_map].
  rewrite IH1, IH2. split; reflexivity.
Qed.

End ReportFacts.

(** X12. The report of a run that went through the loop logs the total once
    and then one line per slot of the task timer, the plugins' slots in
    chain order and the host's slot last: the times of these lines are the
    slots of the timer as [stopTiming] left them, so that, up to the range of
    the [unsigned long] total, the breakdown adds up to the total. *)
Theorem report_lists_every_slot X fuel argv (l : Locals X) p o :
  main_setup X argv (startProcess X) = (Next l, p) ->
  main X fuel argv = Some o ->
  exists t,
    timer o = Some t /\
    taskTimeLines (calls (final o)) = totalTaskTimes t /\
    List.length (taskTimeLines (calls (final o)))
    = S (List.length (plugins (pluginChain l))) /\
    totalTimeLines (calls (final o))
    = [sumTaskTimes (taskTimeLines (calls (final o))) mod ULONG_MODULUS].
Proof.
  intros Hs Ho.
  destruct (main_setup_locals X _ _ _ Hs) as (_ & _ & Ht & Hh & _).
  pose proof (main_setup_quiet X argv) as (_ & Hw & _). rewrite Hs in Hw. cbn [snd] in Hw.
  pose proof (main_setup_made X argv) as (_ & _ & Q). rewrite Hs in Q. cbn [snd] in Q.
  assert (Hinit : timing (numPlugins (pluginChain l) + 1) (taskTimer l) p).
  { rewrite Ht. apply newTaskTimer_timing; [unfold numPlugins; lia|exact Hw]. }
  destruct (main_stopped X argv fuel l p o Hs Ho) as (n & [Hn _] & _ & (_ & Hf & Htm)).
  destruct (afterBlocks_timing X n l p Hh Hinit) as [Hinv Hopen].
  specialize (Hopen ltac:(lia)).
  destruct (afterBlocks_constants X n l p) as (Hchain & _ & _ & _ & _ & Hhost).
  pose proof (afterBlocks_calls X n l p) as Hcalls.
  pose proof (main_report_calls X (fst (afterBlocks n l p)) (snd (afterBlocks n l p))) as Hrep.
  destruct (main_report_spec X (fst (afterBlocks n l p)) (snd (afterBlocks n l p)))
    as (Ht' & _).
  set (l' := fst (afterBlocks n l p)) in *. set (p' := snd (afterBlocks n l p)) in *.
  destruct (stopTiming_total X _ _ _ Hinv Hopen) as (Hnum & Hlen & _).
  cbv zeta in Hrep.
  set (t := stopTiming (wallClock X (wallReadings p')) (taskTimer l')) in *.
  assert (Hlen' : List.length (totalTaskTimes t)
                  = S (List.length (plugins (pluginChain l)))).
  { rewrite Hlen. unfold numPlugins. lia. }
  assert (Hlines : taskTimeLines (calls (final o)) = totalTaskTimes t /\
                   totalTimeLines (calls (final o)) = [totalProcessingTime t]).
  { rewrite Hf, Hrep, Hcalls, Hchain, Hhost, Hh.
    unfold numPlugins. rewrite Nat2Z.id.
    rewrite !taskTimeLines_app, !totalTimeLines_app.
    destruct (no_time_lines (calls p) (or_introl Q)) as [-> ->].
    destruct (no_time_lines (loopCalls n l p) (or_intror (loopCalls_all X n l p)))
      as [-> ->].
    rewrite <- (map_map (fun i => nth i (totalTaskTimes t) 0)
                  (fun time => LogInfo Msg.taskTime [time])).
    destruct (taskTimeLines_map
                (map (fun i => nth i (totalTaskTimes t) 0)
                   (seq 0 (List.length (plugins (pluginChain l)))))) as [-> ->].
    cbn [app]. split; [|reflexivity].
    change (taskTimeLines
              [StopAudioClock; LogInfo Msg.totalTime [totalProcessingTime t]]) with (@nil Z).
    cbn [app].
    change (taskTimeLines _) with
      [nth (List.length (plugins (pluginChain l))) (totalTaskTimes t) 0].
    transitivity (map (fun i => nth i (totalTaskTimes t) 0)
                    (seq 0 (List.length (totalTaskTimes t)))); [|apply map_nth_all].
    rewrite Hlen', seq_S, map_app. reflexivity. }
  destruct Hlines as [Hl1 Hl2].
  exists (fst (main_report X l' p')). split; [exact Htm|].
  rewrite Ht'. fold t. split; [exact Hl1|]. split; [now rewrite Hl1|].
  rewrite Hl2, Hl1. f_equal. apply totalProcessingTime_sum.
  rewrite Hlen. subst t. now rewrite Hnum.
Qed.

Lemma report_lists_every_slot_witness :
  let options := Machine.options
                   [OPTION_BLOCKSIZE; OPTION_INPUT_SOURCE; OPTION_OUTPUT_SOURCE;
                    OPTION_PLUGIN] "both"%string in
  let X := host (Machine.scenario (Some options) 256 (Some 300) true None) in
  exists o,
    main X 2 Example.argv = Some o /\
    taskTimeLines (calls (final o)) = [20; 20; 40] /\
    totalTimeLines (calls (final o))
    = [sumTaskTimes (taskTimeLines (calls (final o))) mod ULONG_MODULUS].
Proof.
  intros options X.
  destruct (main_setup X Example.argv (startProcess X)) as [[l|rc] p] eqn:E;
    [|vm_compute in E; discriminate].
  destruct (main X 2 Example.argv) as [o|] eqn:Ho; [|vm_compute in Ho; discriminate].
  destruct (report_lists_every_slot X 2 Example.argv l p o E Ho)
    as (t & _ & _ & _ & Htotal).
  exists o. split; [reflexivity|]. split; [|exact Htotal].
  vm_compute in Ho. injection Ho as <-. reflexivity.
Defined.

(** ** The option loop (lines 104-139) *)

Section OptionFacts.

Variable X : Collaborators.

Lemma handleOptions_app programOptions (a b : list OptionIndex) : forall c (p : Process X),
  handleOptions X programOptions (a ++ b) c p
  = match handleOptions X programOptions a c p with
    | (Next c', p') => handleOptions X programOptions b c' p'
    | (Exit rc, p') => (Exit rc, p')
    end.
Proof.
  induction a as [|i a IH]; intros c p; [reflexivity|].
  cbn [app handleOptions]. unfold bind.
  destruct (handleOption X (programOptions i) c p) as [[c'|rc] p']; [apply IH|reflexivity].
Qed.

(** An option other than the plugin option never makes [main] return and
    leaves the chain as it is. *)
Lemma handleOption_goes_on option c (p : Process X) :
  index option <> OPTION_PLUGIN ->
  exists c' p',
    handleOption X option c p = (Next c', p') /\
    cfgPluginChain X c' = cfgPluginChain X c.
Proof.
  intros Hi. unfold handleOption, bind, call, withSettings, ret.
  destruct (enabled option); [|eauto].
  destruct (index option); try congruence; eauto.
Qed.

Lemma handleOptions_go_on programOptions indices : forall c (p : Process X),
  (forall i, In i indices -> index (programOptions i) <> OPTION_PLUGIN) ->
  exists c' p',
    handleOptions X programOptions indices c p = (Next c', p') /\
    cfgPluginChain X c' = cfgPluginChain X c.
Proof.
  induction indices as [|i rest IH]; intros c p Hi; cbn [handleOptions]; [unfold ret; eauto|].
  destruct (handleOption_goes_on (programOptions i) c p (Hi i (or_introl eq_refl)))
    as (c1 & p1 & H1 & Hc1).
  destruct (IH c1 p1 (fun j Hj => Hi j (or_intror Hj))) as (c2 & p2 & H2 & Hc2).
  exists c2, p2. unfold bind. rewrite H1. split; [exact H2|congruence].
Qed.

(** What the options do to one aspect [f] of the locals and the settings,
    when an option of index [k] does [update k] to it. *)
Lemma handleOptions_fold {A} (f : Configured X * Process X -> A)
    (update : OptionIndex -> ProgramOption -> A -> A) programOptions :
  (forall i, index (programOptions i) = i) ->
  (forall option c p c' p',
     handleOption X option c p = (Next c', p') ->
     f (c', p') = update (index option) option (f (c, p))) ->
  forall indices c p c' p',
    handleOptions X programOptions indices c p = (Next c', p') ->
    f (c', p') = fold_left (fun a i => update i (programOptions i) a) indices (f (c, p)).
Proof.
  intros Hidx Hstep. induction indices as [|i rest IH]; intros c p c' p' H;
    cbn [handleOptions fold_left] in *.
  - unfold ret in H. now injection H as <- <-.
  - unfold bind in H.
    destruct (handleOption X (programOptions i) c p) as [[c1|rc] p1] eqn:E; [|discriminate].
    rewrite (IH _ _ _ _ H), (Hstep _ _ _ _ _ E), Hidx. reflexivity.
Qed.

End OptionFacts.

(** One round of the loop, for each kind of option. *)
Ltac option_step :=
  let option := fresh "option" in
  let E := fresh "E" in
  intros option ? ? ? ?;
  unfold handleOption, bind, call, withSettings, ret, exit; cbn [fst snd];
  destruct (enabled option), (index option); intros E;
  try (injection E as <- <-; reflexivity);
  (destruct (addPluginsFromArgumentString _ _ _); [|discriminate]);
  injection E as <- <-; reflexivity.



(** X14. With the array of options indexed by the options' own indices, a
    run that is not an information run returns the invalid-plugin-chain
    status exactly when the plugin option is enabled and
    [addPluginsFromArgumentString] rejects its argument for the empty
    chain; the run then ends inside the option loop, before the chain or
    any source is checked. *)
Theorem invalid_plugin_chain_iff X fuel argv programOptions :
  parseCommandLine X argv = Some programOptions ->
  isInfoRun programOptions argv = false ->
  (forall i, index (programOptions i) = i) ->
  let rejected :=
    enabled (programOptions OPTION_PLUGIN) = true /\
    addPluginsFromArgumentString X newPluginChain
      (argument (programOptions OPTION_PLUGIN)) = None in
  (rejected ->
   exists o,
     main X fuel argv = Some o /\
     status o = RETURN_CODE_INVALID_PLUGIN_CHAIN /\
     count (fun c => match c with InitializePluginChain => true | _ => false end)
       (calls (final o)) = O /\
     forallb (fun c => negb (isSourceIO c)) (calls (final o)) = true) /\
  (forall o, main X fuel argv = Some o ->
     status o = RETURN_CODE_INVALID_PLUGIN_CHAIN -> rejected).
Proof.
  intros Hp Hi Hidx rejected.
  pose proof (main_options_cases X argv (startProcess X)) as Hc. rewrite Hp, Hi in Hc.
  change optionIndices with
    ([OPTION_BLOCKSIZE; OPTION_CHANNELS; OPTION_COLOR_LOGGING; OPTION_DISPLAY_INFO;
      OPTION_FILE_TYPES; OPTION_HELP; OPTION_INPUT_SOURCE; OPTION_MIDI_SOURCE;
      OPTION_OUTPUT_SOURCE]
     ++ OPTION_PLUGIN
        :: [OPTION_QUIET; OPTION_SAMPLERATE; OPTION_VERBOSE; OPTION_VERSION]) in *.
  set (before := [OPTION_BLOCKSIZE; OPTION_CHANNELS; OPTION_COLOR_LOGGING;
                  OPTION_DISPLAY_INFO; OPTION_FILE_TYPES; OPTION_HELP;
                  OPTION_INPUT_SOURCE; OPTION_MIDI_SOURCE; OPTION_OUTPUT_SOURCE]) in *.
  set (after := [OPTION_QUIET; OPTION_SAMPLERATE; OPTION_VERBOSE; OPTION_VERSION]) in *.
  destruct (handleOptions_go_on X programOptions before (unconfigured X) (startProcess X))
    as (c1 & p1 & H1 & Hchain).
  { intros i Hin. rewrite Hidx. subst before. cbn in Hin.
    repeat (destruct Hin as [<-|Hin]; [discriminate|]). contradiction. }
  cbn [cfgPluginChain unconfigured] in Hchain.
  assert (Hafter : forall c p, exists c' p',
            handleOptions X programOptions after c p = (Next c', p')).
  { intros c p. destruct (handleOptions_go_on X programOptions after c p)
      as (c' & p' & H & _); [|eauto].
    intros i Hin. rewrite Hidx. subst after. cbn in Hin.
    repeat (destruct Hin as [<-|Hin]; [discriminate|]). contradiction. }
  assert (Hloop : handleOptions X programOptions (before ++ OPTION_PLUGIN :: after)
                    (unconfigured X) (startProcess X)
                  = match handleOption X (programOptions OPTION_PLUGIN) c1 p1 with
                    | (Next c', p') => handleOptions X programOptions after c' p'
                    | (Exit rc, p') => (Exit rc, p')
                    end).
  { rewrite handleOptions_app, H1. reflexivity. }
  assert (Hplugin : handleOption X (programOptions OPTION_PLUGIN) c1 p1
                    = if enabled (programOptions OPTION_PLUGIN)
                      then match addPluginsFromArgumentString X newPluginChain
                                   (argument (programOptions OPTION_PLUGIN)) with
                           | None =>
                               (Exit RETURN_CODE_INVALID_PLUGIN_CHAIN,
                                record X (AddPluginsFromArgumentString
                                            (argument (programOptions OPTION_PLUGIN))) p1)
                           | Some chain =>
                               (Next {| cfgInputSource := cfgInputSource X c1;
                                        cfgOutputSource := cfgOutputSource X c1;
                                        cfgPluginChain := chain;
                                        cfgDisplayPluginInfo := cfgDisplayPluginInfo X c1;
                                        cfgMidiSource := cfgMidiSource X c1 |},
                                record X (AddPluginsFromArgumentString
                                            (argument (programOptions OPTION_PLUGIN))) p1)
                           end
                      else (Next c1, p1)).
  { unfold handleOption. rewrite Hidx, Hchain. unfold bind, call, exit, ret.
    destruct (enabled (programOptions OPTION_PLUGIN)); [|reflexivity].
    now destruct (addPluginsFromArgumentString X newPluginChain _). }
  split.
  - intros [Hon Hadd]. rewrite Hplugin, Hon, Hadd in Hloop.
    assert (Hs : main_setup X argv (startProcess X)
                 = (Exit RETURN_CODE_INVALID_PLUGIN_CHAIN,
                    record X (AddPluginsFromArgumentString
                                (argument (programOptions OPTION_PLUGIN))) p1)).
    { unfold main_setup. unfold bind at 1. rewrite Hc. unfold bind at 1.
      rewrite Hloop. reflexivity. }
    eexists. split; [apply main_exits, Hs|]. cbn [status final]. split; [reflexivity|].
    pose proof (handleOptions_quiet X programOptions before (unconfigured X) _
                  (startProcess_quiet X isOptionCall)) as (_ & _ & Q).
    rewrite H1 in Q. cbn [snd] in Q. cbn [record calls].
    split.
    + rewrite count_app. unfold count at 2. cbn.
      unfold count. rewrite filter_none; [reflexivity|].
      intros c Hin. rewrite forallb_forall in Q. specialize (Q c Hin).
      destruct c; cbn in *; congruence.
    + rewrite forallb_app. cbn. rewrite andb_true_r.
      rewrite forallb_forall in *. intros c Hin. now apply isOptionCall_not_io, Q.
  - intros o Ho Hst.
    destruct (main_ends X argv fuel o Ho)
      as [[_ ->]|[(? & _ & _ & ->)|[(opts & p & Hp' & _ & He & _)
         |[(? & ? & ? & ? & _ & _ & [-> | ->] & ->)|[(? & ? & ? & ? & _ & _ & _ & ->)
         |[(? & ? & ? & ? & ? & ? & _ & _ & _ & _ & ->)
         |(? & ? & ? & _ & _ & _ & (Hs & _))]]]]]];
      cbn [status] in Hst; try congruence.
    rewrite Hp in Hp'. injection Hp' as <-.
    change optionIndices with (before ++ OPTION_PLUGIN :: after) in He.
    rewrite Hloop, Hplugin in He. subst rejected.
    destruct (enabled (programOptions OPTION_PLUGIN)).
    + destruct (addPluginsFromArgumentString X newPluginChain _) as [chain|]; [|auto].
      destruct (Hafter {| cfgInputSource := cfgInputSource X c1;
                          cfgOutputSource := cfgOutputSource X c1;
                          cfgPluginChain := chain;
                          cfgDisplayPluginInfo := cfgDisplayPluginInfo X c1;
                          cfgMidiSource := cfgMidiSource X c1 |}
                  (record X (AddPluginsFromArgumentString
                               (argument (programOptions OPTION_PLUGIN))) p1))
        as (c' & p' & H'). rewrite H' in He. discriminate.
    + destruct (Hafter c1 p1) as (c' & p' & H'). rewrite H' in He. discriminate.
Qed.

Lemma invalid_plugin_chain_iff_witness :
  let options := Machine.options
                   [OPTION_INPUT_SOURCE; OPTION_OUTPUT_SOURCE; OPTION_PLUGIN]
                   "broken"%string in
  let X := host (Machine.scenario (Some options) 256 (Some 1000) true None) in
  exists o,
    main X 0 Example.argv = Some o /\
    status o = RETURN_CODE_INVALID_PLUGIN_CHAIN /\
    forallb (fun c => negb (isSourceIO c)) (calls (final o)) = true.
Proof.
  intros options X.
  destruct (invalid_plugin_chain_iff X 0 Example.argv options eq_refl eq_refl
              (fun i => eq_refl)) as [H _].
  destruct H as (o & Ho & Hst & _ & Hio); [split; reflexivity|].
  exists o. auto.
Defined.

(** ** The version string (lines 44-46) *)

Lemma truncate_length n : forall text,
  String.length (truncate n text) = Nat.min n (String.length text).
Proof.
  induction n as [|n IH]; intros [|c rest]; cbn [truncate String.length Nat.min];
    try reflexivity.
  now rewrite IH.
Qed.

Lemma truncate_prefix n : forall text,
  exists rest, text = String.append (truncate n text) rest.
Proof.
  induction n as [|n IH]; intros text; cbn [truncate].
  - exists text. now destruct text.
  - destruct text as [|c text']; [now exists String.EmptyString|].
    destruct (IH text') as [rest Hr]. exists rest. cbn. now rewrite <- Hr.
Qed.

Lemma truncate_all n : forall text,
  (String.length text <= n)%nat -> truncate n text = text.
Proof.
  induction n as [|n IH]; intros [|c rest] H; cbn in *; try reflexivity; try lia.
  now rewrite IH by lia.
Qed.

(** X15. [fillVersionString] never writes past the string it is given: the
    capacity stays as it was, a string of capacity 0 is left untouched, and
    otherwise the characters written are the beginning of the text
    ["<name> version <major>.<minor>.<patch>"], fewer than the capacity so
    that the closing NUL fits, and the whole text when it is shorter than
    the capacity. *)
Theorem fillVersionString_fits PROGRAM_NAME VERSION_MAJOR VERSION_MINOR VERSION_PATCH
    (outString : CharString) :
  let text := versionText PROGRAM_NAME VERSION_MAJOR VERSION_MINOR VERSION_PATCH in
  let filled := fillVersionString PROGRAM_NAME VERSION_MAJOR VERSION_MINOR VERSION_PATCH
                  outString in
  capacity filled = capacity outString /\
  (capacity outString = O -> filled = outString) /\
  ((0 < capacity outString)%nat ->
     (String.length (data filled) < capacity outString)%nat /\
     String.length (data filled)
     = Nat.min (capacity outString - 1) (String.length text) /\
     exists rest, text = String.append (data filled) rest) /\
  ((String.length text < capacity outString)%nat -> data filled = text).
Proof.
  intros text filled. subst filled. unfold fillVersionString, snprintf. fold text.
  destruct (capacity outString) as [|room] eqn:Hc.
  - repeat split; try lia; auto.
  - cbn [capacity data]. split; [reflexivity|]. split; [discriminate|]. split.
    + intros _. rewrite truncate_length. split; [lia|]. split.
      * f_equal. lia.
      * apply truncate_prefix.
    + intros H. apply truncate_all. lia.
Qed.

Lemma fillVersionString_fits_witness :
  let outString := {| data := String.EmptyString; capacity := 32 |} in
  data (fillVersionString "MrsWatson"%string 0 1 12 outString)
  = "MrsWatson version 0.1.12"%string /\
  data (fillVersionString "MrsWatson"%string 0 1 12
          {| data := String.EmptyString; capacity := 10 |})
  = "MrsWatson"%string.
Proof.
  intros outString. split.
  - destruct (fillVersionString_fits "MrsWatson"%string 0 1 12 outString)
      as (_ & _ & _ & H).
    rewrite H; [reflexivity|]. vm_compute. lia.
  - destruct (fillVersionString_fits "MrsWatson"%string 0 1 12
                {| data := String.EmptyString; capacity := 10 |})
      as (_ & _ & H & _).
    destruct H as (_ & _ & rest & Hr); [cbn; lia|].
    reflexivity.
Defined.

(** ** The remaining statuses *)

(** X16. [main] returns the I/O error status exactly when the run reached
    the opening of the sources and the input could not be opened, or else
    the output could not be opened, or else the MIDI source that was
    supplied could not be opened or its events could not be read. *)
Theorem io_error_iff X fuel argv c p0 p1 input output p2 :
  main_options X argv (startProcess X) = (Next c, p0) ->
  main_chain X c p0 = (Next tt, p1) ->
  main_sources X c p1 = (Next (input, output), p2) ->
  let failed :=
    fst (openSampleSource X input SAMPLE_SOURCE_OPEN_READ) = false \/
    fst (openSampleSource X output SAMPLE_SOURCE_OPEN_WRITE) = false \/
    exists midiSource,
      cfgMidiSource X c = Some midiSource /\
      (openMidiSource X midiSource = false \/
       fst (readMidiEvents X midiSource) = false) in
  (failed -> exists o, main X fuel argv = Some o /\
                       status o = RETURN_CODE_IO_ERROR /\ timer o = None) /\
  (forall o, main X fuel argv = Some o -> status o = RETURN_CODE_IO_ERROR -> failed).
Proof.
  intros H0 H1 H2 failed.
  pose proof (main_open_cases X c input output p2) as Hopen. cbv zeta in Hopen.
  pose proof (main_setup_from_sources X argv c p0 p1 H0 H1) as Hs.
  unfold bind at 1 in Hs. rewrite H2 in Hs. unfold bind at 1 in Hs.
  split.
  - intros Hf.
    assert (He : exists p, main_open X c (input, output) p2 = (Exit RETURN_CODE_IO_ERROR, p)).
    { rewrite Hopen.
      destruct (fst (openSampleSource X input _)); cbn [negb]; [|eauto].
      destruct (fst (openSampleSource X output _)); cbn [negb]; [|eauto].
      destruct Hf as [Hf|[Hf|(m & Hm & Hf)]]; try discriminate.
      rewrite Hm.
      destruct (openMidiSource X m); cbn [negb]; [|eauto].
      destruct (fst (readMidiEvents X m)); cbn [negb]; [|eauto].
      destruct Hf; discriminate. }
    destruct He as [p He]. rewrite He in Hs.
    eexists. split; [apply main_exits, Hs|]. split; reflexivity.
  - intros o Ho Hst. subst failed.
    destruct (fst (openSampleSource X input _)); [|now left].
    destruct (fst (openSampleSource X output _)); [|now right; left].
    right; right. cbn [negb] in Hopen.
    destruct (cfgMidiSource X c) as [m|].
    + exists m. split; [reflexivity|].
      destruct (openMidiSource X m); [|now left].
      destruct (fst (readMidiEvents X m)); [|now right].
      exfalso. cbn [negb] in Hopen. rewrite Hopen in Hs.
      destruct (main_stopped X argv fuel _ _ o Hs Ho) as (n & _ & _ & (Hsuccess & _)).
      congruence.
    + exfalso. rewrite Hopen in Hs.
      destruct (main_stopped X argv fuel _ _ o Hs Ho) as (n & _ & _ & (Hsuccess & _)).
      congruence.
Qed.

Lemma io_error_iff_witness :
  let options := Machine.options
                   [OPTION_INPUT_SOURCE; OPTION_OUTPUT_SOURCE; OPTION_PLUGIN]
                   "effect"%string in
  let X := host (Machine.scenario (Some options) 256 (Some 1000) false None) in
  exists o,
    main X 0 Example.argv = Some o /\
    status o = RETURN_CODE_IO_ERROR /\ timer o = None.
Proof.
  intros options X.
  destruct (main_options X Example.argv (startProcess X)) as [[c|rc] p0] eqn:E0;
    [|vm_compute in E0; discriminate].
  destruct (main_chain X c p0) as [[[]|rc] p1] eqn:E1;
    [|vm_compute in E0; injection E0 as <- <-; vm_compute in E1; discriminate].
  destruct (main_sources X c p1) as [[[input output]|rc] p2] eqn:E2.
  2:{ vm_compute in E0; injection E0 as <- <-; vm_compute in E1; injection E1 as <-;
      vm_compute in E2; discriminate. }
  destruct (io_error_iff X 0 Example.argv c p0 p1 input output p2 E0 E1 E2) as [H _].
  apply H. right; left.
  vm_compute in E0; injection E0 as <- <-; vm_compute in E1; injection E1 as <-;
    vm_compute in E2; injection E2 as _ <- _. reflexivity.
Defined.

(** X17. [main] returns the missing-required-option status exactly when
    the command line was taken in and either the chain is empty, or the
    chain was initialised and the check of the sources turned the run
    away. *)
Theorem missing_required_option_iff X fuel argv o :
  main X fuel argv = Some o ->
  (status o = RETURN_CODE_MISSING_REQUIRED_OPTION <->
   exists c p0,
     main_options X argv (startProcess X) = (Next c, p0) /\
     (numPlugins (cfgPluginChain X c) = 0 \/
      exists p1,
        main_chain X c p0 = (Next tt, p1) /\
        main_sources X c p1 = (Exit RETURN_CODE_MISSING_REQUIRED_OPTION, final o))).
Proof.
  intros Ho. split.
  - intros Hst.
    destruct (main_ends X argv fuel o Ho)
      as [[_ ->]|[(? & _ & _ & ->)|[(? & ? & _ & _ & _ & ->)
         |[(c & p0 & rc & p & H0 & H1 & _ & ->)|[(c & p0 & p1 & p & H0 & H1 & H2 & ->)
         |[(? & ? & ? & ? & ? & ? & _ & _ & _ & _ & ->)
         |(? & ? & ? & _ & _ & _ & (Hs & _))]]]]]];
      cbn [status] in Hst; try congruence.
    + subst rc. exists c, p0. split; [exact H0|]. left.
      unfold main_chain, fail, bind, call, exit, ret in H1.
      destruct (Z.eqb_spec (numPlugins (cfgPluginChain X c)) 0) as [Hz|Hz]; [exact Hz|].
      destruct (negb (initializePluginChain X (cfgPluginChain X c))); [discriminate|].
      destruct (cfgDisplayPluginInfo X c); discriminate.
    + exists c, p0. split; [exact H0|]. right. exists p1. auto.
  - intros (c & p0 & H0 & [Hz|(p1 & H1 & H2)]).
    + assert (Hs : main_setup X argv (startProcess X)
                   = (Exit RETURN_CODE_MISSING_REQUIRED_OPTION,
                      record X (LogError Msg.noPlugins) p0)).
      { unfold main_setup. unfold bind at 1. rewrite H0.
        unfold bind at 1. unfold main_chain. rewrite Hz. reflexivity. }
      rewrite (main_exits X argv fuel _ _ Hs) in Ho. now injection Ho as <-.
    + pose proof (main_setup_from_sources X argv c p0 p1 H0 H1) as Hs.
      unfold bind at 1 in Hs. rewrite H2 in Hs.
      rewrite (main_exits X argv fuel _ _ Hs) in Ho. now injection Ho as <-.
Qed.

Lemma missing_required_option_iff_witness :
  let options := Machine.options [OPTION_INPUT_SOURCE; OPTION_OUTPUT_SOURCE]
                   ""%string in
  let X := host (Machine.scenario (Some options) 256 (Some 1000) true None) in
  exists o c p0,
    main X 0 Example.argv = Some o /\
    status o = RETURN_CODE_MISSING_REQUIRED_OPTION /\
    main_options X Example.argv (startProcess X) = (Next c, p0).
Proof.
  intros options X.
  destruct (main X 0 Example.argv) as [o|] eqn:Ho; [|vm_compute in Ho; discriminate].
  assert (Hst : status o = RETURN_CODE_MISSING_REQUIRED_OPTION).
  { vm_compute in Ho. injection Ho as <-. reflexivity. }
  destruct (missing_required_option_iff X 0 Example.argv o Ho) as [H _].
  destruct (H Hst) as (c & p0 & H0 & _).
  exists o, c, p0. auto.
Defined.

(** ** From the options to the loop *)

Section SettingsFacts.

Variable X : Collaborators.

Ltac settles :=
  repeat match goal with
    | |- preserves _ (ret _ _) => apply preserves_ret
    | |- preserves _ (exit _ _) => apply preserves_exit
    | |- preserves _ (call _ _) => intros ? ?; assumption
    | |- preserves _ (fail _ _ _) => intros ? ?; assumption
    | |- preserves _ (bind _ _ _) => apply preserves_bind; [|intros ?]
    end.

Lemma main_chain_settled a c : preserves (fun p => audioSettings p = a) (main_chain X c).
Proof.
  unfold main_chain.
  destruct (_ =? _); settles.
  destruct (negb _); settles.
  destruct (cfgDisplayPluginInfo X c); settles.
Qed.

Lemma main_sources_settled a c : preserves (fun p => audioSettings p = a) (main_sources X c).
Proof.
  unfold main_sources.
  destruct (cfgOutputSource X c); settles.
  destruct (cfgInputSource X c); settles.
  destruct (plugins _) as [|headPlugin ?]; settles.
  destruct (PluginType_eqb _ _); settles.
  destruct (cfgMidiSource X c); settles.
Qed.

Lemma main_open_settled a c sources : preserves (fun p => audioSettings p = a) (main_open X c sources).
Proof.
  unfold main_open. destruct sources as [input output]. settles.
  destruct (openSampleSource X input _) as [opened input'].
  destruct (negb opened); settles.
  destruct (openSampleSource X output _) as [opened' output'].
  destruct (negb opened'); settles.
  destruct (cfgMidiSource X c) as [midiSource|]; settles.
  destruct (negb (openMidiSource X midiSource)); settles.
  destruct (readMidiEvents X midiSource) as [eventsRead sequence].
  destruct (negb eventsRead); settles.
Qed.

End SettingsFacts.

(** X18. The block size of the loop is the one the command line asked for:
    with the array of options indexed by the options' own indices, the
    loop is entered with the blocksize that [getBlocksize] reads from the
    initial settings after the blocksize option, and then the channels
    option, were applied to them when enabled; nothing between the option
    loop and the processing loop changes the settings, and both sample
    buffers are made for that blocksize. *)
Theorem blocksize_option_sets_the_block X argv programOptions (l : Locals X) p :
  parseCommandLine X argv = Some programOptions ->
  (forall i, index (programOptions i) = i) ->
  main_setup X argv (startProcess X) = (Next l, p) ->
  let on i := enabled (programOptions i) in
  let arg i := argument (programOptions i) in
  let settings :=
    (if on OPTION_CHANNELS then setNumChannels X (strtol X (arg OPTION_CHANNELS))
     else fun a => a)
      ((if on OPTION_BLOCKSIZE then setBlocksize X (strtol X (arg OPTION_BLOCKSIZE))
        else fun a => a) (initAudioSettings X)) in
  blocksize l = getBlocksize X settings /\
  inputSampleBuffer l = newSampleBuffer (getNumChannels X settings) (getBlocksize X settings) /\
  outputSampleBuffer l = newSampleBuffer (getNumChannels X settings) (getBlocksize X settings).
Proof.
  intros Hp Hidx Hs on arg settings.
  destruct (main_setup_stages X _ _ _ Hs)
    as (c & p0 & p1 & sources & p2 & opened & p3 & H0 & H1 & H2 & H3 & H4).
  pose proof (main_options_cases X argv (startProcess X)) as Hc. rewrite Hp in Hc.
  destruct (isInfoRun programOptions argv); [congruence|].
  rewrite Hc in H0. unfold bind at 1 in H0.
  destruct (handleOptions X programOptions optionIndices (unconfigured X) (startProcess X))
    as [[c'|rc] p'] eqn:E; [|discriminate].
  injection H0 as <- <-.
  assert (Hsettings := handleOptions_fold X (fun s => audioSettings (snd s))
            (fun k option a =>
               match k with
               | OPTION_BLOCKSIZE =>
                   if enabled option then setBlocksize X (strtol X (argument option)) a
                   else a
               | OPTION_CHANNELS =>
                   if enabled option then setNumChannels X (strtol X (argument option)) a
                   else a
               | _ => a
               end) programOptions Hidx ltac:(option_step) _ _ _ _ _ E).
  cbv beta iota delta [fold_left optionIndices fst snd] in Hsettings.
  assert (Ha : audioSettings p' = settings).
  { rewrite Hsettings. subst settings on arg. cbn [startProcess audioSettings].
    now destruct (enabled (programOptions OPTION_CHANNELS)),
      (enabled (programOptions OPTION_BLOCKSIZE)). }
  assert (A0 : audioSettings (record X (LogInfo Msg.initialized []) p') = settings)
    by exact Ha.
  pose proof (main_chain_settled X settings c' _ A0) as A1. rewrite H1 in A1.
  cbn [snd] in A1.
  pose proof (main_sources_settled X settings c' _ A1) as A2. rewrite H2 in A2.
  cbn [snd] in A2.
  pose proof (main_open_settled X settings c' sources _ A2) as A3. rewrite H3 in A3.
  cbn [snd] in A3.
  unfold main_locals in H4. destruct opened as [[input output] sequence].
  injection H4 as <- _. cbn [blocksize inputSampleBuffer outputSampleBuffer].
  rewrite A3. repeat split.
Qed.

Lemma blocksize_option_sets_the_block_witness :
  let options := Machine.options
                   [OPTION_BLOCKSIZE; OPTION_INPUT_SOURCE; OPTION_OUTPUT_SOURCE;
                    OPTION_PLUGIN] "effect"%string in
  let X := host (Machine.scenario (Some options) 64 (Some 1000) true None) in
  exists l p,
    main_setup X Example.argv (startProcess X) = (Next l, p) /\
    blocksize l = 64 /\
    inputSampleBuffer l = newSampleBuffer 2 64.
Proof.
  intros options X.
  destruct (main_setup X Example.argv (startProcess X)) as [[l|rc] p] eqn:E;
    [|vm_compute in E; discriminate].
  destruct (blocksize_option_sets_the_block X Example.argv options l p eq_refl
              (fun i => eq_refl) E) as (Hb & Hi & _).
  exists l, p. split; [reflexivity|]. rewrite Hb, Hi. split; reflexivity.
Defined.

Lemma silenceSelected_app (a b : list Call) :
  silenceSelected (a ++ b) = silenceSelected a || silenceSelected b.
Proof. apply existsb_app. Qed.

(** X19. The silence source is only ever the input of a run whose loop is
    driven by MIDI: when the loop is entered after the silence source was
    made the input by default, a MIDI sequence has been loaded, so that the
    endless input cannot keep the loop running by itself. *)
Theorem silence_default_comes_with_midi X argv (l : Locals X) p :
  main_setup X argv (startProcess X) = (Next l, p) ->
  silenceSelected (calls p) = true ->
  exists sequence, midiSequence l = Some sequence.
Proof.
  intros Hs Hsilence.
  destruct (main_setup_stages X _ _ _ Hs)
    as (c & p0 & p1 & [input output] & p2 & opened & p3 & H0 & H1 & H2 & H3 & H4).
  assert (Q1 : silenceSelected (calls p1) = false).
  { pose proof (main_chain_no_silence X c p0) as Hc. rewrite H1 in Hc. apply Hc.
    pose proof (main_options_no_silence X argv) as Ho. now rewrite H0 in Ho. }
  pose proof (main_open_cases X c input output p2) as Hopen. cbv zeta in Hopen.
  rewrite H3 in Hopen.
  unfold main_locals in H4. destruct opened as [[input' output'] sequence].
  injection H4 as <- <-. cbn [midiSequence]. cbn [record calls] in Hsilence.
  destruct (negb (fst (openSampleSource X input _))); [discriminate|].
  destruct (negb (fst (openSampleSource X output _))); [discriminate|].
  destruct (cfgMidiSource X c) as [midiSource|] eqn:Hm.
  - destruct (negb (openMidiSource X midiSource)); [discriminate|].
    destruct (negb (fst (readMidiEvents X midiSource))); [discriminate|].
    injection Hopen as _ _ -> _. eauto.
  - exfalso. injection Hopen as _ _ _ ->. cbn [record calls] in Hsilence.
    rewrite !silenceSelected_app in Hsilence. cbn in Hsilence.
    rewrite !orb_false_r in Hsilence.
    unfold main_sources, fail, bind, call, exit, ret in H2.
    destruct (cfgOutputSource X c); [|discriminate].
    destruct (cfgInputSource X c).
    + injection H2 as _ _ <-. congruence.
    + destruct (plugins (cfgPluginChain X c)) as [|head rest]; [discriminate|].
      destruct (PluginType_eqb _ _); [|discriminate].
      rewrite Hm in H2. discriminate.
Qed.

Lemma silence_default_comes_with_midi_witness :
  let X := host (Example.scenario false true true "instrument"%string 0) in
  exists l p sequence,
    main_setup X Example.argv (startProcess X) = (Next l, p) /\
    silenceSelected (calls p) = true /\
    midiSequence l = Some sequence.
Proof.
  intros X.
  destruct (main_setup X Example.argv (startProcess X)) as [[l|rc] p] eqn:E;
    [|vm_compute in E; discriminate].
  assert (Hsilence : silenceSelected (calls p) = true).
  { vm_compute in E. injection E as _ <-. reflexivity. }
  destruct (silence_default_comes_with_midi X Example.argv l p E Hsilence)
    as [sequence Hm].
  exists l, p, sequence. auto.
Defined.
